(** * The TSFC driver ([tsfc/driver.py]): embedding and verified properties

    The driver turns one UFL integral-data group into an assembly kernel.
    Its own code is list and dictionary bookkeeping around a pipeline of
    collaborators (quadrature selection, tabulation, lowering to GEM,
    scheduling, COFFEE generation) that live in other modules.  The
    embedding below follows [driver.py] statement by statement:

    - Python values held in the parameter dictionaries are [pyval]s and the
      dictionaries are [gmap string pyval];
    - exceptions are the [exn] type and a computation is a state-and-error
      function over the dictionary object handed in by the caller, a trace
      of the lowering calls, and the private state of the collaborators;
    - the collaborators are the fields of one record, [collaborators];
    - the two places where one run of the interpreter can differ from the
      next (the order in which objects compare, and the order in which a
      set of free indices is iterated) are the fields of [interpreter]. *)

From Stdlib Require Import FunctionalExtensionality.
From stdpp Require Import base gmap strings list sorting pretty.

Open Scope string_scope.
Open Scope list_scope.
Open Scope nat_scope.

(** ** Python built-ins used by the driver *)

Module Py.

Section stable_sort.
Context {A : Type} (le : A → A → bool).

(** [insert x l] puts [x] in front of the first element that is not
    smaller: elements that compare equal keep their input order. *)
Fixpoint insert (x : A) (l : list A) : list A :=
  match l with
  | [] => [x]
  | y :: l' => if le x y then x :: y :: l' else y :: insert x l'
  end.

(** [sorted(l)]: a stable sort. *)
Definition sorted (l : list A) : list A := foldr insert [] l.
End stable_sort.

(** [enumerate(l, start)] and [enumerate(l)] *)
Fixpoint enumerate_from {A} (start : nat) (l : list A) : list (nat * A) :=
  match l with
  | [] => []
  | x :: l' => (start, x) :: enumerate_from (S start) l'
  end.

Definition enumerate {A} (l : list A) : list (nat * A) := enumerate_from 0 l.

(** [zip] applied to the unpacked list [ls]: the tuples of k-th elements,
    as long as every list has a k-th element; [zip] of no list at all is
    empty. *)
Fixpoint zip_star {A} (ls : list (list A)) : list (list A) :=
  match ls with
  | [] => []
  | [l] => (λ x, [x]) <$> l
  | l :: ls' => zip_with cons l (zip_star ls')
  end.

(** [reduce(f, l, init)] *)
Definition reduce {A B} (f : B → A → B) (l : list A) (init : B) : B :=
  foldl f init l.

(** [l.insert(i, x)]: past the end it appends. *)
Definition list_insert {A} (i : nat) (x : A) (l : list A) : list A :=
  take i l ++ x :: drop i l.

End Py.

(** ** [numpy.unique(ar, return_index=True)] followed by [numpy.sort] *)

Module Numpy.

Section unique.
Context {A : Type} `{EqDecision A} (le : A → A → bool).

(** [perm = ar.argsort(kind='mergesort'); aux = ar[perm]], kept together
    as the list of pairs [(perm[k], aux[k])].  The sort is stable. *)
Definition argsort (ar : list A) : list (nat * A) :=
  Py.sorted (λ p q, le p.2 q.2) (Py.enumerate ar).

(** [flag[k] = (aux[k] != aux[k-1])] for [k > 0]. *)
Fixpoint flagged (prev : A) (aux : list (nat * A)) : list (nat * A) :=
  match aux with
  | [] => []
  | (i, a) :: rest =>
      if decide (a = prev) then flagged a rest else (i, a) :: flagged a rest
  end.

(** Returns [(aux[flag], perm[flag])], where [flag[0]] is [True]. *)
Definition unique_return_index (ar : list A) : list A * list nat :=
  match argsort ar with
  | [] => ([], [])
  | (i, a) :: rest =>
      let sel := (i, a) :: flagged a rest in (sel.*2, sel.*1)
  end.

(** [numpy.sort] of an array of positions. *)
Definition sort (positions : list nat) : list nat :=
  Py.sorted Nat.leb positions.

(** [ar[positions]] (fancy indexing; the positions used are in range). *)
Definition take_at (ar : list A) (positions : list nat) : list A :=
  omap (λ i, ar !! i) positions.
End unique.

End Numpy.

(** ** The ordering helpers of [driver.py] *)

Section ordering.
Context {index : Type} `{Countable index}.

(** Lines 225-226 of [build_kernel_body]:
<<
    _, unique_indices = numpy.unique(indices, return_index=True)
    indices = numpy.asarray(indices)[numpy.sort(unique_indices)]
>>
    [le] is the order in which the interpreter compares the objects. *)
Definition unique_indices (le : index → index → bool)
    (indices : list index) : list index :=
  let '(_, unique_indices) := Numpy.unique_return_index le indices in
  Numpy.take_at indices (Numpy.sort unique_indices).

(** [make_prefix_ordering]:
<<
    return tuple(prefix_ordering) + tuple(k for k in indices if k not in prefix_ordering)
>> *)
Definition make_prefix_ordering (indices prefix_ordering : list index)
    : list index :=
  prefix_ordering ++ filter (λ k, k ∉ prefix_ordering) indices.

(** [idx2pos = {idx: pos for pos, idx in enumerate(index_ordering)}]:
    a later position overwrites an earlier one. *)
Definition idx2pos (index_ordering : list index) : gmap index nat :=
  foldl (λ d '(pos, idx), <[idx := pos]> d) ∅ (Py.enumerate index_ordering).

(** [apply_ordering] of [make_index_orderer]:
<<
    return tuple(sorted(indices, key=lambda i: idx2pos[i]))
>>
    [None] stands for the [KeyError] of an index that has no position. *)
Definition make_index_orderer (index_ordering : list index)
    (indices : list index) : option (list index) :=
  keyed ← mapM (λ i, pos ← idx2pos index_ordering !! i; Some (i, pos)) indices;
  Some ((Py.sorted (λ p q, Nat.leb p.2 q.2) keyed).*1).

(** The specification of "no duplicates, first occurrences kept in
    order": [seen] are the elements already emitted. *)
Fixpoint first_occurrences_from (seen indices : list index) : list index :=
  match indices with
  | [] => []
  | i :: rest =>
      if decide (i ∈ seen) then first_occurrences_from seen rest
      else i :: first_occurrences_from (i :: seen) rest
  end.

Definition first_occurrences (indices : list index) : list index :=
  first_occurrences_from [] indices.
End ordering.

(** ** Python values, exceptions and COFFEE declarations *)

Inductive exn :=
| ValueError (msg : string)
| KeyError (key : string)
| IndexError
| AttributeError (attr : string)
| UnboundLocalError (name : string)
| CollaboratorError (msg : string).

(** The calls made for the [i]-th integral of a group, in the order the
    loop of [compile_integral] makes them.  The trace is instrumentation:
    the driver does not read it. *)
Inductive event :=
| EvCreateQuadrature (i : nat)
| EvTabulationManager (i : nat)
| EvReplaceCoordinates (i : nat)
| EvProcess (i : nat).

Global Instance event_eq_dec : EqDecision event.
Proof. solve_decision. Defined.

(** [coffee.Symbol(name, rank=...)] *)
Record Symbol := { symbol : string; rank : list nat }.

(** [coffee.Decl(typ, sym, qualifiers=...)] *)
Record Decl := { typ : string; sym : Symbol; qualifiers : list string }.

(** The cell of a mesh and the mesh, as far as the driver looks at them. *)
Record cell := { cellname : string }.
Record mesh := { ufl_cell : cell; ufl_coordinate_element_degree : Z }.

(** [is_mesh_affine] *)
Definition is_mesh_affine (m : mesh) : bool :=
  let affine_cells := ["interval"; "triangle"; "tetrahedron"] in
  let degree := ufl_coordinate_element_degree m in
  bool_decide (cellname (ufl_cell m) ∈ affine_cells) && bool_decide (degree = 1%Z).

(** Lines 125-132 of [compile_integral]: what the facet branch appends to
    [arglist]. *)
Definition facet_decl (n : nat) : Decl :=
  {| typ := "unsigned int";
     sym := {| symbol := "facet"; rank := [n] |};
     qualifiers := ["const"] |}.

Definition facet_arguments (integral_type : string) : list Decl :=
  if bool_decide (integral_type ∈ ["exterior_facet"; "exterior_facet_vert"])
  then [facet_decl 1]
  else if bool_decide (integral_type ∈ ["interior_facet"; "interior_facet_vert"])
  then [facet_decl 2]
  else [].

(** Line 194: the declaration inserted when the kernel is oriented. *)
Definition cell_orientations_decl : Decl :=
  {| typ := "int *restrict *restrict";
     sym := {| symbol := "cell_orientations"; rank := [] |};
     qualifiers := ["const"] |}.

Section Driver.
Context {scalar ufl_form ufl_expr ufl_argument coefficient index gem stmt
         tabulation_manager index_cache impero_op impero_c world : Type}.
Context `{Countable index} `{Countable coefficient}.

(** [tsfc.quadrature.QuadratureRule] *)
Record QuadratureRule :=
  { points : list (list scalar); weights : list scalar }.

(** The values met in [parameters] and in the metadata of an integral. *)
Inductive pyval :=
| PyNone
| PyBool (b : bool)
| PyInt (z : Z)
| PyStr (s : string)
| PyQuadratureRule (q : QuadratureRule)
| PyObject (class_name : string).

(** Truth value of a Python object. *)
Definition truthy (v : pyval) : bool :=
  match v with
  | PyNone => false
  | PyBool b => b
  | PyInt z => negb (z =? 0)%Z
  | PyStr s => negb (String.eqb s "")
  | PyQuadratureRule _ | PyObject _ => true
  end.

(** [v == "auto"] *)
Definition is_auto (v : option pyval) : bool :=
  match v with
  | Some (PyStr s) => String.eqb s "auto"
  | _ => false
  end.

(** ["%s" % v] and [type(v)], for the kernel name and the error text. *)
Definition py_str (v : pyval) : string :=
  match v with
  | PyNone => "None"
  | PyBool true => "True"
  | PyBool false => "False"
  | PyInt z => pretty z
  | PyStr s => s
  | PyQuadratureRule _ => "<QuadratureRule>"
  | PyObject c => "<" +:+ c +:+ ">"
  end.

Definition py_type (v : pyval) : string :=
  match v with
  | PyNone => "<type 'NoneType'>"
  | PyBool _ => "<type 'bool'>"
  | PyInt _ => "<type 'int'>"
  | PyStr _ => "<type 'str'>"
  | PyQuadratureRule _ => "<class 'tsfc.quadrature.QuadratureRule'>"
  | PyObject c => "<class '" +:+ c +:+ "'>"
  end.

(** [d.update(other)]: the entries of [other] win. *)
Definition dict_update (d other : gmap string pyval) : gmap string pyval :=
  other ∪ d.

(** *** The UFL side: integrals, integral data, form data *)

Record integral := {
  integrand : ufl_expr;
  metadata : gmap string pyval;
  integral_subdomain_id : pyval }.

Record integral_data := {
  integral_type : string;
  subdomain_id : pyval;
  domain : mesh;
  enabled_coefficients : list bool;
  integrals : list integral }.

Record form_data := {
  preprocessed_form_arguments : list ufl_argument;
  reduced_coefficients : list coefficient;
  original_coefficient_positions : list nat;
  fd_integral_data : list integral_data }.

(** *** The output: [coffee.FunDecl] and [Kernel] *)

Record FunDecl := {
  ret_type : string;
  funname : string;
  args : list Decl;
  body : list stmt;
  pred : list string }.

Record Kernel := {
  ast : FunDecl;
  kernel_integral_type : string;
  kernel_subdomain_id : pyval;
  coefficient_numbers : list nat;
  oriented : bool }.

(** *** Collaborators

    A call into another module may raise and may change that module's
    own state (memoisation tables, freshly allocated [gem.Index]
    objects), of type [world]; it cannot reach the driver's locals. *)
Definition ext (A : Type) : Type := world → (exn + A) * world.

(** The result of [get_indices], handed to the scheduler as a callback. *)
Definition index_getter : Type := gem → exn + list index.

Record collaborators := {
  (* tsfc.constants, ufl.algorithms *)
  default_parameters : ext (gmap string pyval);
  compute_form_data : ufl_form → ext form_data;
  (* tsfc.kernel_interface *)
  prepare_arguments :
    string → list ufl_argument → ext (Decl * list stmt * list gem * list stmt);
  prepare_coefficient :
    string → coefficient → string → option string → ext (Decl * list stmt * gem);
  (* tsfc.quadrature *)
  create_quadrature : cell → string → pyval → ext QuadratureRule;
  (* tsfc.fem *)
  coordinate_coefficient : mesh → ext coefficient;
  TabulationManager : string → cell → list (list scalar) → ext tabulation_manager;
  replace_coordinates : ufl_expr → coefficient → ext ufl_expr;
  process :
    string → ufl_expr → tabulation_manager → list scalar → index →
    list index → gmap coefficient gem → index_cache → ext (list gem * index_cache);
  (* collections.defaultdict(gem.Index) *)
  new_index_cache : index_cache;
  (* tsfc.gem *)
  Index : string → ext index;
  is_Index : index → bool;
  Zero : gem;
  Sum : gem → gem → gem;
  IndexSum : gem → index → gem;
  multiindex : gem → option (list index);
  variable_name : gem → option string;
  (* tsfc.optimise, tsfc.node *)
  unroll_indexsum : list gem → pyval → ext (list gem);
  remove_componenttensors : list gem → ext (list gem);
  traversal : list gem → ext (list gem);
  (* tsfc.scheduling, tsfc.impero_utils, tsfc.coffee *)
  emit_operations : list (gem * gem) → index_getter → ext (list impero_op);
  inline_temporaries : list gem → list impero_op → pyval → ext (list impero_op);
  impero_process : list impero_op → index_getter → ext impero_c;
  generate_coffee : impero_c → list (index * string) → ext stmt;
  (* body.open_scope = False *)
  close_scope : stmt → stmt }.

(** What may differ between two runs of the interpreter on the same
    input: how it orders objects (by address, for objects without a
    comparison of their own) and in which order it iterates the set
    [e.free_indices]. *)
Record interpreter := {
  object_le : index → index → bool;
  free_indices : gem → list index }.

(** *** The driver's computations *)

Record state := {
  parameters : gmap string pyval;   (* the dictionary object of the caller *)
  trace : list event;
  ext_state : world }.

Definition M (A : Type) : Type := state → (exn + A) * state.

Definition ret {A} (a : A) : M A := λ s, (inr a, s).

Definition bind {A B} (m : M A) (k : A → M B) : M B :=
  λ s, match m s with
       | (inl e, s') => (inl e, s')
       | (inr a, s') => k a s'
       end.

Definition raise {A} (e : exn) : M A := λ s, (inl e, s).

Definition call {A} (c : ext A) : M A :=
  λ s, let '(r, w) := c (ext_state s) in
       (r, {| parameters := parameters s; trace := trace s; ext_state := w |}).

Definition log (ev : event) : M unit :=
  λ s, (inr (), {| parameters := parameters s; trace := trace s ++ [ev];
                   ext_state := ext_state s |}).

Definition get_parameters : M (gmap string pyval) :=
  λ s, (inr (parameters s), s).

Definition set_parameters (p : gmap string pyval) : M unit :=
  λ s, (inr (), {| parameters := p; trace := trace s; ext_state := ext_state s |}).

Definition from_option {A} (e : exn) (o : option A) : M A :=
  match o with Some a => ret a | None => raise e end.

Notation "x <- m ;; k" := (bind m (λ x, k))
  (at level 100, m at next level, right associativity,
   format "'[v' x  <-  m  ;; '/' k ']'").

(** [d[key]] on the caller's dictionary *)
Definition parameter (key : string) : M pyval :=
  p <- get_parameters ;; from_option (KeyError key) (p !! key).

Variable E : collaborators.
Variable I : interpreter.

(** *** [compile_integral], lines 71-75

    ["auto"] entries are deleted from the dictionary that was passed in. *)
Definition strip_auto (p : gmap string pyval) : gmap string pyval :=
  let p := if is_auto (p !! "quadrature_degree")
           then delete "quadrature_degree" p else p in
  if is_auto (p !! "quadrature_rule") then delete "quadrature_rule" p else p.

Definition remove_auto_parameters : M unit :=
  p <- get_parameters ;; set_parameters (strip_auto p).

(** *** Lines 77-132: the kernel arguments *)

Record kernel_arguments := {
  arglist : list Decl;
  prepare : list stmt;
  finalise : list stmt;
  expressions : list gem;
  argument_indices : list index;
  coordinates : coefficient;
  coefficient_map : gmap coefficient gem;
  ka_coefficient_numbers : list nat }.

(** The loop of lines 108-121 over [enumerate(idata.enabled_coefficients)];
    the accumulator holds [coefficient_numbers], [arglist], [prepare] and
    [coefficient_map]. *)
Fixpoint prepare_coefficients (integral_type : string) (fd : form_data)
    (enabled : list (nat * bool))
    (acc : list nat * list Decl * list stmt * gmap coefficient gem)
    : M (list nat * list Decl * list stmt * gmap coefficient gem) :=
  match enabled with
  | [] => ret acc
  | (i, on) :: enabled' =>
      if negb on then prepare_coefficients integral_type fd enabled' acc
      else
        let '(coefficient_numbers, arglist, prepare, coefficient_map) := acc in
        coefficient <- from_option IndexError (reduced_coefficients fd !! i) ;;
        position <- from_option IndexError (original_coefficient_positions fd !! i) ;;
        let coefficient_numbers := coefficient_numbers ++ [position] in
        r <- call (prepare_coefficient E integral_type coefficient
                     ("w_" +:+ pretty i) None) ;;
        let '(funarg, prepare_, expression) := r in
        prepare_coefficients integral_type fd enabled'
          (coefficient_numbers, arglist ++ [funarg], prepare ++ prepare_,
           <[coefficient := expression]> coefficient_map)
  end.

Definition prepare_kernel_arguments (idata : integral_data) (fd : form_data)
    : M kernel_arguments :=
  let integral_type := integral_type idata in
  r <- call (prepare_arguments E integral_type (preprocessed_form_arguments fd)) ;;
  let '(funarg, prepare_, expressions, finalise) := r in
  (* line 85 is overwritten by line 89; like line 89 it needs expressions[0] *)
  expression0 <- from_option IndexError (expressions !! 0) ;;
  let arglist := [funarg] in
  let prepare := prepare_ in
  multiindex0 <- from_option (AttributeError "multiindex") (multiindex E expression0) ;;
  let argument_indices := filter (λ i, is_Index E i = true) multiindex0 in
  let mesh := domain idata in
  coordinates <- call (coordinate_coefficient E mesh) ;;
  r <- call (prepare_coefficient E integral_type coordinates "coords"
               (if is_mesh_affine mesh then Some "list_tensor" else None)) ;;
  let '(funarg, prepare_, expression) := r in
  let arglist := arglist ++ [funarg] in
  let prepare := prepare ++ prepare_ in
  let coefficient_map := <[coordinates := expression]> (∅ : gmap coefficient gem) in
  r <- prepare_coefficients integral_type fd
         (Py.enumerate (enabled_coefficients idata))
         ([], arglist, prepare, coefficient_map) ;;
  let '(coefficient_numbers, arglist, prepare, coefficient_map) := r in
  let arglist := arglist ++ facet_arguments integral_type in
  ret {| arglist := arglist; prepare := prepare; finalise := finalise;
         expressions := expressions; argument_indices := argument_indices;
         coordinates := coordinates; coefficient_map := coefficient_map;
         ka_coefficient_numbers := coefficient_numbers |}.

(** *** Lines 143-175: lowering the integrals of the group *)

(** Lines 144-148: the metadata of the integral, overridden by
    [parameters]. *)
Definition integral_params (parameters : gmap string pyval) (itg : integral)
    : gmap string pyval :=
  dict_update (dict_update ∅ (metadata itg)) parameters.

(** Lines 152-153.  The default argument of [get] is evaluated first, so a
    missing estimate is a [KeyError] even when a degree is given. *)
Definition quadrature_degree (params : gmap string pyval) : exn + pyval :=
  match params !! "estimated_polynomial_degree" with
  | None => inl (KeyError "estimated_polynomial_degree")
  | Some estimated => inr (default estimated (params !! "quadrature_degree"))
  end.

Definition of_sum {A} (r : exn + A) : M A :=
  match r with inl e => raise e | inr a => ret a end.

(** Lines 158-160 *)
Definition check_quadrature_rule (quad_rule : pyval) : M QuadratureRule :=
  match quad_rule with
  | PyQuadratureRule q => ret q
  | other => raise (ValueError
      ("Expected to find a QuadratureRule object, not a " +:+ py_type other))
  end.

(** Line 174-175 *)
Definition sum_over_quadrature (quadrature_index : index) (nonfem : list gem)
    : list gem :=
  (λ e, if bool_decide (quadrature_index ∈ free_indices I e)
        then IndexSum E e quadrature_index else e) <$> nonfem.

(** Lines 144-175: the body of the loop, for the [i]-th integral. *)
Definition lower_integral (integral_type : string) (cell : cell)
    (ka : kernel_arguments) (i : nat) (itg : integral)
    (cache : index_cache) : M (list gem * index * index_cache) :=
  parameters <- get_parameters ;;
  let params := integral_params parameters itg in
  quadrature_degree <- of_sum (quadrature_degree params) ;;
  _ <- log (EvCreateQuadrature i) ;;
  default_rule <- call (create_quadrature E cell integral_type quadrature_degree) ;;
  let quad_rule :=
    default (PyQuadratureRule default_rule) (params !! "quadrature_rule") in
  quad_rule <- check_quadrature_rule quad_rule ;;
  _ <- log (EvTabulationManager i) ;;
  tabulation_manager <-
    call (TabulationManager E integral_type cell (points quad_rule)) ;;
  _ <- log (EvReplaceCoordinates i) ;;
  integrand <- call (replace_coordinates E (integrand itg) (coordinates ka)) ;;
  quadrature_index <- call (Index E ("ip" +:+ pretty i)) ;;
  _ <- log (EvProcess i) ;;
  r <- call (process E integral_type integrand tabulation_manager
               (weights quad_rule) quadrature_index (argument_indices ka)
               (coefficient_map ka) cache) ;;
  let '(nonfem, cache) := r in
  unroll <- parameter "unroll_indexsum" ;;
  nonfem <- (if truthy unroll then call (unroll_indexsum E nonfem unroll)
             else ret nonfem) ;;
  ret (sum_over_quadrature quadrature_index nonfem, quadrature_index, cache).

(** The loop of line 143 over [enumerate(idata.integrals)]; [nonfem_] and
    [quadrature_indices] are the lists it appends to. *)
Fixpoint lower_integrals (integral_type : string) (cell : cell)
    (ka : kernel_arguments) (terms : list (nat * integral))
    (nonfem_ : list (list gem)) (quadrature_indices : list index)
    (index_cache : index_cache) : M (list (list gem) * list index) :=
  match terms with
  | [] => ret (nonfem_, quadrature_indices)
  | (i, itg) :: terms' =>
      r <- lower_integral integral_type cell ka i itg index_cache ;;
      let '(nonfem, quadrature_index, index_cache) := r in
      lower_integrals integral_type cell ka terms'
        (nonfem_ ++ [nonfem]) (quadrature_indices ++ [quadrature_index])
        index_cache
  end.

(** Line 178: sum the expressions that are part of the same restriction *)
Definition sum_restrictions (nonfem_ : list (list gem)) : list gem :=
  (λ e, Py.reduce (Sum E) e (Zero E)) <$> Py.zip_star nonfem_.

(** Lines 180-185 *)
Definition make_index_names (argument_indices quadrature_indices : list index)
    : list (index * string) :=
  let index_names := zip argument_indices ["j"; "k"] in
  match quadrature_indices with
  | [quadrature_index] => index_names ++ [(quadrature_index, "ip")]
  | _ => index_names ++
         ((λ '(i, quadrature_index), (quadrature_index, "ip_" +:+ pretty i))
            <$> Py.enumerate quadrature_indices)
  end.

(** *** [build_kernel_body] *)

(** Lines 218-221: the multi-indices of the [Indexed] nodes, in traversal
    order. *)
Definition collect_indices (nodes : list gem) : list index :=
  mjoin (omap (multiindex E) nodes).

(** Lines 229-232 *)
Definition make_index_ordering (prefix_ordering : list index)
    (nodes : list gem) : list index :=
  make_prefix_ordering
    (unique_indices (object_le I) (collect_indices nodes)) prefix_ordering.

Definition get_indices (index_ordering : list index) : index_getter :=
  λ expr, match make_index_orderer index_ordering (free_indices I expr) with
          | Some ordered => inr ordered
          | None => inl (KeyError "idx2pos")
          end.

Record scheduled := {
  sch_ir : list gem;
  sch_oriented : bool;
  sch_index_ordering : list index;
  sch_ops : list impero_op }.

(** Lines 208-235, up to the operation ordering. *)
Definition schedule (return_variables ir : list gem)
    (prefix_ordering : list index) : M scheduled :=
  ir <- call (remove_componenttensors E ir) ;;
  nodes <- call (traversal E ir) ;;
  let oriented :=
    existsb (λ node, bool_decide (variable_name E node = Some "cell_orientations"))
      nodes in
  nodes <- call (traversal E ir) ;;
  let index_ordering := make_index_ordering prefix_ordering nodes in
  ops <- call (emit_operations E (zip return_variables ir)
                 (get_indices index_ordering)) ;;
  ret {| sch_ir := ir; sch_oriented := oriented;
         sch_index_ordering := index_ordering; sch_ops := ops |}.

Definition build_kernel_body (return_variables ir : list gem)
    (prefix_ordering : list index) (coffee_licm : pyval)
    (index_names : list (index * string)) : M (option stmt * bool) :=
  sd <- schedule return_variables ir prefix_ordering ;;
  (* Zero-simplification occurred *)
  if bool_decide (length (sch_ops sd) = 0) then ret (None, false)
  else
    ops <- call (inline_temporaries E (sch_ir sd) (sch_ops sd) coffee_licm) ;;
    impero_c <- call (impero_process E ops (get_indices (sch_index_ordering sd))) ;;
    body <- call (generate_coffee E impero_c index_names) ;;
    ret (Some (close_scope E body), sch_oriented sd).

(** *** [compile_integral] *)

Record lowered := {
  lo_arguments : kernel_arguments;
  lo_nonfem : list gem;
  lo_quadrature_indices : list index }.

(** Lines 77-178 *)
Definition lower (idata : integral_data) (fd : form_data) : M lowered :=
  ka <- prepare_kernel_arguments idata fd ;;
  r <- lower_integrals (integral_type idata) (ufl_cell (domain idata)) ka
         (Py.enumerate (integrals idata)) [] [] (new_index_cache E) ;;
  let '(nonfem_, quadrature_indices) := r in
  ret {| lo_arguments := ka; lo_nonfem := sum_restrictions nonfem_;
         lo_quadrature_indices := quadrature_indices |}.

(** Lines 193-204 *)
Definition finish_kernel (idata : integral_data) (prefix : string)
    (ka : kernel_arguments) (body : stmt) (oriented : bool) : M Kernel :=
  let arglist :=
    if oriented then Py.list_insert 2 cell_orientations_decl (arglist ka)
    else arglist ka in
  (* [integral] is the variable of the loop of line 143 *)
  itg <- from_option (UnboundLocalError "integral") (last (integrals idata)) ;;
  let funname := prefix +:+ "_" +:+ integral_type idata +:+ "_integral_"
                 +:+ py_str (integral_subdomain_id itg) in
  ret {| ast := {| ret_type := "void"; funname := funname; args := arglist;
                   body := prepare ka ++ [body] ++ finalise ka;
                   pred := ["static"; "inline"] |};
         kernel_integral_type := integral_type idata;
         kernel_subdomain_id := subdomain_id idata;
         coefficient_numbers := ka_coefficient_numbers ka;
         oriented := oriented |}.

(** Line 188: [quadrature_indices + argument_indices], the prefix
    ordering handed to [build_kernel_body]. *)
Definition prefix_ordering_of (lo : lowered) : list index :=
  lo_quadrature_indices lo ++ argument_indices (lo_arguments lo).

Definition compile_integral (idata : integral_data) (fd : form_data)
    (prefix : string) : M (option Kernel) :=
  _ <- remove_auto_parameters ;;
  lo <- lower idata fd ;;
  let ka := lo_arguments lo in
  let index_names :=
    make_index_names (argument_indices ka) (lo_quadrature_indices lo) in
  coffee_licm <- parameter "coffee_licm" ;;
  r <- build_kernel_body (expressions ka) (lo_nonfem lo)
         (prefix_ordering_of lo) coffee_licm index_names ;;
  match r with
  | (None, _) => ret None
  | (Some body, oriented) =>
      kernel <- finish_kernel idata prefix ka body oriented ;;
      ret (Some kernel)
  end.

(** *** [compile_form] *)

(** Lines 50-56: the kernels that are not [None], in order. *)
Fixpoint compile_integrals (fd : form_data) (prefix : string)
    (integral_data : list integral_data) (kernels : list Kernel)
    : M (list Kernel) :=
  match integral_data with
  | [] => ret kernels
  | idata :: integral_data' =>
      kernel <- compile_integral idata fd prefix ;;
      compile_integrals fd prefix integral_data'
        (match kernel with Some k => kernels ++ [k] | None => kernels end)
  end.

(** [compile_form]: the dictionary given to [compile_integral] is a fresh
    copy of the defaults, updated with the caller's [parameters]; the
    caller's own dictionary is only read.  The timing printouts are left
    out. *)
Definition compile_form (form : ufl_form) (prefix : string)
    (parameters : option (gmap string pyval)) : ext (list Kernel) :=
  λ w,
    let m :=
      defaults <- call (default_parameters E) ;;
      _ <- set_parameters
             (match parameters with
              | None => defaults
              | Some parameters => dict_update defaults parameters
              end) ;;
      fd <- call (compute_form_data E form) ;;
      compile_integrals fd prefix (fd_integral_data fd) [] in
    let '(r, s) := m {| parameters := ∅; trace := []; ext_state := w |} in
    (r, ext_state s).
End Driver.

Notation "x <- m ;; k" := (bind m (λ x, k))
  (at level 100, m at next level, right associativity,
   format "'[v' x  <-  m  ;; '/' k ']'").

(** ** A miniature pipeline to run the driver on

    The collaborators are parameters of the driver.  To evaluate it on
    concrete integrals they are instantiated here with a miniature
    pipeline: GEM nodes as in the data model of the specification (section
    3), an integrand given as the list of its lowered fragments (one per
    restriction), index objects numbered in the order of their allocation,
    and a scheduler that emits one operation per non-zero expression. *)

Inductive mini_gem :=
| GZero
| GLiteral (z : Z)
| GVariable (name : string)
| GSum (a b : mini_gem)
| GProduct (a b : mini_gem)
| GDivision (a b : mini_gem)
| GIndexSum (child : mini_gem) (i : nat)
| GIndexed (tensor : mini_gem) (mi : list nat)
| GComponentTensor (child : mini_gem) (mi : list nat).

Fixpoint mini_free_indices (e : mini_gem) : list nat :=
  match e with
  | GZero | GLiteral _ | GVariable _ => []
  | GSum a b | GProduct a b | GDivision a b =>
      list_union (mini_free_indices a) (mini_free_indices b)
  | GIndexSum child i => filter (λ k, k ≠ i) (mini_free_indices child)
  | GIndexed tensor mi => list_union (mini_free_indices tensor) (remove_dups mi)
  | GComponentTensor child mi => list_difference (mini_free_indices child) mi
  end.

(** Pre-order traversal. *)
Fixpoint mini_nodes (e : mini_gem) : list mini_gem :=
  e :: match e with
       | GZero | GLiteral _ | GVariable _ => []
       | GSum a b | GProduct a b | GDivision a b => mini_nodes a ++ mini_nodes b
       | GIndexSum child _ | GIndexed child _ | GComponentTensor child _ =>
           mini_nodes child
       end.

(** Sums fold zeros away. *)
Definition mini_Sum (a b : mini_gem) : mini_gem :=
  match a, b with
  | GZero, _ => b
  | _, GZero => a
  | _, _ => GSum a b
  end.

(** An operation: the variable assigned, the expression, and the loop
    indices in the order [get_indices] gives them. *)
Definition mini_op : Type := mini_gem * mini_gem * list nat.

Fixpoint mini_emit (pairs : list (mini_gem * mini_gem))
    (get_indices : mini_gem → exn + list nat) : exn + list mini_op :=
  match pairs with
  | [] => inr []
  | (GZero, _) :: rest | (_, GZero) :: rest => mini_emit rest get_indices
  | (v, e) :: rest =>
      match get_indices e, mini_emit rest get_indices with
      | inr ordered, inr ops => inr ((v, e, ordered) :: ops)
      | inl err, _ | _, inl err => inl err
      end
  end.

Definition mini_parameters : gmap string (@pyval Z) :=
  list_to_map [("quadrature_degree", PyStr "auto");
               ("quadrature_rule", PyStr "auto");
               ("unroll_indexsum", PyInt 3);
               ("coffee_licm", PyBool false)].

Definition mini :
    @collaborators Z (@form_data Z (list mini_gem) nat nat) (list mini_gem)
      nat nat nat mini_gem (list mini_op) unit unit mini_op (list mini_op)
      nat _ _ :=
  {| default_parameters := λ w, (inr mini_parameters, w);
     compute_form_data := λ form w, (inr form, w);
     prepare_arguments := λ t arguments w,
       (inr ({| typ := "double";
                sym := {| symbol := "A"; rank := arguments |};
                qualifiers := [] |}, [],
             [GIndexed (GVariable "A") (seq w (length arguments))], []),
        w + length arguments);
     prepare_coefficient := λ t c name mode w,
       (inr ({| typ := "double *restrict";
                sym := {| symbol := name; rank := [] |};
                qualifiers := ["const"] |}, [], GVariable name), w);
     create_quadrature := λ c t degree w,
       match degree with
       | PyInt _ => (inr {| points := [[0%Z]]; weights := [1%Z] |}, w)
       | _ => (inl (CollaboratorError "degree"), w)
       end;
     coordinate_coefficient := λ m w, (inr 0, w);
     TabulationManager := λ t c pts w, (inr (), w);
     replace_coordinates := λ e c w, (inr e, w);
     process := λ t integrand tm wts q args cmap cache w,
       (inr ((λ e, match e with
                   | GZero => GZero
                   | _ => GProduct (GIndexed (GVariable "weights") [q]) e
                   end) <$> integrand, cache), w);
     new_index_cache := ();
     Index := λ name w, (inr w, S w);
     is_Index := λ _, true;
     Zero := GZero;
     Sum := mini_Sum;
     IndexSum := GIndexSum;
     multiindex := λ e, match e with GIndexed _ mi => Some mi | _ => None end;
     variable_name :=
       λ e, match e with GVariable name => Some name | _ => None end;
     unroll_indexsum := λ ir extent w, (inr ir, w);
     remove_componenttensors := λ ir w, (inr ir, w);
     traversal := λ ir w, (inr (ir ≫= mini_nodes), w);
     emit_operations := λ pairs gi w, (mini_emit pairs gi, w);
     inline_temporaries := λ ir ops licm w, (inr ops, w);
     impero_process := λ ops gi w, (inr ops, w);
     generate_coffee := λ c names w, (inr c, w);
     close_scope := λ body, body |}.

(** Two runs of the interpreter: one orders the index objects upwards and
    iterates free indices in their stored order, the other does both the
    other way round. *)
Definition mini_run : @interpreter nat mini_gem :=
  {| object_le := Nat.leb; free_indices := mini_free_indices |}.

Definition mini_rerun : @interpreter nat mini_gem :=
  {| object_le := λ a b, Nat.leb b a;
     free_indices := λ e, reverse (mini_free_indices e) |}.

Definition mini_mesh : mesh :=
  {| ufl_cell := {| cellname := "triangle" |};
     ufl_coordinate_element_degree := 1 |}.

(** A term with the given fragments and metadata. *)
Definition mini_integral (fragments : list mini_gem)
    (metadata : gmap string (@pyval Z)) : @integral Z (list mini_gem) :=
  {| integrand := fragments;
     metadata := <["estimated_polynomial_degree" := PyInt 2]> metadata;
     integral_subdomain_id := PyStr "otherwise" |}.

Definition mini_idata (integral_type : string) (enabled : list bool)
    (integrals : list (@integral Z (list mini_gem)))
    : @integral_data Z (list mini_gem) :=
  {| integral_type := integral_type; subdomain_id := PyStr "otherwise";
     domain := mini_mesh; enabled_coefficients := enabled;
     integrals := integrals |}.

(** The product of the two basis functions: A[j, k] += phi[j] * phi[k]. *)
Definition mass_fragment : mini_gem :=
  GProduct (GIndexed (GVariable "phi") [0]) (GIndexed (GVariable "phi") [1]).

Definition mass_idata : @integral_data Z (list mini_gem) :=
  mini_idata "cell" [false; true] [mini_integral [mass_fragment] ∅].

Definition zero_idata : @integral_data Z (list mini_gem) :=
  mini_idata "cell" [] [mini_integral [GZero] ∅].

Definition exterior_idata : @integral_data Z (list mini_gem) :=
  mini_idata "exterior_facet" [true; false] [mini_integral [mass_fragment] ∅].

(** Two terms, the first with two fragments and the second with one. *)
Definition mismatch_idata : @integral_data Z (list mini_gem) :=
  mini_idata "interior_facet" []
    [mini_integral [mass_fragment; mass_fragment] ∅;
     mini_integral [mass_fragment] ∅].

(** A term whose metadata carry a string where a quadrature rule goes. *)
Definition bad_rule_idata : @integral_data Z (list mini_gem) :=
  mini_idata "cell" []
    [mini_integral [mass_fragment] {[ "quadrature_rule" := PyStr "gauss" ]}].

Definition mini_fd : @form_data Z (list mini_gem) nat nat :=
  {| preprocessed_form_arguments := [3; 3];
     reduced_coefficients := [10; 11];
     original_coefficient_positions := [0; 2];
     fd_integral_data := [mass_idata] |}.

Definition mini_state : @state Z nat :=
  {| parameters := mini_parameters; trace := []; ext_state := 0 |}.

(** The state after lines 72-75. *)
Definition mini_state_stripped : @state Z nat :=
  {| parameters := strip_auto mini_parameters; trace := []; ext_state := 0 |}.

(** ** Auxiliary notions used in the statements *)

(** The comparison of the interpreter is a total order on the objects it
    is applied to: two distinct objects never compare equal. *)
Definition total_order {A} (le : A → A → bool) : Prop :=
  (∀ a b, le a b = true ∨ le b a = true) ∧
  (∀ a b c, le a b = true → le b c = true → le a c = true) ∧
  (∀ a b, le a b = true → le b a = true → a = b).

(** The positions of the first occurrences in [l], counted from [k];
    [seen] are the elements met before. *)
Fixpoint first_positions_from {A} `{EqDecision A}
    (seen : list A) (k : nat) (l : list A) : list nat :=
  match l with
  | [] => []
  | x :: l' =>
      if decide (x ∈ seen) then first_positions_from seen (S k) l'
      else k :: first_positions_from (x :: seen) (S k) l'
  end.

(** Stable sorting of [enumerate(ar)] by element is sorting by element
    first and position second. *)
Definition lex_le {A} (le : A → A → bool) (p q : nat * A) : Prop :=
  le p.2 q.2 = true ∧ (le q.2 p.2 = true → p.1 ≤ q.1).

(** [p] has the least position among the entries of [s] with its element. *)
Definition least_in {A} (s : list (nat * A)) (p : nat * A) : Prop :=
  ∀ q, q ∈ s → q.2 = p.2 → p.1 ≤ q.1.

(** The integral an event of the trace belongs to. *)
Definition event_term (ev : event) : nat :=
  match ev with
  | EvCreateQuadrature i | EvTabulationManager i
  | EvReplaceCoordinates i | EvProcess i => i
  end.

(** A computation keeps the caller's dictionary as it is and adds to the
    trace only events that satisfy [P]. *)
Definition keeps {scalar world A} (P : event → Prop)
    (m : @M scalar world A) : Prop :=
  ∀ s, parameters (m s).2 = parameters s ∧
       ∃ evs, trace (m s).2 = trace s ++ evs ∧ Forall P evs.

(** The calls that lower the [i]-th integral: they come after the check of
    the quadrature rule. *)
Definition lowering_of (i : nat) (ev : event) : Prop :=
  ev = EvTabulationManager i ∨ ev = EvReplaceCoordinates i ∨ ev = EvProcess i.

(** The entries of [positions] whose entry in [mask] is true, in order,
    and the number of true entries of [mask]. *)
Definition enabled_positions (mask : list bool) (positions : list nat)
    : list nat :=
  (filter (λ p, p.1 = true) (zip mask positions)).*2.

Definition count_enabled (mask : list bool) : nat :=
  length (filter (λ b, b = true) mask).

(** The length of the shortest of the lists [ls] (0 when there is none). *)
Fixpoint min_length {A} (ls : list (list A)) : nat :=
  match ls with
  | [] => 0
  | [l] => length l
  | l :: ls' => length l `min` min_length ls'
  end.

(** ** Further notions and inputs *)

Section in_turn.
Context {scalar ufl_form ufl_expr ufl_argument coefficient index gem stmt
         tabulation_manager index_cache impero_op impero_c world : Type}.
Context `{Countable index} `{Countable coefficient}.
Variable E : @collaborators scalar ufl_form ufl_expr ufl_argument coefficient
               index gem stmt tabulation_manager index_cache impero_op
               impero_c world _ _.
Variable I : @interpreter index gem.

(** The loop of [compile_form], call by call: from state [s] the integral
    data [l] are compiled one after the other, each from the state the
    one before left, with results [rs], and the last leaves [s']. *)
Fixpoint compiled_in_turn
    (fd : @form_data scalar ufl_expr ufl_argument coefficient)
    (prefix : string) (l : list (@integral_data scalar ufl_expr))
    (rs : list (option (@Kernel scalar stmt)))
    (s s' : @state scalar world) : Prop :=
  match l, rs with
  | [], [] => s' = s
  | idata :: l, r :: rs =>
      ∃ s1, compile_integral E I idata fd prefix s = (inr r, s1) ∧
            compiled_in_turn fd prefix l rs s1 s'
  | _, _ => False
  end.
End in_turn.

Section runs.
Context {scalar ufl_form ufl_expr ufl_argument coefficient index gem stmt
         tabulation_manager index_cache impero_op impero_c world : Type}.
Context `{Countable index} `{Countable coefficient}.

(** Modelled from the spec: the modules the driver calls ([tsfc.fem],
    [tsfc.gem], [tsfc.optimise], [tsfc.node], [tsfc.scheduling],
    [tsfc.impero_utils], [tsfc.coffee], [tsfc.kernel_interface],
    [tsfc.quadrature], [tsfc.constants]) are not among the sources at
    hand.  Of the scheduler the specification requires (section 4.4, c)
    that "the relative order of independent operations is otherwise
    deterministic (stable, e.g., by first-occurrence order) to keep
    generated code reproducible across runs", and of the whole pipeline
    (section 1) "deterministic code emission".  For two runs this says: a
    collaborator called in both with the same arguments, while the
    modules' own tables [w1] and [w2] correspond ([R]), gives the same
    answer in both and leaves tables that correspond. *)
Definition same_answer {A} (R : world → world → Prop)
    (c1 c2 : @ext world A) : Prop :=
  ∀ w1 w2, R w1 w2 → (c1 w1).1 = (c2 w2).1 ∧ R (c1 w1).2 (c2 w2).2.

(** Modelled from the spec: [same_answer] for every collaborator of the
    two runs; the constructors and accessors of GEM are the same
    functions in both. *)
Record reproducible (R : world → world → Prop)
    (E1 E2 : @collaborators scalar ufl_form ufl_expr ufl_argument coefficient
               index gem stmt tabulation_manager index_cache impero_op
               impero_c world _ _) : Prop := {
  rep_default_parameters :
    same_answer R (default_parameters E1) (default_parameters E2);
  rep_compute_form_data : ∀ form,
    same_answer R (compute_form_data E1 form) (compute_form_data E2 form);
  rep_prepare_arguments : ∀ t arguments,
    same_answer R (prepare_arguments E1 t arguments)
      (prepare_arguments E2 t arguments);
  rep_prepare_coefficient : ∀ t c name mode,
    same_answer R (prepare_coefficient E1 t c name mode)
      (prepare_coefficient E2 t c name mode);
  rep_create_quadrature : ∀ c t degree,
    same_answer R (create_quadrature E1 c t degree)
      (create_quadrature E2 c t degree);
  rep_coordinate_coefficient : ∀ m,
    same_answer R (coordinate_coefficient E1 m) (coordinate_coefficient E2 m);
  rep_TabulationManager : ∀ t c pts,
    same_answer R (TabulationManager E1 t c pts) (TabulationManager E2 t c pts);
  rep_replace_coordinates : ∀ e c,
    same_answer R (replace_coordinates E1 e c) (replace_coordinates E2 e c);
  rep_process : ∀ t integrand tm wts q argument_indices cmap cache,
    same_answer R
      (process E1 t integrand tm wts q argument_indices cmap cache)
      (process E2 t integrand tm wts q argument_indices cmap cache);
  rep_Index : ∀ name, same_answer R (Index E1 name) (Index E2 name);
  rep_unroll_indexsum : ∀ ir extent,
    same_answer R (unroll_indexsum E1 ir extent) (unroll_indexsum E2 ir extent);
  rep_remove_componenttensors : ∀ ir,
    same_answer R (remove_componenttensors E1 ir)
      (remove_componenttensors E2 ir);
  rep_traversal : ∀ ir, same_answer R (traversal E1 ir) (traversal E2 ir);
  rep_emit_operations : ∀ pairs gi,
    same_answer R (emit_operations E1 pairs gi) (emit_operations E2 pairs gi);
  rep_inline_temporaries : ∀ ir ops licm,
    same_answer R (inline_temporaries E1 ir ops licm)
      (inline_temporaries E2 ir ops licm);
  rep_impero_process : ∀ ops gi,
    same_answer R (impero_process E1 ops gi) (impero_process E2 ops gi);
  rep_generate_coffee : ∀ c names,
    same_answer R (generate_coffee E1 c names) (generate_coffee E2 c names);
  rep_new_index_cache : new_index_cache E1 = new_index_cache E2;
  rep_is_Index : is_Index E1 = is_Index E2;
  rep_Zero : Zero E1 = Zero E2;
  rep_Sum : Sum E1 = Sum E2;
  rep_IndexSum : IndexSum E1 = IndexSum E2;
  rep_multiindex : multiindex E1 = multiindex E2;
  rep_variable_name : variable_name E1 = variable_name E2;
  rep_close_scope : close_scope E1 = close_scope E2 }.

(** Two computations of the driver, one in each run, agree: from states
    with the same parameters and corresponding tables they return or raise
    the same, make the same calls, and leave states with the same
    parameters and corresponding tables. *)
Definition agree {A} (R : world → world → Prop)
    (m1 m2 : @M scalar world A) : Prop :=
  ∀ s1 s2,
    parameters s1 = parameters s2 →
    R (ext_state s1) (ext_state s2) →
    (m1 s1).1 = (m2 s2).1 ∧
    parameters (m1 s1).2 = parameters (m2 s2).2 ∧
    R (ext_state (m1 s1).2) (ext_state (m2 s2).2) ∧
    ∃ evs, trace (m1 s1).2 = trace s1 ++ evs ∧
           trace (m2 s2).2 = trace s2 ++ evs.
End runs.

(** The calls made for the [i]-th integral, in order. *)
Definition integral_events (i : nat) : list event :=
  [EvCreateQuadrature i; EvTabulationManager i; EvReplaceCoordinates i;
   EvProcess i].

(** A computation raises from state [s]. *)
Definition raises {scalar world A} (m : @M scalar world A)
    (s : @state scalar world) : Prop :=
  ∃ e s', m s = (inl e, s').

(** The positions of the true entries of [mask]. *)
Definition enabled_indices (mask : list bool) : list nat :=
  (filter (λ p, p.2 = true) (Py.enumerate mask)).*1.

(** The state in which lines 72-75 leave [s]. *)
Definition stripped {scalar world} (s : @state scalar world)
    : @state scalar world :=
  {| parameters := strip_auto (parameters s); trace := trace s;
     ext_state := ext_state s |}.

(** A term whose metadata name a quadrature rule of their own. *)
Definition own_rule : @QuadratureRule Z :=
  {| points := [[1%Z]; [2%Z]]; weights := [3%Z; 4%Z] |}.

Definition own_rule_idata : @integral_data Z (list mini_gem) :=
  mini_idata "cell" []
    [mini_integral [mass_fragment]
       {[ "quadrature_rule" := PyQuadratureRule own_rule ]}].

(** A group of two terms with subdomain ids 1 and 2. *)
Definition two_subdomains_idata : @integral_data Z (list mini_gem) :=
  mini_idata "cell" [true; true]
    [{| integrand := [mass_fragment];
        metadata := {[ "estimated_polynomial_degree" := PyInt 2 ]};
        integral_subdomain_id := PyInt 1 |};
     {| integrand := [mass_fragment];
        metadata := {[ "estimated_polynomial_degree" := PyInt 2 ]};
        integral_subdomain_id := PyInt 2 |}].

(** A form whose first group simplifies to zero. *)
Definition zero_mass_fd : @form_data Z (list mini_gem) nat nat :=
  {| preprocessed_form_arguments := [3; 3];
     reduced_coefficients := [10; 11];
     original_coefficient_positions := [0; 2];
     fd_integral_data := [zero_idata; exterior_idata] |}.

(** A term whose metadata give quadrature degree 4. *)
Definition degree_four_idata : @integral_data Z (list mini_gem) :=
  mini_idata "cell" []
    [mini_integral [mass_fragment] {[ "quadrature_degree" := PyInt 4 ]}].

(** A term with a quadrature degree of its own and no estimated degree. *)
Definition no_estimate_integral : @integral Z (list mini_gem) :=
  {| integrand := [mass_fragment];
     metadata := {[ "quadrature_degree" := PyInt 4 ]};
     integral_subdomain_id := PyStr "otherwise" |}.

Definition no_estimate_idata : @integral_data Z (list mini_gem) :=
  mini_idata "cell" [] [no_estimate_integral].

(** The third coefficient is enabled; the form has two. *)
Definition third_coefficient_idata : @integral_data Z (list mini_gem) :=
  mini_idata "cell" [false; false; true] [mini_integral [mass_fragment] ∅].

(** The initial state with one entry of the parameters taken out. *)
Definition mini_state_without (key : string) : @state Z nat :=
  {| parameters := delete key mini_parameters; trace := [];
     ext_state := 0 |}.

(** An integrand that reads the cell orientations. *)
Definition oriented_fragment : mini_gem :=
  GProduct (GIndexed (GVariable "cell_orientations") [])
           (GIndexed (GVariable "phi") [0]).

(** * Properties *)

Lemma nat_leb_total_order : total_order Nat.leb.
Proof.
  repeat split; intros *; rewrite ?Nat.leb_le; lia.
Qed.

Lemma nat_geb_total_order : total_order (λ a b, Nat.leb b a).
Proof.
  repeat split; intros *; rewrite ?Nat.leb_le; lia.
Qed.

(** ** The stable sort *)

Section sorted_facts.
Context {A : Type} (le : A → A → bool).

Lemma insert_Permutation x l : Py.insert le x l ≡ₚ x :: l.
Proof.
  induction l as [|y l IH]; simpl; [done|].
  destruct (le x y); [done|]. rewrite IH. apply Permutation_swap.
Qed.

Lemma sorted_Permutation l : Py.sorted le l ≡ₚ l.
Proof.
  induction l as [|x l IH]; simpl; [done|].
  unfold Py.sorted in *. by rewrite insert_Permutation, IH.
Qed.

Lemma elem_of_sorted x l : x ∈ Py.sorted le l ↔ x ∈ l.
Proof. by rewrite sorted_Permutation. Qed.

(** Inserting into a sorted list under a relation [R] that refines [le]:
    [x] may go in front of whatever it is [le] of, provided it is
    [R]-below everything it is [le] of, and everything that is not above
    it is [R]-below it. *)
Lemma insert_StronglySorted (R : relation A) x l :
  (∀ y, y ∈ l → le x y = true → R x y) →
  (∀ y, y ∈ l → le x y = false → R y x) →
  (∀ y z, y ∈ l → z ∈ l → le x y = true → R y z → le x z = true) →
  StronglySorted R l → StronglySorted R (Py.insert le x l).
Proof.
  intros Hle Hnle Hmono Hl.
  induction Hl as [|y l Hl IH Hy]; simpl.
  { repeat constructor. }
  destruct (le x y) eqn:Hxy.
  - constructor; [by constructor|].
    rewrite Forall_forall. intros z Hz. apply Hle; [done|].
    apply elem_of_cons in Hz as [->|Hz]; [done|].
    apply (Hmono y z); [left|right| |]; try done.
    by eapply Forall_forall in Hy.
  - constructor.
    + apply IH.
      * intros z Hz. apply Hle. by right.
      * intros z Hz. apply Hnle. by right.
      * intros z1 z2 Hz1 Hz2. apply Hmono; by right.
    + rewrite insert_Permutation. constructor; [|done].
      apply Hnle; [left|done].
Qed.

Lemma sorted_StronglySorted :
  (∀ a b, le a b = true ∨ le b a = true) →
  (∀ a b c, le a b = true → le b c = true → le a c = true) →
  ∀ l, StronglySorted (λ a b, le a b = true) (Py.sorted le l).
Proof.
  intros Htot Htrans l.
  induction l as [|x l IH]; [constructor|].
  change (Py.sorted le (x :: l)) with (Py.insert le x (Py.sorted le l)).
  apply insert_StronglySorted; [done| | |done].
  - intros y _ Hxy. destruct (Htot x y); congruence.
  - intros y z _ _. apply Htrans.
Qed.
End sorted_facts.

Lemma enumerate_from_lookup {A} (l : list A) k i x :
  (i, x) ∈ Py.enumerate_from k l ↔ k ≤ i ∧ l !! (i - k) = Some x.
Proof.
  revert k. induction l as [|y l IH]; intros k; simpl.
  { rewrite elem_of_nil. naive_solver. }
  rewrite elem_of_cons, IH. split.
  - intros [[= -> ->]|[Hk Hl]].
    + split; [lia|]. by rewrite Nat.sub_diag.
    + split; [lia|]. by replace (i - k) with (S (i - S k)) by lia.
  - intros [Hk Hl]. destruct (decide (i = k)) as [->|Hne].
    + left. rewrite Nat.sub_diag in Hl. naive_solver.
    + right. split; [lia|].
      by replace (i - k) with (S (i - S k)) in Hl by lia.
Qed.

Lemma enumerate_from_fst {A} (l : list A) k :
  (Py.enumerate_from k l).*1 = seq k (length l).
Proof.
  revert k. induction l as [|y l IH]; intros k; simpl; [done|]. by rewrite IH.
Qed.

Lemma enumerate_from_app {A} (l1 l2 : list A) k :
  Py.enumerate_from k (l1 ++ l2) =
  Py.enumerate_from k l1 ++ Py.enumerate_from (k + length l1) l2.
Proof.
  revert k. induction l1 as [|y l1 IH]; intros k; simpl.
  { by rewrite Nat.add_0_r. }
  rewrite IH. do 3 f_equal. lia.
Qed.

(** ** [numpy.unique] keeps first occurrences, whatever the object order *)

Section unique_facts.
Context {A : Type} `{EqDecision A} (le : A → A → bool).
Hypothesis le_total_order : total_order le.
Local Abbreviation lex := (lex_le le).

Lemma sorted_enumerate_lex k (l : list A) :
  StronglySorted lex (Py.sorted (λ p q, le p.2 q.2) (Py.enumerate_from k l)).
Proof.
  destruct le_total_order as (Htot & Htrans & Hanti).
  revert k. induction l as [|x l IH]; intros k; [constructor|].
  change (Py.sorted _ (Py.enumerate_from k (x :: l)))
    with (Py.insert (λ p q, le p.2 q.2) (k, x)
            (Py.sorted (λ p q, le p.2 q.2) (Py.enumerate_from (S k) l))).
  apply insert_StronglySorted; [| | |apply IH].
  - intros [j y]. rewrite elem_of_sorted, enumerate_from_lookup.
    intros [Hj _] Hxy. split; simpl in *; [done|lia].
  - intros [j y] _ Hxy. simpl in *. split; simpl.
    + destruct (Htot x y); congruence.
    + intros ?; congruence.
  - intros [j y] [j' z] _ _ Hxy [Hyz _]. simpl in *. by eapply Htrans.
Qed.

Lemma argsort_lex ar : StronglySorted lex (Numpy.argsort le ar).
Proof. apply sorted_enumerate_lex. Qed.

Lemma elem_of_argsort ar i a :
  (i, a) ∈ Numpy.argsort le ar ↔ ar !! i = Some a.
Proof.
  unfold Numpy.argsort, Py.enumerate.
  rewrite elem_of_sorted, enumerate_from_lookup, Nat.sub_0_r. naive_solver lia.
Qed.

Lemma lex_refl_le a : le a a = true.
Proof. destruct le_total_order as (Htot & _). by destruct (Htot a a). Qed.

Lemma head_least p s : StronglySorted lex (p :: s) → least_in (p :: s) p.
Proof.
  intros Hs q Hq Heq. apply StronglySorted_cons in Hs as [Hp _].
  apply elem_of_cons in Hq as [->|Hq]; [done|].
  eapply Forall_forall in Hp as [_ Hp]; [|done].
  apply Hp. rewrite Heq. apply lex_refl_le.
Qed.

Lemma flagged_spec k prev s p :
  StronglySorted lex ((k, prev) :: s) →
  p ∈ Numpy.flagged prev s ↔ p ∈ s ∧ p.2 ≠ prev ∧ least_in s p.
Proof.
  destruct le_total_order as (Htot & Htrans & Hanti).
  revert k prev. induction s as [|[i a] rest IH]; intros k prev Hs; simpl.
  { rewrite elem_of_nil. naive_solver. }
  pose proof Hs as Hs'.
  apply StronglySorted_cons in Hs' as [Hprev Hrest].
  pose proof (head_least _ _ Hrest) as Hhead.
  pose proof Hrest as Hrest'.
  apply StronglySorted_cons in Hrest' as [Ha _].
  rewrite Forall_forall in Hprev, Ha.
  assert (∀ q, q ∈ rest → q.2 ≠ a → q.2 ≠ prev) as Hconvex.
  { intros q Hq Hqa Hqp. apply Hqa. apply Hanti.
    - destruct (Hprev (i, a)) as [? _]; [left|]. by rewrite Hqp.
    - by destruct (Ha q Hq) as [? _]. }
  assert (∀ q, q ∈ rest → q.2 = a → least_in ((i, a) :: rest) q → q = (i, a))
    as Hsame.
  { intros [j b] Hq Hqa Hleast. simpl in *. subst b. f_equal.
    destruct (Ha (j, a) Hq) as [_ Hle]. simpl in Hle.
    specialize (Hleast (i, a)). simpl in Hleast.
    specialize (Hle (lex_refl_le a)).
    assert (j ≤ i) by (apply Hleast; [left|done]). lia. }
  destruct (decide (a = prev)) as [->|Hne].
  - rewrite (IH i prev Hrest), elem_of_cons. split.
    + intros (Hp & Hpa & Hleast). split_and!; [by right|done|].
      intros q Hq Heq. apply elem_of_cons in Hq as [->|Hq]; [|by apply Hleast].
      simpl in Heq. congruence.
    + intros ([->|Hp] & Hpa & Hleast); [done|]. split_and!; [done..|].
      intros q Hq. apply Hleast. by right.
  - rewrite elem_of_cons, (IH i a Hrest), elem_of_cons. split.
    + intros [->|(Hp & Hpa & Hleast)].
      * split_and!; [by left|done|done].
      * split_and!; [by right|by apply Hconvex|].
        intros q Hq Heq. apply elem_of_cons in Hq as [->|Hq]; [|by apply Hleast].
        simpl in Heq. congruence.
    + intros ([->|Hp] & Hpa & Hleast); [by left|].
      destruct (decide (p.2 = a)) as [Hpa'|Hpa'].
      * left. by apply Hsame.
      * right. split_and!; [done..|]. intros q Hq. apply Hleast. by right.
Qed.

(** The positions returned by [unique] are those of the first
    occurrences. *)
Lemma unique_return_index_spec ar i :
  i ∈ (Numpy.unique_return_index le ar).2 ↔
  ∃ a, ar !! i = Some a ∧ ∀ j, ar !! j = Some a → i ≤ j.
Proof.
  unfold Numpy.unique_return_index.
  pose proof (argsort_lex ar) as Hs.
  pose proof (elem_of_argsort ar) as Hel.
  destruct (Numpy.argsort le ar) as [|[i0 a0] rest] eqn:Hsort; simpl.
  { rewrite elem_of_nil. split; [done|]. intros (a & Ha & _).
    apply Hel in Ha. by apply elem_of_nil in Ha. }
  assert (∀ p, p ∈ (i0, a0) :: Numpy.flagged a0 rest ↔
               p ∈ (i0, a0) :: rest ∧ least_in ((i0, a0) :: rest) p) as Hsel.
  { intros p. rewrite !elem_of_cons, (flagged_spec i0 a0 rest p Hs).
    pose proof (head_least _ _ Hs) as Hhead.
    split.
    - intros [->|(Hp & Hpa & Hleast)]; [by split; [left|]|].
      split; [by right|]. intros q Hq Heq.
      apply elem_of_cons in Hq as [->|Hq]; [|by apply Hleast].
      simpl in Heq. congruence.
    - intros [[->|Hp] Hleast]; [by left|].
      destruct (decide (p = (i0, a0))) as [->|Hne]; [by left|]. right.
      split_and!; [done| |intros q Hq; apply Hleast; by right].
      intros Hpa. apply Hne. destruct p as [j b]; simpl in *; subst b.
      f_equal. apply StronglySorted_cons in Hs as [Hfa _].
      rewrite Forall_forall in Hfa. destruct (Hfa _ Hp) as [_ Hle].
      simpl in Hle. specialize (Hle (lex_refl_le a0)).
      specialize (Hleast (i0, a0)). simpl in Hleast.
      assert (j ≤ i0) by (apply Hleast; [left|done]). lia. }
  change (i ∈ ((i0, a0) :: Numpy.flagged a0 rest).*1 ↔
          ∃ a, ar !! i = Some a ∧ ∀ j, ar !! j = Some a → i ≤ j).
  rewrite list_elem_of_fmap. split.
  - intros ([j a] & -> & Hp). simpl. apply Hsel in Hp as [Hp Hleast].
    exists a. split; [by apply Hel|].
    intros j' Hj'. apply (Hleast (j', a)); [by apply Hel|done].
  - intros (a & Ha & Hleast). exists (i, a). split; [done|].
    apply Hsel. split; [by apply Hel|].
    intros [j b] Hq Heq. simpl in *. subst b. apply Hleast. by apply Hel.
Qed.

Lemma unique_return_index_NoDup ar :
  NoDup (Numpy.unique_return_index le ar).2.
Proof.
  unfold Numpy.unique_return_index.
  assert (NoDup (Numpy.argsort le ar).*1) as Hnd.
  { unfold Numpy.argsort. rewrite sorted_Permutation.
    unfold Py.enumerate. rewrite enumerate_from_fst. apply NoDup_seq. }
  destruct (Numpy.argsort le ar) as [|[i0 a0] rest]; simpl; [constructor|].
  assert (∀ prev (s : list (nat * A)), Numpy.flagged prev s `sublist_of` s)
    as Hsub.
  { intros prev s. revert prev.
    induction s as [|[j b] s IH]; intros prev; simpl; [done|].
    destruct (decide (b = prev)); [apply sublist_cons|apply sublist_skip]; done. }
  change (NoDup (((i0, a0) :: Numpy.flagged a0 rest).*1)).
  eapply sublist_NoDup; [exact Hnd|].
  apply fmap_sublist, sublist_skip, Hsub.
Qed.
End unique_facts.

(** ** First occurrences *)

Section first_occurrences_facts.
Context {A : Type} `{EqDecision A}.
Implicit Types (l seen : list A).

Lemma elem_of_first_positions_from seen k l i :
  i ∈ first_positions_from seen k l ↔
  ∃ a, k ≤ i ∧ l !! (i - k) = Some a ∧ (a ∉ seen) ∧ (a ∉ take (i - k) l).
Proof.
  revert seen k. induction l as [|x l IH]; intros seen k; simpl.
  { rewrite elem_of_nil. split; [done|]. by intros (? & _ & ? & _). }
  destruct (decide (x ∈ seen)) as [Hx|Hx].
  - rewrite IH. split.
    + intros (a & Hk & Hl & Hs & Ht). exists a.
      replace (i - k) with (S (i - S k)) by lia. simpl.
      split_and!; [lia|done|done|].
      rewrite not_elem_of_cons. split; [congruence|done].
    + intros (a & Hk & Hl & Hs & Ht).
      destruct (decide (i = k)) as [->|Hne].
      { rewrite Nat.sub_diag in Hl. simpl in Hl. congruence. }
      replace (i - k) with (S (i - S k)) in Hl, Ht by lia. simpl in Hl, Ht.
      apply not_elem_of_cons in Ht as [_ Ht].
      exists a. split_and!; [lia|done..].
  - rewrite elem_of_cons, IH. split.
    + intros [->|(a & Hk & Hl & Hs & Ht)].
      * exists x. rewrite Nat.sub_diag. simpl.
        split_and!; [lia|done|done|apply not_elem_of_nil].
      * apply not_elem_of_cons in Hs as [Hax Hs]. exists a.
        replace (i - k) with (S (i - S k)) by lia. simpl.
        split_and!; [lia|done|done|].
        rewrite not_elem_of_cons. done.
    + intros (a & Hk & Hl & Hs & Ht).
      destruct (decide (i = k)) as [->|Hne]; [by left|right].
      replace (i - k) with (S (i - S k)) in Hl, Ht by lia. simpl in Hl, Ht.
      apply not_elem_of_cons in Ht as [Hax Ht].
      exists a. split_and!; [lia|done| |done].
      rewrite not_elem_of_cons. done.
Qed.

Lemma first_positions_from_sorted seen k l :
  StronglySorted lt (first_positions_from seen k l).
Proof.
  revert seen k. induction l as [|x l IH]; intros seen k; simpl; [constructor|].
  destruct (decide (x ∈ seen)); [apply IH|].
  constructor; [apply IH|]. rewrite Forall_forall. intros i Hi.
  apply elem_of_first_positions_from in Hi as (_ & Hi & _). lia.
Qed.

(** Reading [pre ++ l] at the first positions of [l] gives the first
    occurrences of [l]. *)
Lemma take_at_first_positions_from pre seen l :
  Numpy.take_at (pre ++ l) (first_positions_from seen (length pre) l) =
  first_occurrences_from seen l.
Proof.
  revert pre seen. induction l as [|x l IH]; intros pre seen; simpl; [done|].
  assert (∀ seen', Numpy.take_at (pre ++ x :: l)
                     (first_positions_from seen' (S (length pre)) l) =
                   first_occurrences_from seen' l) as IH'.
  { intros seen'. specialize (IH (pre ++ [x]) seen').
    rewrite length_app, <-(assoc (++)) in IH. simpl in IH.
    by rewrite Nat.add_1_r in IH. }
  destruct (decide (x ∈ seen)); [apply IH'|].
  unfold Numpy.take_at in *. simpl.
  rewrite lookup_app_r, Nat.sub_diag by lia. simpl. f_equal. apply IH'.
Qed.

Lemma first_position_least l i a :
  l !! i = Some a → (a ∉ take i l ↔ (∀ j, l !! j = Some a → i ≤ j)).
Proof.
  intros Hi. split.
  - intros Hnot j Hj. destruct (decide (i ≤ j)) as [|Hlt]; [done|].
    exfalso. apply Hnot. apply list_elem_of_lookup. exists j.
    rewrite lookup_take_lt by lia. done.
  - intros Hleast Hin. apply list_elem_of_lookup in Hin as [j Hj].
    pose proof (lookup_lt_Some _ _ _ Hj) as Hlen.
    rewrite length_take in Hlen.
    rewrite lookup_take_lt in Hj by lia. specialize (Hleast j Hj). lia.
Qed.
End first_occurrences_facts.

Lemma StronglySorted_weaken {A} (R R' : relation A) l :
  (∀ x y, R x y → R' x y) → StronglySorted R l → StronglySorted R' l.
Proof.
  intros HR. induction 1 as [|x l _ IH Hx]; constructor; [done|].
  eapply Forall_impl; [exact Hx|]. auto.
Qed.

Lemma StronglySorted_lt_NoDup (l : list nat) : StronglySorted lt l → NoDup l.
Proof.
  induction 1 as [|x l _ IH Hx]; constructor; [|done].
  intros Hin. rewrite Forall_forall in Hx. specialize (Hx x Hin). lia.
Qed.

Section unique_indices_facts.
Context {index : Type} `{Countable index}.

(** Lines 225-226 compute the first occurrences, in order, for every
    total order the interpreter may use to compare the objects. *)
Lemma unique_indices_first_occurrences (le : index → index → bool)
    (indices : list index) :
  total_order le → unique_indices le indices = first_occurrences indices.
Proof.
  intros Hle. unfold unique_indices, first_occurrences.
  pose proof (unique_return_index_spec le Hle indices) as Hspec.
  pose proof (unique_return_index_NoDup le indices) as Hnd.
  destruct (Numpy.unique_return_index le indices) as [u positions].
  simpl in Hspec, Hnd.
  rewrite <-(take_at_first_positions_from [] [] indices). simpl. f_equal.
  apply (StronglySorted_unique_strong (λ a b, Nat.leb a b = true)).
  - intros i j _ _ ?%Nat.leb_le ?%Nat.leb_le. lia.
  - apply sorted_StronglySorted; intros *; rewrite ?Nat.leb_le; lia.
  - eapply StronglySorted_weaken; [|apply first_positions_from_sorted].
    intros i j Hij. apply Nat.leb_le. simpl in *. lia.
  - unfold Numpy.sort. rewrite sorted_Permutation.
    apply NoDup_Permutation; [done| |].
    + apply StronglySorted_lt_NoDup, first_positions_from_sorted.
    + intros i. rewrite Hspec, elem_of_first_positions_from.
      rewrite Nat.sub_0_r. split.
      * intros (a & Ha & Hleast). exists a.
        split_and!; [lia|done|apply not_elem_of_nil|].
        by apply first_position_least.
      * intros (a & _ & Ha & _ & Ht). exists a. split; [done|].
        by apply first_position_least.
Qed.
End unique_indices_facts.

(** ** [make_index_orderer] does not depend on the iteration order *)

Section index_orderer_facts.
Context {index : Type} `{Countable index}.
Implicit Types (ordering indices : list index).

Lemma idx2pos_snoc ordering i :
  idx2pos (ordering ++ [i]) = <[i := length ordering]> (idx2pos ordering).
Proof.
  unfold idx2pos, Py.enumerate.
  by rewrite enumerate_from_app, foldl_app.
Qed.

(** A position recorded in [idx2pos] holds the index it is recorded for;
    so two indices never share a position. *)
Lemma idx2pos_lookup ordering i pos :
  idx2pos ordering !! i = Some pos → ordering !! pos = Some i.
Proof.
  revert i pos. induction ordering as [|j ordering IH] using rev_ind;
    intros i pos.
  { unfold idx2pos. simpl. by rewrite lookup_empty. }
  rewrite idx2pos_snoc. destruct (decide (j = i)) as [->|Hne].
  - rewrite lookup_insert_eq. intros [= <-].
    by rewrite lookup_app_r, Nat.sub_diag by lia.
  - rewrite lookup_insert_ne by done. intros Hpos%IH.
    by rewrite lookup_app_l by (by eapply lookup_lt_Some).
Qed.

Lemma idx2pos_is_Some ordering i :
  is_Some (idx2pos ordering !! i) ↔ i ∈ ordering.
Proof.
  induction ordering as [|j ordering IH] using rev_ind.
  { unfold idx2pos. simpl. rewrite lookup_empty, elem_of_nil.
    split; [by intros [? ?]|done]. }
  rewrite idx2pos_snoc, elem_of_app, list_elem_of_singleton, <-IH.
  destruct (decide (j = i)) as [->|Hne].
  - rewrite lookup_insert_eq. naive_solver.
  - rewrite lookup_insert_ne by done. naive_solver.
Qed.

Lemma mapM_Permutation {A B} (f : A → option B) (l1 l2 : list A) :
  l1 ≡ₚ l2 →
  match mapM f l1, mapM f l2 with
  | Some k1, Some k2 => k1 ≡ₚ k2
  | None, None => True
  | _, _ => False
  end.
Proof.
  induction 1 as [|x l1 l2 _ IH|x y l|l1 l2 l3 _ IH1 _ IH2]; simpl.
  - done.
  - destruct (f x); simpl; [|done].
    destruct (mapM f l1), (mapM f l2); simpl; try done. by constructor.
  - destruct (f x), (f y); simpl; try done.
    destruct (mapM f l); simpl; [|done]. apply Permutation_swap.
  - destruct (mapM f l1), (mapM f l2), (mapM f l3); try done. by etrans.
Qed.

Lemma make_index_orderer_Permutation ordering indices1 indices2 :
  indices1 ≡ₚ indices2 →
  make_index_orderer ordering indices1 = make_index_orderer ordering indices2.
Proof.
  intros Hperm. unfold make_index_orderer.
  set (key := λ i : index, pos ← idx2pos ordering !! i; Some (i, pos)).
  pose proof (mapM_Permutation key _ _ Hperm) as Hk.
  assert (∀ indices keyed p, mapM key indices = Some keyed → p ∈ keyed →
            idx2pos ordering !! p.1 = Some p.2) as Hkeyed.
  { intros indices keyed p Hm Hp. apply mapM_Some_1 in Hm.
    apply list_elem_of_lookup in Hp as [n Hn].
    destruct (Forall2_lookup_r _ _ _ _ _ Hm Hn) as (i & _ & Hi).
    unfold key in Hi. destruct (idx2pos ordering !! i) eqn:Hpos; [|done].
    simpl in Hi. by injection Hi as <-. }
  destruct (mapM key indices1) as [k1|] eqn:Hk1,
           (mapM key indices2) as [k2|] eqn:Hk2; try done.
  simpl. do 2 f_equal.
  apply (StronglySorted_unique_strong (λ a b, Nat.leb a.2 b.2 = true)).
  - intros [i p] [j q]. rewrite !elem_of_sorted.
    intros Hi%(Hkeyed _ _ _ Hk1) Hj%(Hkeyed _ _ _ Hk2).
    simpl in *. intros ?%Nat.leb_le ?%Nat.leb_le.
    assert (p = q) as -> by lia. f_equal.
    apply idx2pos_lookup in Hi, Hj. congruence.
  - apply sorted_StronglySorted; intros *; rewrite ?Nat.leb_le; lia.
  - apply sorted_StronglySorted; intros *; rewrite ?Nat.leb_le; lia.
  - by rewrite !sorted_Permutation.
Qed.
End index_orderer_facts.

(** ** Affine meshes *)

(** [is_mesh_affine] holds exactly for an interval, triangle or
    tetrahedron cell with coordinates of degree 1; this is when
    [prepare_kernel_arguments] asks for the ['list_tensor'] mode. *)
Lemma is_mesh_affine_spec (m : mesh) :
  is_mesh_affine m = true ↔
  cellname (ufl_cell m) ∈ ["interval"; "triangle"; "tetrahedron"] ∧
  ufl_coordinate_element_degree m = 1%Z.
Proof.
  unfold is_mesh_affine.
  by rewrite andb_true_iff, !bool_decide_eq_true.
Qed.

(** ** Running the driver's computations *)

Section monad_facts.
Context {scalar world : Type}.
Local Abbreviation M := (@M scalar world).
Local Abbreviation state := (@state scalar world).
Implicit Types (s : state) (P Q : event → Prop).

Lemma bind_inr {A B} (m : M A) (k : A → M B) s a s1 :
  m s = (inr a, s1) → bind m k s = k a s1.
Proof. unfold bind. by intros ->. Qed.

Lemma bind_inl {A B} (m : M A) (k : A → M B) s e s1 :
  m s = (inl e, s1) → bind m k s = (inl e, s1).
Proof. unfold bind. by intros ->. Qed.

Lemma bind_inr_inv {A B} (m : M A) (k : A → M B) s b s' :
  bind m k s = (inr b, s') →
  ∃ a s1, m s = (inr a, s1) ∧ k a s1 = (inr b, s').
Proof.
  unfold bind. destruct (m s) as [[e|a] s1]; [done|]. eauto.
Qed.

Lemma call_inr_inv {A} (c : @ext world A) s a s' :
  (call c : M A) s = (inr a, s') → c (ext_state s) = (inr a, ext_state s').
Proof.
  unfold call. destruct (c (ext_state s)) as [r w]. by intros [= -> <-].
Qed.

Lemma from_option_inr_inv {A} (e : exn) (o : option A) s a s' :
  from_option e o s = (inr a, s') → o = Some a ∧ s' = s.
Proof. destruct o; simpl; unfold ret, raise; naive_solver. Qed.

Lemma keeps_weaken {A} P Q (m : M A) :
  (∀ ev, P ev → Q ev) → keeps P m → keeps Q m.
Proof.
  intros HPQ Hm s. destruct (Hm s) as (Hp & evs & Ht & Hevs).
  split; [done|]. exists evs. split; [done|]. by eapply Forall_impl.
Qed.

Lemma keeps_ret {A} P (a : A) : keeps P (ret a : M A).
Proof. intros s. split; [done|]. exists []. by rewrite app_nil_r. Qed.

Lemma keeps_raise {A} P e : keeps P (raise e : M A).
Proof. intros s. split; [done|]. exists []. by rewrite app_nil_r. Qed.

Lemma keeps_call {A} P (c : @ext world A) : keeps P (call c : M A).
Proof.
  intros s. unfold call. destruct (c (ext_state s)) as [r w]. simpl.
  split; [done|]. exists []. by rewrite app_nil_r.
Qed.

Lemma keeps_log P ev : P ev → keeps P (log ev : M unit).
Proof.
  intros Hev s. split; [done|]. exists [ev]. split; [done|].
  by constructor.
Qed.

Lemma keeps_get_parameters P : keeps P (get_parameters : M _).
Proof. intros s. split; [done|]. exists []. by rewrite app_nil_r. Qed.

Lemma keeps_from_option {A} P e (o : option A) :
  keeps P (from_option e o : M A).
Proof. destruct o; [apply keeps_ret|apply keeps_raise]. Qed.

Lemma keeps_of_sum {A} P (r : exn + A) : keeps P (of_sum r : M A).
Proof. destruct r; [apply keeps_raise|apply keeps_ret]. Qed.

Lemma keeps_bind {A B} P (m : M A) (k : A → M B) :
  keeps P m → (∀ a, keeps P (k a)) → keeps P (bind m k).
Proof.
  intros Hm Hk s. unfold bind.
  destruct (Hm s) as (Hp & evs & Ht & Hevs).
  destruct (m s) as [[e|a] s1]; simpl in *.
  { split; [done|]. eauto. }
  destruct (Hk a s1) as (Hp' & evs' & Ht' & Hevs').
  split; [congruence|]. exists (evs ++ evs').
  rewrite Ht', Ht, (assoc (++)). split; [done|]. by apply Forall_app.
Qed.

Lemma keeps_parameter P key : keeps P (parameter key : M _).
Proof.
  apply keeps_bind; [apply keeps_get_parameters|].
  intros p. apply keeps_from_option.
Qed.

Lemma keeps_check_quadrature_rule P v :
  keeps P (check_quadrature_rule v : M _).
Proof. destruct v; first [apply keeps_ret|apply keeps_raise]. Qed.
End monad_facts.

(** Takes a goal [keeps P m] apart along the structure of [m]. *)
Ltac keeps_step :=
  lazymatch goal with
  | |- keeps _ (bind _ _) => apply keeps_bind; [|intros ?]
  | |- keeps _ (ret _) => apply keeps_ret
  | |- keeps _ (raise _) => apply keeps_raise
  | |- keeps _ (call _) => apply keeps_call
  | |- keeps _ (log _) => apply keeps_log; try done
  | |- keeps _ get_parameters => apply keeps_get_parameters
  | |- keeps _ (parameter _) => apply keeps_parameter
  | |- keeps _ (from_option _ _) => apply keeps_from_option
  | |- keeps _ (of_sum _) => apply keeps_of_sum
  | |- keeps _ (check_quadrature_rule _) => apply keeps_check_quadrature_rule
  | |- keeps _ (let '(_, _) := ?r in _) => destruct r
  | |- keeps _ (if ?b then _ else _) => destruct b
  | |- keeps _ (match ?r with _ => _ end) => destruct r
  end.

Ltac keeps_auto := repeat keeps_step.

(** ** The driver and the caller's dictionary *)

Section driver_facts.
Context {scalar ufl_form ufl_expr ufl_argument coefficient index gem stmt
         tabulation_manager index_cache impero_op impero_c world : Type}.
Context `{Countable index} `{Countable coefficient}.
Variable E : @collaborators scalar ufl_form ufl_expr ufl_argument coefficient
               index gem stmt tabulation_manager index_cache impero_op
               impero_c world _ _.
Local Abbreviation state := (@state scalar world).
Local Abbreviation pyval := (@pyval scalar).
Local Abbreviation integral := (@integral scalar ufl_expr).
Local Abbreviation integral_data := (@integral_data scalar ufl_expr).
Local Abbreviation form_data :=
  (@form_data scalar ufl_expr ufl_argument coefficient).
Local Abbreviation interpreter := (@interpreter index gem).
Local Abbreviation kernel_arguments :=
  (@kernel_arguments coefficient index gem stmt _ _).
Local Abbreviation lowered := (@lowered coefficient index gem stmt _ _).
Local Abbreviation scheduled := (@scheduled index gem impero_op).
Local Abbreviation Kernel := (@Kernel scalar stmt).
Implicit Types (s : state) (I : interpreter) (idata : integral_data)
  (fd : form_data) (itg : integral) (p : gmap string pyval)
  (ka : kernel_arguments) (lo : lowered) (sd : scheduled).

(** *** What each phase leaves alone *)

Lemma keeps_prepare_coefficients P t fd enabled acc :
  keeps P (prepare_coefficients E t fd enabled acc).
Proof.
  revert acc. induction enabled as [|[i on] enabled IH]; intros acc; simpl.
  { apply keeps_ret. }
  destruct on; simpl; [|apply IH].
  destruct acc as [[[cn al] pr] cm]. keeps_auto. apply IH.
Qed.

Lemma keeps_prepare_kernel_arguments P idata fd :
  keeps P (prepare_kernel_arguments E idata fd).
Proof.
  unfold prepare_kernel_arguments. keeps_auto.
  all: try apply keeps_prepare_coefficients. all: keeps_auto.
Qed.

Lemma keeps_lower_integral I t c ka i itg cache :
  keeps (λ ev, event_term ev = i) (lower_integral E I t c ka i itg cache).
Proof. unfold lower_integral. keeps_auto. Qed.

Lemma keeps_lower_integrals I t c ka terms nonfem_ qs cache :
  keeps (λ _, True) (lower_integrals E I t c ka terms nonfem_ qs cache).
Proof.
  revert nonfem_ qs cache.
  induction terms as [|[i itg] terms IH]; intros nonfem_ qs cache; simpl.
  { apply keeps_ret. }
  apply keeps_bind.
  { eapply keeps_weaken; [|apply keeps_lower_integral]. done. }
  intros [[nonfem q] cache']. apply IH.
Qed.

Lemma keeps_lower I idata fd : keeps (λ _, True) (lower E I idata fd).
Proof.
  unfold lower. apply keeps_bind; [apply keeps_prepare_kernel_arguments|].
  intros ka. apply keeps_bind; [apply keeps_lower_integrals|].
  intros [nonfem_ qs]. apply keeps_ret.
Qed.

Lemma keeps_schedule P I rv ir prefix_ordering :
  keeps P (schedule E I rv ir prefix_ordering).
Proof. unfold schedule. keeps_auto. Qed.

Lemma keeps_build_kernel_body P I rv ir prefix_ordering licm names :
  keeps P (build_kernel_body E I rv ir prefix_ordering licm names).
Proof.
  unfold build_kernel_body.
  apply keeps_bind; [apply keeps_schedule|]. intros sd. keeps_auto.
Qed.

Lemma keeps_finish_kernel P idata prefix ka body oriented :
  keeps P (finish_kernel idata prefix ka body oriented : @M scalar world _).
Proof. unfold finish_kernel. keeps_auto. Qed.

(** After line 75 nothing touches the dictionary. *)
Lemma keeps_compile_integral_rest I idata fd prefix :
  keeps (λ _, True)
    (lo <- lower E I idata fd ;;
     let ka := lo_arguments lo in
     let index_names :=
       make_index_names (argument_indices ka) (lo_quadrature_indices lo) in
     coffee_licm <- parameter "coffee_licm" ;;
     r <- build_kernel_body E I (expressions ka) (lo_nonfem lo)
            (prefix_ordering_of lo) coffee_licm index_names ;;
     match r with
     | (None, _) => ret None
     | (Some body, oriented) =>
         kernel <- finish_kernel idata prefix ka body oriented ;;
         ret (Some kernel)
     end).
Proof.
  apply keeps_bind; [apply keeps_lower|]. intros lo. cbv zeta.
  apply keeps_bind; [apply keeps_parameter|]. intros licm.
  apply keeps_bind; [apply keeps_build_kernel_body|]. intros [[body|] o].
  - apply keeps_bind; [apply keeps_finish_kernel|]. intros k. apply keeps_ret.
  - apply keeps_ret.
Qed.

Lemma remove_auto_parameters_run s :
  remove_auto_parameters s =
  (inr (), {| parameters := strip_auto (parameters s); trace := trace s;
              ext_state := ext_state s |}).
Proof. reflexivity. Qed.

(** C10 (as amended): whatever [compile_integral] returns or raises, the
    dictionary it was handed ends up as [strip_auto] of what it was: the
    ["auto"] entries of [quadrature_degree] and [quadrature_rule] are
    deleted (lines 72-75) and nothing else is changed.  The form data and
    the integral data are only read. *)
Theorem compile_integral_parameters I idata fd prefix s :
  parameters (compile_integral E I idata fd prefix s).2 =
  strip_auto (parameters s).
Proof.
  unfold compile_integral.
  rewrite (bind_inr _ _ _ _ _ (remove_auto_parameters_run s)).
  destruct (keeps_compile_integral_rest I idata fd prefix
    {| parameters := strip_auto (parameters s); trace := trace s;
       ext_state := ext_state s |}) as [Hp _].
  exact Hp.
Qed.

(** *** Resolution of the quadrature degree *)

Lemma strip_auto_lookup_degree p :
  strip_auto p !! "quadrature_degree" =
  if is_auto (p !! "quadrature_degree") then None
  else p !! "quadrature_degree".
Proof.
  unfold strip_auto.
  destruct (is_auto (p !! "quadrature_degree")) eqn:Hd.
  - destruct (is_auto (delete "quadrature_degree" p !! "quadrature_rule")).
    + rewrite lookup_delete_ne by done. apply lookup_delete_eq.
    + apply lookup_delete_eq.
  - destruct (is_auto (p !! "quadrature_rule")); [|done].
    by rewrite lookup_delete_ne.
Qed.

Lemma strip_auto_lookup_other p key :
  key ≠ "quadrature_degree" → key ≠ "quadrature_rule" →
  strip_auto p !! key = p !! key.
Proof.
  intros Hd Hr. unfold strip_auto.
  repeat case_match; by rewrite ?lookup_delete_ne.
Qed.

Lemma integral_params_lookup p itg key :
  integral_params p itg !! key =
  match p !! key with Some v => Some v | None => metadata itg !! key end.
Proof.
  unfold integral_params, dict_update.
  rewrite lookup_union, (right_id_L ∅ (∪)).
  destruct (p !! key), (metadata itg !! key); done.
Qed.

(** The three cases of lines 152-153 on the dictionary of lines 72-75:
    the configuration, else the metadata, else the estimate. *)
Lemma quadrature_degree_resolved p itg d :
  quadrature_degree (integral_params (strip_auto p) itg) = inr d →
  (∀ c, p !! "quadrature_degree" = Some c → is_auto (Some c) = false →
        d = c) ∧
  ((p !! "quadrature_degree" = None ∨
    is_auto (p !! "quadrature_degree") = true) →
   ∀ m, metadata itg !! "quadrature_degree" = Some m → d = m) ∧
  ((p !! "quadrature_degree" = None ∨
    is_auto (p !! "quadrature_degree") = true) →
   metadata itg !! "quadrature_degree" = None →
   integral_params p itg !! "estimated_polynomial_degree" = Some d).
Proof.
  unfold quadrature_degree.
  destruct (integral_params (strip_auto p) itg
              !! "estimated_polynomial_degree") as [estimated|] eqn:Hest;
    [|done].
  rewrite integral_params_lookup, strip_auto_lookup_other in Hest by done.
  rewrite integral_params_lookup, strip_auto_lookup_degree.
  intros [= <-]. split_and!.
  - intros c Hc Hauto. rewrite Hc in *. by rewrite Hauto.
  - intros [Hp|Hp] m Hm; rewrite Hp; simpl; by rewrite Hm.
  - intros [Hp|Hp] Hm; rewrite Hp; simpl; rewrite Hm; simpl;
      by rewrite integral_params_lookup.
Qed.

Lemma strip_auto_insert_auto p :
  strip_auto (<["quadrature_degree" := PyStr "auto"]> p) =
    strip_auto (delete "quadrature_degree" p) ∧
  strip_auto (<["quadrature_rule" := PyStr "auto"]> p) =
    strip_auto (delete "quadrature_rule" p).
Proof.
  split.
  - unfold strip_auto.
    rewrite lookup_insert_eq, lookup_delete_eq. simpl.
    by rewrite delete_insert_eq.
  - unfold strip_auto.
    rewrite !(lookup_insert_ne _ "quadrature_rule" "quadrature_degree") by done.
    rewrite !(lookup_delete_ne _ "quadrature_rule" "quadrature_degree") by done.
    destruct (is_auto (p !! "quadrature_degree")).
    + rewrite (lookup_delete_ne _ "quadrature_degree" "quadrature_rule") by done.
      rewrite lookup_insert_eq. simpl.
      rewrite lookup_delete_ne, lookup_delete_eq by done. simpl.
      rewrite (delete_insert_ne _ "quadrature_degree" "quadrature_rule") by done.
      rewrite delete_insert_eq. apply delete_delete.
    + rewrite lookup_insert_eq, lookup_delete_eq. simpl.
      by rewrite delete_insert_eq.
Qed.

(** *** A quadrature rule that is not a [QuadratureRule] *)

Lemma keeps_nothing {A} (m : M A) s :
  keeps (λ _, False) m → trace (m s).2 = trace s.
Proof.
  intros Hm. destruct (Hm s) as (_ & evs & -> & Hevs).
  destruct evs as [|ev evs]; [by rewrite app_nil_r|].
  by apply Forall_cons in Hevs as [[] _].
Qed.

Lemma lower_integral_rejects I t c ka i itg cache s v :
  integral_params (parameters s) itg !! "quadrature_rule" = Some v →
  (∀ q, v ≠ PyQuadratureRule q) →
  ∃ e s', lower_integral E I t c ka i itg cache s = (inl e, s') ∧
    ((trace s' = trace s ∧ e = KeyError "estimated_polynomial_degree") ∨
     (trace s' = trace s ++ [EvCreateQuadrature i] ∧
      (e = ValueError ("Expected to find a QuadratureRule object, not a "
                       +:+ py_type v) ∨
       ∃ c' t' d w, (create_quadrature E c' t' d w).1 = inl e))).
Proof.
  intros Hv Hnot. unfold lower_integral, bind at 1. simpl.
  unfold bind at 1.
  destruct (quadrature_degree (integral_params (parameters s) itg))
    as [e|d] eqn:Hd; simpl.
  { unfold quadrature_degree in Hd. case_match; [done|].
    injection Hd as <-. eauto 10. }
  unfold bind at 1. simpl. unfold bind at 1, call at 1. simpl.
  destruct (create_quadrature E c t d (ext_state s)) as [[e|q] w] eqn:Hq.
  { do 2 eexists. split; [done|]. right. split; [done|]. right.
    exists c, t, d, (ext_state s). by rewrite Hq. }
  rewrite Hv. simpl. unfold bind at 1.
  destruct v; simpl; try (do 2 eexists; split; [done|]; right; by eauto).
  by destruct (Hnot q0).
Qed.

Lemma lower_integrals_rejects I t c ka l k n itg nonfem_ qs cache s v :
  l !! n = Some itg →
  integral_params (parameters s) itg !! "quadrature_rule" = Some v →
  (∀ q, v ≠ PyQuadratureRule q) →
  ∃ e s' evs,
    lower_integrals E I t c ka (Py.enumerate_from k l) nonfem_ qs cache s
      = (inl e, s') ∧
    trace s' = trace s ++ evs ∧
    Forall (λ ev, ¬ lowering_of (k + n) ev) evs ∧
    (EvCreateQuadrature (k + n) ∈ evs →
     e = ValueError ("Expected to find a QuadratureRule object, not a "
                     +:+ py_type v) ∨
     ∃ c' t' d w, (create_quadrature E c' t' d w).1 = inl e).
Proof.
  revert k n nonfem_ qs cache s.
  induction l as [|h l IH]; intros k n nonfem_ qs cache s Hn Hv Hnot; [done|].
  simpl. destruct n as [|n]; simpl in Hn.
  - injection Hn as ->. rewrite Nat.add_0_r.
    destruct (lower_integral_rejects I t c ka k itg cache s v Hv Hnot)
      as (e & s' & Hrun & Hcases).
    rewrite (bind_inl _ _ _ _ _ Hrun).
    destruct Hcases as [[Ht ->]|[Ht He]].
    + exists (KeyError "estimated_polynomial_degree"), s', [].
      rewrite app_nil_r. split_and!; [done..|].
      by intros ?%elem_of_nil.
    + exists e, s', [EvCreateQuadrature k]. split_and!; [done..| |done].
      constructor; [|done]. unfold lowering_of. naive_solver.
  - destruct (keeps_lower_integral I t c ka k h cache s)
      as (Hp & evs1 & Ht1 & Hevs1).
    destruct (lower_integral E I t c ka k h cache s) as [[e|r] s1] eqn:Hrun;
      simpl in Hp, Ht1.
    + rewrite (bind_inl _ _ _ _ _ Hrun). exists e, s1, evs1.
      split_and!; [done..| |].
      * eapply Forall_impl; [exact Hevs1|]. unfold lowering_of.
        intros ev Hev [-> | [-> | ->]]; simpl in Hev; lia.
      * intros Hin. rewrite Forall_forall in Hevs1.
        apply Hevs1 in Hin. simpl in Hin. lia.
    + rewrite (bind_inr _ _ _ _ _ Hrun). destruct r as [[nonfem q] cache'].
      rewrite <-Hp in Hv.
      destruct (IH (S k) n (nonfem_ ++ [nonfem]) (qs ++ [q]) cache' s1
                  Hn Hv Hnot) as (e & s' & evs2 & Hrun2 & Ht2 & Hevs2 & He).
      replace (S k + n) with (k + S n) in * by lia.
      exists e, s', (evs1 ++ evs2). split_and!; [done| | |].
      * by rewrite Ht2, Ht1, (assoc (++)).
      * apply Forall_app. split; [|done].
        eapply Forall_impl; [exact Hevs1|]. unfold lowering_of.
        intros ev Hev [-> | [-> | ->]]; simpl in Hev; lia.
      * intros [Hin|Hin]%elem_of_app; [|by apply He].
        rewrite Forall_forall in Hevs1. apply Hevs1 in Hin.
        simpl in Hin. lia.
Qed.

(** C5: when the [quadrature_rule] resolved for the [i]-th integral of the
    group is there and is not a [QuadratureRule], [compile_integral]
    raises, and the trace holds none of the calls that lower that
    integral (tabulation, coordinate replacement, [fem.process]).  Once
    the loop has reached that integral, the exception is the
    [ValueError] of line 159, unless the quadrature rule built for the
    default argument of [get] raised first. *)
Theorem compile_integral_rejects_quadrature_rule I idata fd prefix s i itg v :
  integrals idata !! i = Some itg →
  integral_params (strip_auto (parameters s)) itg !! "quadrature_rule"
    = Some v →
  (∀ q, v ≠ PyQuadratureRule q) →
  ∃ e s' evs,
    compile_integral E I idata fd prefix s = (inl e, s') ∧
    trace s' = trace s ++ evs ∧
    Forall (λ ev, ¬ lowering_of i ev) evs ∧
    (EvCreateQuadrature i ∈ evs →
     e = ValueError ("Expected to find a QuadratureRule object, not a "
                     +:+ py_type v) ∨
     ∃ c' t' d w, (create_quadrature E c' t' d w).1 = inl e).
Proof.
  intros Hi Hv Hnot. unfold compile_integral.
  rewrite (bind_inr _ _ _ _ _ (remove_auto_parameters_run s)).
  set (s0 := {| parameters := strip_auto (parameters s); trace := trace s;
                ext_state := ext_state s |}).
  unfold lower.
  pose proof (keeps_nothing (prepare_kernel_arguments E idata fd) s0
                (keeps_prepare_kernel_arguments _ idata fd)) as Ht0.
  destruct (keeps_prepare_kernel_arguments (λ _, False) idata fd s0)
    as [Hp0 _].
  destruct (prepare_kernel_arguments E idata fd s0) as [[e|ka] s1] eqn:Hka;
    simpl in Ht0, Hp0.
  { exists e, s1, []. rewrite app_nil_r.
    rewrite (bind_inl _ _ _ e s1); [|by rewrite (bind_inl _ _ _ _ _ Hka)].
    split_and!; [done..|]. by intros ?%elem_of_nil. }
  assert (integral_params (parameters s1) itg !! "quadrature_rule" = Some v)
    as Hv1 by (by rewrite Hp0).
  destruct (lower_integrals_rejects I (integral_type idata)
              (ufl_cell (domain idata)) ka (integrals idata) 0 i itg [] []
              (new_index_cache E) s1 v Hi Hv1 Hnot)
    as (e & s' & evs & Hrun & Ht & Hevs & He).
  exists e, s', evs.
  rewrite (bind_inl _ _ _ e s').
  2:{ rewrite (bind_inr _ _ _ _ _ Hka). unfold Py.enumerate.
      by rewrite (bind_inl _ _ _ _ _ Hrun). }
  split_and!; [done|by rewrite Ht, Ht0|done..].
Qed.

(** *** The index ordering *)

Lemma ret_inr_inv {A} (a b : A) s s' :
  (ret a : M A) s = (inr b, s') → a = b ∧ s = s'.
Proof. unfold ret. naive_solver. Qed.


(** *** An integral that simplifies to zero *)

Lemma parameter_run s key v :
  parameters s !! key = Some v → (parameter key : M _) s = (inr v, s).
Proof. unfold parameter, bind, get_parameters. simpl. by intros ->. Qed.

(** C3: when the operation ordering of the lowered integral is empty,
    [compile_integral] returns [None], and the loop of [compile_form]
    goes on with the next integral data without adding a kernel. *)
Theorem zero_integral_gives_no_kernel I idata fd prefix s lo s1 licm sd s2 :
  lower E I idata fd
    {| parameters := strip_auto (parameters s); trace := trace s;
       ext_state := ext_state s |} = (inr lo, s1) →
  parameters s1 !! "coffee_licm" = Some licm →
  schedule E I (expressions (lo_arguments lo)) (lo_nonfem lo)
    (prefix_ordering_of lo) s1 = (inr sd, s2) →
  sch_ops sd = [] →
  compile_integral E I idata fd prefix s = (inr None, s2) ∧
  ∀ rest kernels,
    compile_integrals E I fd prefix (idata :: rest) kernels s =
    compile_integrals E I fd prefix rest kernels s2.
Proof.
  intros Hlo Hlicm Hsd Hops.
  assert (compile_integral E I idata fd prefix s = (inr None, s2)) as Hrun.
  { unfold compile_integral.
    rewrite (bind_inr _ _ _ _ _ (remove_auto_parameters_run s)).
    rewrite (bind_inr _ _ _ _ _ Hlo). cbv zeta.
    rewrite (bind_inr _ _ _ _ _ (parameter_run s1 _ _ Hlicm)).
    unfold build_kernel_body.
    erewrite (bind_inr _ _ s1).
    2:{ rewrite (bind_inr _ _ _ _ _ Hsd). rewrite Hops. simpl. done. }
    done. }
  split; [done|]. intros rest kernels. simpl.
  by rewrite (bind_inr _ _ _ _ _ Hrun).
Qed.

(** *** The parameter list of the kernel *)

Lemma enabled_positions_cons_false mask positions :
  enabled_positions (false :: mask) positions =
  enabled_positions mask (drop 1 positions).
Proof.
  unfold enabled_positions. destruct positions as [|x positions]; simpl.
  - by destruct mask.
  - rewrite filter_cons_False by (simpl; congruence). by rewrite drop_0.
Qed.

Lemma enabled_positions_cons_true mask positions x :
  positions !! 0 = Some x →
  enabled_positions (true :: mask) positions =
  x :: enabled_positions mask (drop 1 positions).
Proof.
  unfold enabled_positions. destruct positions as [|y positions]; [done|].
  intros [= ->].
  change (zip (true :: mask) (x :: positions))
    with ((true, x) :: zip mask positions).
  rewrite filter_cons_True by done. done.
Qed.

Lemma prepare_coefficients_spec t fd mask k cn al pr cm s cn' al' pr' cm' s' :
  prepare_coefficients E t fd (Py.enumerate_from k mask) (cn, al, pr, cm) s
    = (inr (cn', al', pr', cm'), s') →
  ∃ bufs,
    al' = al ++ bufs ∧
    length bufs = count_enabled mask ∧
    cn' = cn ++ enabled_positions mask
                  (drop k (original_coefficient_positions fd)) ∧
    length cn' = length cn + length bufs.
Proof.
  revert k cn al pr cm s.
  induction mask as [|on mask IH]; intros k cn al pr cm s; simpl.
  { intros [[= -> -> -> ->] _]%ret_inr_inv. exists [].
    unfold enabled_positions. simpl. rewrite !app_nil_r.
    split_and!; [done..|lia]. }
  destruct on; simpl.
  - intros Hrun.
    apply bind_inr_inv in Hrun as (c & s1 & Hc & Hrun).
    apply bind_inr_inv in Hrun as (pos & s2 & Hpos & Hrun).
    apply bind_inr_inv in Hrun as ([[funarg prepare_] expression] & s3 & _ & Hrun).
    apply from_option_inr_inv in Hpos as [Hpos _].
    apply IH in Hrun as (bufs & -> & Hlen & -> & Hcn).
    exists (funarg :: bufs). split_and!.
    + by rewrite <-(assoc (++)).
    + unfold count_enabled in *. rewrite filter_cons_True by done.
      simpl. by rewrite Hlen.
    + rewrite <-(assoc (++)). f_equal. simpl.
      rewrite (enabled_positions_cons_true _ _ pos).
      * by rewrite drop_drop, Nat.add_1_r.
      * by rewrite lookup_drop, Nat.add_0_r.
    + rewrite !length_app in Hcn |- *. simpl in *. lia.
  - intros Hrun. apply IH in Hrun as (bufs & -> & Hlen & -> & Hcn).
    exists bufs. split_and!; [done| | |done].
    + unfold count_enabled in *.
      by rewrite filter_cons_False by (simpl; congruence).
    + by rewrite enabled_positions_cons_false, drop_drop, Nat.add_1_r.
Qed.

Lemma prepare_kernel_arguments_spec idata fd s ka s' :
  prepare_kernel_arguments E idata fd s = (inr ka, s') →
  ∃ a c bufs,
    arglist ka = [a; c] ++ bufs ++ facet_arguments (integral_type idata) ∧
    length bufs = count_enabled (enabled_coefficients idata) ∧
    length bufs = length (ka_coefficient_numbers ka) ∧
    ka_coefficient_numbers ka =
      enabled_positions (enabled_coefficients idata)
        (original_coefficient_positions fd).
Proof.
  unfold prepare_kernel_arguments. intros Hrun.
  apply bind_inr_inv in Hrun as ([[[a pa] ex] fin] & s1 & _ & Hrun).
  apply bind_inr_inv in Hrun as (e0 & s2 & _ & Hrun).
  apply bind_inr_inv in Hrun as (mi & s3 & _ & Hrun).
  apply bind_inr_inv in Hrun as (co & s4 & _ & Hrun).
  apply bind_inr_inv in Hrun as ([[c pc] ec] & s5 & _ & Hrun).
  apply bind_inr_inv in Hrun as ([[[cn al] pr] cm] & s6 & Hloop & Hrun).
  apply ret_inr_inv in Hrun as [<- _]. simpl.
  apply prepare_coefficients_spec in Hloop as (bufs & -> & Hlen & -> & Hcn).
  exists a, c, bufs. rewrite !app_nil_l, !drop_0 in Hcn |- *. simpl in Hcn.
  split_and!; [by rewrite <-!(assoc (++))|done|lia|done].
Qed.

Lemma compile_integral_kernel I idata fd prefix s (k : Kernel) s' :
  compile_integral E I idata fd prefix s = (inr (Some k), s') →
  ∃ ka s0 s1,
    prepare_kernel_arguments E idata fd s0 = (inr ka, s1) ∧
    args (ast k) =
      (if oriented k then Py.list_insert 2 cell_orientations_decl (arglist ka)
       else arglist ka) ∧
    coefficient_numbers k = ka_coefficient_numbers ka.
Proof.
  unfold compile_integral. intros Hrun.
  apply bind_inr_inv in Hrun as ([] & s0 & _ & Hrun).
  apply bind_inr_inv in Hrun as (lo & s1 & Hlo & Hrun). cbv zeta in Hrun.
  apply bind_inr_inv in Hrun as (licm & s2 & _ & Hrun).
  apply bind_inr_inv in Hrun as ([[body|] o] & s3 & _ & Hrun).
  2:{ by apply ret_inr_inv in Hrun as [? _]. }
  apply bind_inr_inv in Hrun as (k' & s4 & Hk & Hrun).
  apply ret_inr_inv in Hrun as [[= ->] _].
  unfold finish_kernel in Hk.
  apply bind_inr_inv in Hk as (itg & s5 & _ & Hk).
  apply ret_inr_inv in Hk as [<- _]. simpl.
  unfold lower in Hlo.
  apply bind_inr_inv in Hlo as (ka & s6 & Hka & Hlo).
  apply bind_inr_inv in Hlo as ([nonfem_ qs] & s7 & _ & Hlo).
  apply ret_inr_inv in Hlo as [<- _]. simpl. eauto 10.
Qed.

Lemma compile_integral_args I idata fd prefix s (k : Kernel) s' :
  compile_integral E I idata fd prefix s = (inr (Some k), s') →
  ∃ a c bufs,
    length bufs = count_enabled (enabled_coefficients idata) ∧
    length bufs = length (coefficient_numbers k) ∧
    args (ast k) =
      [a; c] ++ (if oriented k then [cell_orientations_decl] else [])
      ++ bufs ++ facet_arguments (integral_type idata) ∧
    coefficient_numbers k =
      enabled_positions (enabled_coefficients idata)
        (original_coefficient_positions fd).
Proof.
  intros (ka & s0 & s1 & Hka & Hargs & Hcn)%compile_integral_kernel.
  apply prepare_kernel_arguments_spec in Hka
    as (a & c & bufs & Hal & Hlen & Hlen' & Hpos).
  exists a, c, bufs. rewrite Hargs, Hcn, Hal.
  split_and!; [done..| |done]. by destruct (oriented k).
Qed.

(** C7: in the parameter list of a compiled kernel the facet branch adds,
    after the output buffer, the coordinates, the cell orientations (if
    any) and the coefficient buffers, one [unsigned int facet[1]]
    for the exterior facet types, one [unsigned int facet[2]] for the
    interior facet types, and nothing for a cell integral. *)
Theorem kernel_facet_argument I idata fd prefix s (k : Kernel) s' :
  compile_integral E I idata fd prefix s = (inr (Some k), s') →
  ∃ a c bufs,
    length bufs = count_enabled (enabled_coefficients idata) ∧
    let params := [a; c]
      ++ (if oriented k then [cell_orientations_decl] else []) ++ bufs in
    (integral_type idata ∈ ["exterior_facet"; "exterior_facet_vert"] →
     args (ast k) = params ++
       [{| typ := "unsigned int";
           sym := {| symbol := "facet"; rank := [1] |};
           qualifiers := ["const"] |}]) ∧
    (integral_type idata ∈ ["interior_facet"; "interior_facet_vert"] →
     args (ast k) = params ++
       [{| typ := "unsigned int";
           sym := {| symbol := "facet"; rank := [2] |};
           qualifiers := ["const"] |}]) ∧
    (integral_type idata = "cell" → args (ast k) = params).
Proof.
  intros (a & c & bufs & Hlen & _ & Hargs & _)%compile_integral_args.
  exists a, c, bufs. split; [done|]. cbv zeta. rewrite Hargs.
  unfold facet_arguments. split_and!.
  - intros Ht. rewrite bool_decide_eq_true_2 by done.
    by rewrite <-!(assoc (++)).
  - intros Ht. rewrite bool_decide_eq_false_2, bool_decide_eq_true_2.
    + by rewrite <-!(assoc (++)).
    + done.
    + intros Hex. rewrite !elem_of_cons, elem_of_nil in Ht, Hex.
      destruct Ht as [Ht|[Ht|[]]], Hex as [Hex|[Hex|[]]];
        rewrite Ht in Hex; discriminate.
  - intros ->. simpl. by rewrite ?app_nil_r.
Qed.

(** C8: the [coefficient_numbers] of a compiled kernel are the original
    positions of the coefficients whose entry in [enabled_coefficients]
    is true, in order, and the parameter list holds as many coefficient
    buffers as there are such entries. *)
Theorem kernel_coefficient_numbers I idata fd prefix s (k : Kernel) s' :
  compile_integral E I idata fd prefix s = (inr (Some k), s') →
  coefficient_numbers k =
    enabled_positions (enabled_coefficients idata)
      (original_coefficient_positions fd) ∧
  ∃ a c bufs,
    length bufs = count_enabled (enabled_coefficients idata) ∧
    length bufs = length (coefficient_numbers k) ∧
    args (ast k) =
      [a; c] ++ (if oriented k then [cell_orientations_decl] else [])
      ++ bufs ++ facet_arguments (integral_type idata).
Proof.
  intros (a & c & bufs & Hlen & Hlen' & Hargs & Hcn)%compile_integral_args.
  split; [done|]. by exists a, c, bufs.
Qed.

(** *** Terms whose lists of fragments differ in length *)

Lemma zip_star_length {A} (ls : list (list A)) :
  length (Py.zip_star ls) = min_length ls.
Proof.
  induction ls as [|l ls IH]; [done|].
  destruct ls as [|l' ls]; [apply length_fmap|].
  change (length (zip_with cons l (Py.zip_star (l' :: ls))) =
          length l `min` min_length (l' :: ls)).
  by rewrite length_zip_with, IH.
Qed.

Lemma zip_star_lookup {A} (ls : list (list A)) n :
  ls ≠ [] → Py.zip_star ls !! n = mapM (λ l, l !! n) ls.
Proof.
  induction ls as [|l ls IH]; [done|]. intros _.
  destruct ls as [|l' ls].
  - simpl. rewrite list_lookup_fmap. by destruct (l !! n).
  - change (zip_with cons l (Py.zip_star (l' :: ls)) !! n =
            mapM (λ l, l !! n) (l :: l' :: ls)).
    rewrite lookup_zip_with, IH by done.
    change (mapM (λ l, l !! n) (l :: l' :: ls))
      with (x ← l !! n; k ← mapM (λ l, l !! n) (l' :: ls); mret (x :: k)).
    destruct (l !! n); [|done]. simpl.
    by destruct (mapM (λ l, l !! n) (l' :: ls)).
Qed.

(** C2 (as amended): line 178 raises nothing.  It yields as many
    expressions as the shortest list of fragments has entries, the
    [n]-th being the sum, from [Zero] on and in the order of the terms,
    of the [n]-th fragments; fragments past the length of the
    shortest list are dropped. *)
Theorem sum_restrictions_shortest (nonfem_ : list (list gem)) :
  length (sum_restrictions E nonfem_) = min_length nonfem_ ∧
  ∀ n column,
    nonfem_ ≠ [] →
    mapM (λ nonfem, nonfem !! n) nonfem_ = Some column →
    sum_restrictions E nonfem_ !! n
      = Some (Py.reduce (Sum E) column (Zero E)).
Proof.
  unfold sum_restrictions. split.
  - by rewrite length_fmap, zip_star_length.
  - intros n column Hne Hcol.
    by rewrite list_lookup_fmap, zip_star_lookup, Hcol.
Qed.

(** *** Two runs of the interpreter *)

Section two_runs.
Local Abbreviation M := (@M scalar world).
Variables E1 E2 :
  @collaborators scalar ufl_form ufl_expr ufl_argument coefficient
    index gem stmt tabulation_manager index_cache impero_op impero_c world
    _ _.
Variables I1 I2 : interpreter.
Variable R : world → world → Prop.
Hypothesis le1 : total_order (object_le I1).
Hypothesis le2 : total_order (object_le I2).
Hypothesis same_free_indices :
  ∀ e, free_indices I1 e ≡ₚ free_indices I2 e.
Hypothesis same_answers : reproducible R E1 E2.

Lemma agree_pure {A} (x : exn + A) :
  agree R (λ s, (x, s)) (λ s : state, (x, s)).
Proof.
  intros s1 s2 Hp HR. simpl. split_and!; [done..|].
  exists []. by rewrite !app_nil_r.
Qed.

Lemma agree_ret {A} (a : A) : agree R (ret a) (ret a : M _).
Proof. apply agree_pure. Qed.

Lemma agree_raise {A} e : agree R (raise e) (raise e : M A).
Proof. apply agree_pure. Qed.

Lemma agree_from_option {A} e (o : option A) :
  agree R (from_option e o) (from_option e o : M A).
Proof. destruct o; apply agree_pure. Qed.

Lemma agree_of_sum {A} (r : exn + A) : agree R (of_sum r) (of_sum r : M A).
Proof. destruct r; apply agree_pure. Qed.

Lemma agree_check_quadrature_rule (v : pyval) :
  agree R (check_quadrature_rule v) (check_quadrature_rule v : M _).
Proof. destruct v; apply agree_pure. Qed.

Lemma agree_log ev : agree R (log ev) (log ev : M _).
Proof.
  intros s1 s2 Hp HR. simpl. split_and!; [done..|]. by exists [ev].
Qed.

Lemma agree_get_parameters : agree R get_parameters (get_parameters : M _).
Proof.
  intros s1 s2 Hp HR. simpl. split_and!; [by rewrite Hp|done..|].
  exists []. by rewrite !app_nil_r.
Qed.

Lemma agree_set_parameters p :
  agree R (set_parameters p) (set_parameters p : M _).
Proof.
  intros s1 s2 Hp HR. simpl. split_and!; [done..|].
  exists []. by rewrite !app_nil_r.
Qed.

Lemma agree_call {A} (c1 c2 : @ext world A) :
  same_answer R c1 c2 → agree R (call c1) (call c2 : M A).
Proof.
  intros Hc s1 s2 Hp HR. unfold call.
  destruct (Hc _ _ HR) as [Hr HR'].
  destruct (c1 (ext_state s1)) as [r1 w1], (c2 (ext_state s2)) as [r2 w2].
  simpl in *. split_and!; [done..|]. exists []. by rewrite !app_nil_r.
Qed.

Lemma agree_bind {A B} (m1 m2 : M A) (k1 k2 : A → M B) :
  agree R m1 m2 → (∀ a, agree R (k1 a) (k2 a)) →
  agree R (bind m1 k1) (bind m2 k2).
Proof.
  intros Hm Hk s1 s2 Hp HR. unfold bind.
  destruct (Hm s1 s2 Hp HR) as (Hr & Hp' & HR' & evs & Ht1 & Ht2).
  destruct (m1 s1) as [[e1|a1] s1'], (m2 s2) as [[e2|a2] s2'];
    simpl in *; try discriminate.
  - injection Hr as Hr. subst e1. split_and!; [done..|]. by exists evs.
  - injection Hr as Ha. subst a1.
    destruct (Hk a2 s1' s2' Hp' HR') as (Hr & Hp'' & HR'' & evs' & Ht1' & Ht2').
    split_and!; [done..|]. exists (evs ++ evs').
    by rewrite Ht1', Ht2', Ht1, Ht2, !(assoc (++)).
Qed.

Lemma agree_parameter key : agree R (parameter key) (parameter key : M _).
Proof.
  apply agree_bind; [apply agree_get_parameters|].
  intros p. apply agree_from_option.
Qed.

(** Takes a goal [agree R m1 m2] apart along the common structure of the
    two computations. *)
Ltac agree_step :=
  lazymatch goal with
  | |- agree _ (bind _ _) (bind _ _) => apply agree_bind; [|intros ?]
  | |- agree _ (ret _) (ret _) => apply agree_ret
  | |- agree _ (raise _) (raise _) => apply agree_raise
  | |- agree _ (call _) (call _) => apply agree_call; apply same_answers
  | |- agree _ (log _) (log _) => apply agree_log
  | |- agree _ get_parameters get_parameters => apply agree_get_parameters
  | |- agree _ (set_parameters _) (set_parameters _) =>
      apply agree_set_parameters
  | |- agree _ (parameter _) (parameter _) => apply agree_parameter
  | |- agree _ (from_option _ _) (from_option _ _) => apply agree_from_option
  | |- agree _ (of_sum _) (of_sum _) => apply agree_of_sum
  | |- agree _ (check_quadrature_rule _) (check_quadrature_rule _) =>
      apply agree_check_quadrature_rule
  | |- agree _ (let '(_, _) := ?r in _) _ => destruct r
  | |- agree _ (if ?b then _ else _) _ => destruct b
  | |- agree _ (match ?r with _ => _ end) _ => destruct r
  end.

Ltac agree_auto := repeat agree_step.

(** What the driver computes by itself is the same in both runs. *)

Lemma sum_over_quadrature_run :
  sum_over_quadrature E1 I1 = sum_over_quadrature E2 I2.
Proof using same_free_indices same_answers.
  extensionality q. extensionality nonfem. unfold sum_over_quadrature.
  rewrite (rep_IndexSum _ _ _ same_answers).
  apply list_fmap_ext. intros _ e _.
  rewrite (bool_decide_ext _ (q ∈ free_indices I2 e)); [done|].
  by rewrite same_free_indices.
Qed.

Lemma collect_indices_run nodes :
  collect_indices E1 nodes = collect_indices E2 nodes.
Proof using same_answers.
  unfold collect_indices. by rewrite (rep_multiindex _ _ _ same_answers).
Qed.

Lemma make_index_ordering_run :
  make_index_ordering E1 I1 = make_index_ordering E2 I2.
Proof using le1 le2 same_answers.
  extensionality prefix_ordering. extensionality nodes.
  unfold make_index_ordering.
  by rewrite !unique_indices_first_occurrences, collect_indices_run.
Qed.

Lemma get_indices_run :
  get_indices (gem:=gem) I1 = get_indices I2.
Proof using same_free_indices.
  extensionality index_ordering. extensionality e. unfold get_indices.
  by rewrite (make_index_orderer_Permutation _ _ _ (same_free_indices e)).
Qed.

Lemma sum_restrictions_run :
  sum_restrictions E1 = sum_restrictions E2.
Proof using same_answers.
  extensionality nonfem_. unfold sum_restrictions.
  by rewrite (rep_Sum _ _ _ same_answers), (rep_Zero _ _ _ same_answers).
Qed.

(** The phases of [compile_integral] agree. *)

Lemma agree_prepare_coefficients t fd enabled acc :
  agree R (prepare_coefficients E1 t fd enabled acc)
    (prepare_coefficients E2 t fd enabled acc).
Proof using same_answers.
  revert acc. induction enabled as [|[i on] enabled IH]; intros acc; simpl.
  { apply agree_ret. }
  destruct on; simpl; [|apply IH].
  destruct acc as [[[cn al] pr] cm]. agree_auto. apply IH.
Qed.

Lemma agree_prepare_kernel_arguments idata fd :
  agree R (prepare_kernel_arguments E1 idata fd)
    (prepare_kernel_arguments E2 idata fd).
Proof using same_answers.
  unfold prepare_kernel_arguments.
  rewrite (rep_multiindex _ _ _ same_answers),
    (rep_is_Index _ _ _ same_answers).
  agree_auto. apply agree_prepare_coefficients.
Qed.

Lemma agree_lower_integral t c ka i itg cache :
  agree R (lower_integral E1 I1 t c ka i itg cache)
    (lower_integral E2 I2 t c ka i itg cache).
Proof using same_free_indices same_answers.
  unfold lower_integral. rewrite sum_over_quadrature_run. agree_auto.
Qed.

Lemma agree_lower_integrals t c ka terms nonfem_ qs cache :
  agree R (lower_integrals E1 I1 t c ka terms nonfem_ qs cache)
    (lower_integrals E2 I2 t c ka terms nonfem_ qs cache).
Proof using same_free_indices same_answers.
  revert nonfem_ qs cache.
  induction terms as [|[i itg] terms IH]; intros nonfem_ qs cache; simpl.
  { apply agree_ret. }
  apply agree_bind; [apply agree_lower_integral|].
  intros [[nonfem q] cache']. apply IH.
Qed.

Lemma agree_lower idata fd :
  agree R (lower E1 I1 idata fd) (lower E2 I2 idata fd).
Proof using same_free_indices same_answers.
  unfold lower.
  rewrite sum_restrictions_run, (rep_new_index_cache _ _ _ same_answers).
  apply agree_bind; [apply agree_prepare_kernel_arguments|]. intros ka.
  apply agree_bind; [apply agree_lower_integrals|]. intros [nonfem_ qs].
  apply agree_ret.
Qed.

Lemma agree_schedule rv ir prefix_ordering :
  agree R (schedule E1 I1 rv ir prefix_ordering)
    (schedule E2 I2 rv ir prefix_ordering).
Proof using le1 le2 same_free_indices same_answers.
  unfold schedule.
  rewrite make_index_ordering_run, get_indices_run,
    (rep_variable_name _ _ _ same_answers).
  agree_auto.
Qed.

Lemma agree_build_kernel_body rv ir prefix_ordering licm names :
  agree R (build_kernel_body E1 I1 rv ir prefix_ordering licm names)
    (build_kernel_body E2 I2 rv ir prefix_ordering licm names).
Proof using le1 le2 same_free_indices same_answers.
  unfold build_kernel_body.
  rewrite get_indices_run, (rep_close_scope _ _ _ same_answers).
  apply agree_bind; [apply agree_schedule|]. intros sd. agree_auto.
Qed.

Lemma agree_compile_integral idata fd prefix :
  agree R (compile_integral E1 I1 idata fd prefix)
    (compile_integral E2 I2 idata fd prefix).
Proof using le1 le2 same_free_indices same_answers.
  unfold compile_integral, remove_auto_parameters.
  apply agree_bind; [agree_auto|]. intros [].
  apply agree_bind; [apply agree_lower|]. intros lo. cbv zeta.
  apply agree_bind; [apply agree_parameter|]. intros licm.
  apply agree_bind; [apply agree_build_kernel_body|]. intros [[body|] o].
  - unfold finish_kernel. agree_auto.
  - apply agree_ret.
Qed.

(** C4: two runs of [compile_integral] on the same input with the same
    parameters give the same result, kernel AST included.  The runs may
    differ in how the interpreter orders the index objects (any total
    order, as given by their addresses), in the order in which it
    iterates the sets of free indices, and in the tables of the modules
    called, as long as these correspond; the scheduler and the other
    modules called are taken to answer the same in both runs when asked
    the same, as the specification requires of them.  In both runs the
    index collection is deduplicated by first occurrence, keeping the
    order; the index ordering and the indices the scheduler is given for
    an expression are the same; and the two runs return or raise the
    same, after the same calls, and leave the same parameters. *)
Theorem compile_integral_run_independent idata fd prefix :
  (∀ nodes,
     unique_indices (object_le I1) (collect_indices E1 nodes)
       = first_occurrences (collect_indices E1 nodes) ∧
     unique_indices (object_le I2) (collect_indices E2 nodes)
       = first_occurrences (collect_indices E1 nodes)) ∧
  (∀ prefix_ordering nodes,
     make_index_ordering E1 I1 prefix_ordering nodes
       = prefix_ordering
         ++ filter (λ k, k ∉ prefix_ordering)
              (first_occurrences (collect_indices E1 nodes)) ∧
     make_index_ordering E2 I2 prefix_ordering nodes
       = make_index_ordering E1 I1 prefix_ordering nodes ∧
     ∀ e, get_indices I1 (make_index_ordering E1 I1 prefix_ordering nodes) e
          = get_indices I2 (make_index_ordering E2 I2 prefix_ordering nodes)
              e) ∧
  (∀ s1 s2,
     parameters s1 = parameters s2 →
     R (ext_state s1) (ext_state s2) →
     (compile_integral E1 I1 idata fd prefix s1).1
       = (compile_integral E2 I2 idata fd prefix s2).1 ∧
     parameters (compile_integral E1 I1 idata fd prefix s1).2
       = parameters (compile_integral E2 I2 idata fd prefix s2).2 ∧
     R (ext_state (compile_integral E1 I1 idata fd prefix s1).2)
       (ext_state (compile_integral E2 I2 idata fd prefix s2).2) ∧
     ∃ evs,
       trace (compile_integral E1 I1 idata fd prefix s1).2
         = trace s1 ++ evs ∧
       trace (compile_integral E2 I2 idata fd prefix s2).2
         = trace s2 ++ evs).
Proof using le1 le2 same_free_indices same_answers.
  split_and!.
  - intros nodes. rewrite <-collect_indices_run.
    by rewrite !unique_indices_first_occurrences.
  - intros prefix_ordering nodes. split_and!.
    + unfold make_index_ordering, make_prefix_ordering.
      by rewrite unique_indices_first_occurrences.
    + by rewrite make_index_ordering_run.
    + intros e. by rewrite make_index_ordering_run, get_indices_run.
  - apply agree_compile_integral.
Qed.
End two_runs.
End driver_facts.

(** * Further properties of the ordering helpers *)

Section ordering_facts.
Context {index : Type} `{Countable index}.
Implicit Types (ordering indices prefix_ordering seen : list index).

(** X1: whatever its arguments are, [make_prefix_ordering] starts with
    the prefix ordering and holds exactly the indices of its two
    arguments; what follows the prefix keeps the order it has in
    [indices].  When neither argument repeats an index, the result repeats
    none. *)
Theorem make_prefix_ordering_NoDup indices prefix_ordering :
  prefix_ordering `prefix_of` make_prefix_ordering indices prefix_ordering ∧
  (∀ k, k ∈ make_prefix_ordering indices prefix_ordering ↔
        k ∈ prefix_ordering ∨ k ∈ indices) ∧
  drop (length prefix_ordering) (make_prefix_ordering indices prefix_ordering)
    `sublist_of` indices ∧
  (NoDup prefix_ordering → NoDup indices →
   NoDup (make_prefix_ordering indices prefix_ordering)).
Proof.
  unfold make_prefix_ordering. split_and!.
  - by apply prefix_app_r.
  - intros k. rewrite elem_of_app, list_elem_of_filter.
    destruct (decide (k ∈ prefix_ordering)); naive_solver.
  - rewrite drop_app_length. apply sublist_filter.
  - intros Hprefix Hindices.
    apply NoDup_app. split_and!; [done| |by apply NoDup_filter].
    intros k Hk [Hnot _]%list_elem_of_filter. done.
Qed.

Lemma make_index_orderer_is_Some ordering indices :
  is_Some (make_index_orderer ordering indices) ↔
  Forall (λ i, i ∈ ordering) indices.
Proof.
  unfold make_index_orderer.
  set (key := λ i : index, pos ← idx2pos ordering !! i; Some (i, pos)).
  assert (∀ i, is_Some (key i) ↔ i ∈ ordering) as Hkey.
  { intros i. rewrite <-idx2pos_is_Some. unfold key.
    destruct (idx2pos ordering !! i); simpl; split; intros [? ?]; by eauto. }
  trans (is_Some (mapM key indices)).
  { destruct (mapM key indices); simpl; split; intros [? ?]; by eauto. }
  rewrite mapM_is_Some.
  split; intros HF; (eapply Forall_impl; [exact HF|]); intros i; apply Hkey.
Qed.

(** X2: [apply_ordering] raises [KeyError] exactly when one of the indices
    it is given has no place in [index_ordering]. *)
Theorem apply_ordering_KeyError ordering indices :
  make_index_orderer ordering indices = None ↔
  ∃ i, i ∈ indices ∧ i ∉ ordering.
Proof.
  split.
  - intros Hnone.
    destruct (decide (Forall (λ i, i ∈ ordering) indices)) as [HF|HF].
    + apply make_index_orderer_is_Some in HF as [? HF]. congruence.
    + apply not_Forall_Exists in HF; [|intros ?; apply _].
      by apply Exists_exists in HF.
  - intros (i & Hi & Hnot). apply eq_None_not_Some.
    intros HF%make_index_orderer_is_Some. rewrite Forall_forall in HF.
    by apply Hnot, HF.
Qed.

Lemma StronglySorted_with {A} (R : relation A) (P : A → Prop) l :
  StronglySorted R l → Forall P l →
  StronglySorted (λ a b, R a b ∧ P a ∧ P b) l.
Proof.
  induction 1 as [|x l _ IH Hx]; intros HP; [constructor|].
  apply Forall_cons in HP as [Hpx HP]. constructor; [by apply IH|].
  rewrite Forall_forall in Hx, HP |- *. naive_solver.
Qed.

Lemma mapM_keyed_fst {B} (f : index → option B) indices
    (keyed : list (index * B)) :
  mapM (λ i, b ← f i; Some (i, b)) indices = Some keyed →
  keyed.*1 = indices ∧ Forall (λ p, f p.1 = Some p.2) keyed.
Proof.
  intros Hm%mapM_Some_1.
  induction Hm as [|i p indices keyed Hi _ [IH1 IH2]]; [done|].
  destruct (f i) as [b|] eqn:Hb; [|done]. simpl in Hi. injection Hi as <-.
  split; [by rewrite fmap_cons, IH1|]. by constructor.
Qed.

(** X3: what [apply_ordering] returns is a rearrangement of the indices it
    was given in which any index stands before another only if it has a
    position in [index_ordering] that is not after one of the other. *)
Theorem apply_ordering_sorted ordering indices ordered :
  make_index_orderer ordering indices = Some ordered →
  ordered ≡ₚ indices ∧
  StronglySorted
    (λ a b, ∃ p q, ordering !! p = Some a ∧ ordering !! q = Some b ∧ p ≤ q)
    ordered.
Proof.
  unfold make_index_orderer. intros Hrun.
  destruct (mapM _ indices) as [keyed|] eqn:Hkeyed; [|done].
  injection Hrun as <-.
  apply mapM_keyed_fst in Hkeyed as [Hfst Hpos]. split.
  - by rewrite sorted_Permutation, Hfst.
  - assert (StronglySorted (λ x y : index * nat, Nat.leb x.2 y.2 = true)
              (Py.sorted (λ x y, Nat.leb x.2 y.2) keyed)) as Hs.
    { apply sorted_StronglySorted; intros *; rewrite ?Nat.leb_le; lia. }
    apply (StronglySorted_with _
             (λ x, idx2pos ordering !! x.1 = Some x.2)) in Hs;
      [|by rewrite sorted_Permutation].
    eapply (StronglySorted_fmap fst); [|exact Hs].
    intros [a p] [b q] (Hle & Ha & Hb). simpl in *.
    exists p, q. apply Nat.leb_le in Hle.
    split_and!; [by apply idx2pos_lookup..|done].
Qed.

Lemma elem_of_first_occurrences_from seen indices i :
  i ∈ first_occurrences_from seen indices ↔ i ∈ indices ∧ i ∉ seen.
Proof.
  revert seen. induction indices as [|j indices IH]; intros seen; simpl.
  { rewrite elem_of_nil. naive_solver. }
  destruct (decide (j ∈ seen)) as [Hj|Hj].
  - rewrite IH, elem_of_cons. naive_solver.
  - rewrite !elem_of_cons, IH, not_elem_of_cons.
    destruct (decide (i = j)); naive_solver.
Qed.

Lemma first_occurrences_from_NoDup seen indices :
  NoDup (first_occurrences_from seen indices).
Proof.
  revert seen. induction indices as [|j indices IH]; intros seen; simpl.
  { constructor. }
  destruct (decide (j ∈ seen)); [apply IH|].
  constructor; [|apply IH].
  rewrite elem_of_first_occurrences_from, not_elem_of_cons. naive_solver.
Qed.

Lemma first_occurrences_from_sublist seen indices :
  first_occurrences_from seen indices `sublist_of` indices.
Proof.
  revert seen. induction indices as [|j indices IH]; intros seen; simpl.
  { done. }
  destruct (decide (j ∈ seen)); [apply sublist_cons|apply sublist_skip];
    apply IH.
Qed.

Lemma first_occurrences_from_id seen indices :
  NoDup indices → (∀ i, i ∈ indices → i ∉ seen) →
  first_occurrences_from seen indices = indices.
Proof.
  revert seen. induction indices as [|j indices IH]; intros seen Hnd Hseen.
  { done. }
  apply NoDup_cons in Hnd as [Hj Hnd]. simpl.
  rewrite decide_False by (apply Hseen; left). f_equal. apply IH; [done|].
  intros i Hi. rewrite not_elem_of_cons. split.
  - intros ->. done.
  - apply Hseen. by right.
Qed.

Lemma first_occurrences_from_order seen indices m n a b :
  first_occurrences_from seen indices !! m = Some a →
  first_occurrences_from seen indices !! n = Some b →
  m < n →
  ∃ p, indices !! p = Some a ∧ ∀ q, indices !! q = Some b → p < q.
Proof.
  revert seen m n.
  induction indices as [|x indices IH]; intros seen m n Ha Hb Hmn; [done|].
  simpl in Ha, Hb. destruct (decide (x ∈ seen)) as [Hx|Hx].
  - destruct (IH _ _ _ Ha Hb Hmn) as (p & Hp & Hq).
    exists (S p). split; [done|]. intros [|q] Hbq.
    + simpl in Hbq. injection Hbq as ->.
      apply list_elem_of_lookup_2, elem_of_first_occurrences_from in Hb.
      by destruct Hb.
    + apply Hq in Hbq. lia.
  - destruct n as [|n]; [lia|]. simpl in Hb.
    assert (b ≠ x) as Hbx.
    { apply list_elem_of_lookup_2, elem_of_first_occurrences_from in Hb.
      destruct Hb as [_ Hb]. rewrite not_elem_of_cons in Hb. by destruct Hb. }
    destruct m as [|m].
    + simpl in Ha. injection Ha as ->. exists 0. split; [done|].
      intros [|q] Hbq; [|lia]. simpl in Hbq. congruence.
    + simpl in Ha.
      destruct (IH _ _ _ Ha Hb ltac:(lia)) as (p & Hp & Hq).
      exists (S p). split; [done|]. intros [|q] Hbq.
      * simpl in Hbq. congruence.
      * apply Hq in Hbq. lia.
Qed.

(** X4: lines 225-226 of [build_kernel_body] return the collected indices
    with every repetition after the first removed, whatever order the
    interpreter puts on the objects: the result is the list of first
    occurrences; it repeats nothing, holds the same indices, is a
    subsequence of the input, and orders its indices by their first
    occurrence in the input (of two indices of the result the earlier one
    occurs in the input before every occurrence of the later one); it is
    the input itself when that repeats nothing. *)
Theorem unique_indices_removes_repetitions (le : index → index → bool)
    indices :
  total_order le →
  unique_indices le indices = first_occurrences indices ∧
  NoDup (unique_indices le indices) ∧
  (∀ i, i ∈ unique_indices le indices ↔ i ∈ indices) ∧
  unique_indices le indices `sublist_of` indices ∧
  (∀ m n a b,
     unique_indices le indices !! m = Some a →
     unique_indices le indices !! n = Some b →
     m < n →
     ∃ p, indices !! p = Some a ∧ ∀ q, indices !! q = Some b → p < q) ∧
  (NoDup indices → unique_indices le indices = indices).
Proof.
  intros Hle. rewrite unique_indices_first_occurrences by done.
  unfold first_occurrences. split_and!.
  - done.
  - apply first_occurrences_from_NoDup.
  - intros i. rewrite elem_of_first_occurrences_from, elem_of_nil. naive_solver.
  - apply first_occurrences_from_sublist.
  - intros m n a b. apply first_occurrences_from_order.
  - intros Hnd. apply first_occurrences_from_id; [done|].
    intros i _. apply not_elem_of_nil.
Qed.
End ordering_facts.


(** * Further properties of the driver *)

Section run_facts.
Context {scalar world : Type}.
Local Abbreviation M := (@M scalar world).
Local Abbreviation state := (@state scalar world).
Implicit Types (s : state).

Lemma raises_bind_l {A B} (m : M A) (k : A → M B) s :
  raises m s → raises (bind m k) s.
Proof. intros (e & s' & Hm). exists e, s'. by apply bind_inl. Qed.

Lemma raises_bind {A B} (m : M A) (k : A → M B) s :
  (∀ a s1, m s = (inr a, s1) → raises (k a) s1) → raises (bind m k) s.
Proof.
  intros Hk. unfold raises, bind in *.
  destruct (m s) as [[e|a] s1]; [by eauto|]. by apply Hk.
Qed.

Lemma raises_not_inr {A} (m : M A) s a s' :
  raises m s → m s ≠ (inr a, s').
Proof. intros (e & s1 & ->). done. Qed.

Lemma get_parameters_inr_inv s p s' :
  (get_parameters : M _) s = (inr p, s') → p = parameters s ∧ s' = s.
Proof. unfold get_parameters. naive_solver. Qed.

Lemma of_sum_inr_inv {A} (r : exn + A) s a s' :
  (of_sum r : M A) s = (inr a, s') → r = inr a ∧ s' = s.
Proof. destruct r; unfold of_sum, raise, ret; naive_solver. Qed.

Lemma log_inr_inv ev s u s' :
  (log ev : M unit) s = (inr u, s') →
  s' = {| parameters := parameters s; trace := trace s ++ [ev];
          ext_state := ext_state s |}.
Proof. unfold log. naive_solver. Qed.

Lemma call_inr_inv_state {A} (c : @ext world A) s a s' :
  (call c : M A) s = (inr a, s') →
  c (ext_state s) = (inr a, ext_state s') ∧
  s' = {| parameters := parameters s; trace := trace s;
          ext_state := ext_state s' |}.
Proof.
  unfold call. destruct (c (ext_state s)) as [r w]. by intros [= -> <-].
Qed.

Lemma parameter_inr_inv key s v s' :
  (parameter key : M _) s = (inr v, s') →
  parameters s !! key = Some v ∧ s' = s.
Proof.
  unfold parameter, bind, get_parameters. simpl.
  destruct (parameters s !! key); simpl; unfold ret, raise; naive_solver.
Qed.

Lemma parameter_None key s :
  parameters s !! key = None →
  (parameter key : M (@pyval scalar)) s = (inl (KeyError key), s).
Proof. unfold parameter, bind, get_parameters. simpl. by intros ->. Qed.

Lemma check_quadrature_rule_inr_inv (v : @pyval scalar) s q s' :
  (check_quadrature_rule v : M _) s = (inr q, s') →
  v = PyQuadratureRule q ∧ s' = s.
Proof. destruct v; unfold check_quadrature_rule, raise, ret; naive_solver. Qed.
End run_facts.


Section driver_more_facts.
Context {scalar ufl_form ufl_expr ufl_argument coefficient index gem stmt
         tabulation_manager index_cache impero_op impero_c world : Type}.
Context `{Countable index} `{Countable coefficient}.
Variable E : @collaborators scalar ufl_form ufl_expr ufl_argument coefficient
               index gem stmt tabulation_manager index_cache impero_op
               impero_c world _ _.
Local Abbreviation M := (@M scalar world).
Local Abbreviation state := (@state scalar world).
Local Abbreviation pyval := (@pyval scalar).
Local Abbreviation integral := (@integral scalar ufl_expr).
Local Abbreviation integral_data := (@integral_data scalar ufl_expr).
Local Abbreviation form_data :=
  (@form_data scalar ufl_expr ufl_argument coefficient).
Local Abbreviation interpreter := (@interpreter index gem).
Local Abbreviation kernel_arguments :=
  (@kernel_arguments coefficient index gem stmt _ _).
Local Abbreviation lowered := (@lowered coefficient index gem stmt _ _).
Local Abbreviation scheduled := (@scheduled index gem impero_op).
Local Abbreviation Kernel := (@Kernel scalar stmt).
Implicit Types (s : state) (I : interpreter) (idata : integral_data)
  (fd : form_data) (itg : integral) (p : gmap string pyval)
  (ka : kernel_arguments) (lo : lowered) (sd : scheduled).

(** *** One integral of the group *)

(** What a normal return of the loop body tells about the calls made. *)
Lemma lower_integral_inr_inv I t c ka i itg cache s nonfem qi cache' s' :
  lower_integral E I t c ka i itg cache s = (inr (nonfem, qi, cache'), s') →
  ∃ d default_rule w1 quad_rule tm w2 integrand1 w3 w4 raw unroll,
    quadrature_degree (integral_params (parameters s) itg) = inr d ∧
    create_quadrature E c t d (ext_state s) = (inr default_rule, w1) ∧
    default (PyQuadratureRule default_rule)
      (integral_params (parameters s) itg !! "quadrature_rule")
      = PyQuadratureRule quad_rule ∧
    TabulationManager E t c (points quad_rule) w1 = (inr tm, w2) ∧
    replace_coordinates E (integrand itg) (coordinates ka) w2
      = (inr integrand1, w3) ∧
    Index E ("ip" +:+ pretty i) w3 = (inr qi, w4) ∧
    parameters s !! "unroll_indexsum" = Some unroll ∧
    parameters s' = parameters s ∧
    trace s' = trace s ++ integral_events i ∧
    if truthy unroll
    then ∃ w5 unrolled,
           process E t integrand1 tm (weights quad_rule) qi
             (argument_indices ka) (coefficient_map ka) cache w4
             = (inr (raw, cache'), w5) ∧
           unroll_indexsum E raw unroll w5 = (inr unrolled, ext_state s') ∧
           nonfem = sum_over_quadrature E I qi unrolled
    else process E t integrand1 tm (weights quad_rule) qi
           (argument_indices ka) (coefficient_map ka) cache w4
           = (inr (raw, cache'), ext_state s') ∧
         nonfem = sum_over_quadrature E I qi raw.
Proof.
  unfold lower_integral. intros Hrun.
  apply bind_inr_inv in Hrun as (p & s1 & [-> ->]%get_parameters_inr_inv & Hrun).
  apply bind_inr_inv in Hrun as (d & s1 & [Hd ->]%of_sum_inr_inv & Hrun).
  apply bind_inr_inv in Hrun as ([] & s1 & ->%log_inr_inv & Hrun).
  apply bind_inr_inv in Hrun
    as (default_rule & s1 & [Hcq ->]%call_inr_inv_state & Hrun).
  apply bind_inr_inv in Hrun
    as (quad_rule & s2 & [Hrule ->]%check_quadrature_rule_inr_inv & Hrun).
  apply bind_inr_inv in Hrun as ([] & s2 & ->%log_inr_inv & Hrun).
  apply bind_inr_inv in Hrun as (tm & s2 & [Htm ->]%call_inr_inv_state & Hrun).
  apply bind_inr_inv in Hrun as ([] & s3 & ->%log_inr_inv & Hrun).
  apply bind_inr_inv in Hrun
    as (integrand1 & s3 & [Hrc ->]%call_inr_inv_state & Hrun).
  apply bind_inr_inv in Hrun as (qi' & s4 & [Hqi ->]%call_inr_inv_state & Hrun).
  apply bind_inr_inv in Hrun as ([] & s5 & ->%log_inr_inv & Hrun).
  apply bind_inr_inv in Hrun
    as ([raw cache1] & s5 & [Hpr ->]%call_inr_inv_state & Hrun).
  apply bind_inr_inv in Hrun
    as (unroll & s6 & [Hunroll ->]%parameter_inr_inv & Hrun).
  apply bind_inr_inv in Hrun as (nonfem' & s6 & Hun & Hrun).
  apply ret_inr_inv in Hrun as [[= <- <- <-] ->]. simpl in *.
  exists d, default_rule, (ext_state s1), quad_rule, tm, (ext_state s2),
    integrand1, (ext_state s3), (ext_state s4), raw, unroll.
  destruct (truthy unroll) eqn:Htruthy.
  - apply call_inr_inv_state in Hun as [Hun ->]. simpl in *.
    split_and!; try done.
    { by rewrite <-!(assoc (++)). }
    by exists (ext_state s5), nonfem'.
  - apply ret_inr_inv in Hun as [-> <-]. simpl.
    split_and!; try done. by rewrite <-!(assoc (++)).
Qed.

(** X5: the quadrature rule and the calls that receive it.  When the loop
    body returns, the rule for the resolved degree has been built even if
    the parameters name a rule; the points handed to the tabulation
    manager and the weights handed to [fem.process] are those of the rule
    named by the parameters when there is one, and of the rule built
    otherwise. *)
Theorem quadrature_rule_used I t c ka i itg cache s r s' :
  lower_integral E I t c ka i itg cache s = (inr r, s') →
  ∃ d default_rule w1 quad_rule tm w2 integrand1 qi raw cache1 w4 w5,
    quadrature_degree (integral_params (parameters s) itg) = inr d ∧
    create_quadrature E c t d (ext_state s) = (inr default_rule, w1) ∧
    (∀ q, integral_params (parameters s) itg !! "quadrature_rule"
            = Some (PyQuadratureRule q) → quad_rule = q) ∧
    (integral_params (parameters s) itg !! "quadrature_rule" = None →
     quad_rule = default_rule) ∧
    TabulationManager E t c (points quad_rule) w1 = (inr tm, w2) ∧
    process E t integrand1 tm (weights quad_rule) qi (argument_indices ka)
      (coefficient_map ka) cache w4 = (inr (raw, cache1), w5).
Proof.
  destruct r as [[nonfem qi] cache'].
  intros (d & default_rule & w1 & quad_rule & tm & w2 & integrand1 & w3 & w4
          & raw & unroll & Hd & Hcq & Hrule & Htm & _ & _ & _ & _ & _ & Hpr)
    %lower_integral_inr_inv.
  assert (∃ w5, process E t integrand1 tm (weights quad_rule) qi
                  (argument_indices ka) (coefficient_map ka) cache w4
                = (inr (raw, cache'), w5)) as [w5 Hprocess].
  { destruct (truthy unroll); [|naive_solver].
    destruct Hpr as (w5 & ? & ? & _). eauto. }
  exists d, default_rule, w1, quad_rule, tm, w2, integrand1, qi, raw, cache',
    w4, w5.
  split_and!; try done.
  - intros q Hq. rewrite Hq in Hrule. simpl in Hrule. congruence.
  - intros Hq. rewrite Hq in Hrule. simpl in Hrule. congruence.
Qed.

(** X6: index-sum unrolling is applied to what [fem.process] returned
    exactly when [parameters["unroll_indexsum"]] is truthy; in either case
    every fragment in which the quadrature index is free is then summed
    over it. *)
Theorem unroll_indexsum_when_truthy I t c ka i itg cache s nonfem qi cache' s' :
  lower_integral E I t c ka i itg cache s = (inr (nonfem, qi, cache'), s') →
  ∃ unroll integrand1 tm wts raw w4 w5,
    parameters s !! "unroll_indexsum" = Some unroll ∧
    process E t integrand1 tm wts qi (argument_indices ka)
      (coefficient_map ka) cache w4 = (inr (raw, cache'), w5) ∧
    (truthy unroll = false →
     nonfem = (λ e, if bool_decide (qi ∈ free_indices I e)
                    then IndexSum E e qi else e) <$> raw) ∧
    (truthy unroll = true →
     ∃ unrolled w6,
       unroll_indexsum E raw unroll w5 = (inr unrolled, w6) ∧
       nonfem = (λ e, if bool_decide (qi ∈ free_indices I e)
                      then IndexSum E e qi else e) <$> unrolled).
Proof.
  intros (d & default_rule & w1 & quad_rule & tm & w2 & integrand1 & w3 & w4
          & raw & unroll & _ & _ & _ & _ & _ & _ & Hunroll & _ & _ & Hpr)
    %lower_integral_inr_inv.
  destruct (truthy unroll) eqn:Htruthy.
  - destruct Hpr as (w5 & unrolled & Hprocess & Hun & ->).
    exists unroll, integrand1, tm, (weights quad_rule), raw, w4, w5.
    split_and!; [done|done|intros ?; congruence|].
    intros _. by exists unrolled, (ext_state s').
  - destruct Hpr as [Hprocess ->].
    exists unroll, integrand1, tm, (weights quad_rule), raw, w4, (ext_state s').
    split_and!; [done|done|by intros _|intros ?; congruence].
Qed.


(** *** The loop over the integrals *)

Lemma lower_integrals_inr_inv I t c ka l k nonfem_ qs cache s nonfem_' qs' s' :
  lower_integrals E I t c ka (Py.enumerate_from k l) nonfem_ qs cache s
    = (inr (nonfem_', qs'), s') →
  parameters s' = parameters s ∧
  trace s' = trace s ++ (seq k (length l) ≫= integral_events) ∧
  length nonfem_' = length nonfem_ + length l ∧
  length qs' = length qs + length l.
Proof.
  revert k nonfem_ qs cache s.
  induction l as [|itg l IH]; intros k nonfem_ qs cache s; simpl.
  { intros [[= <- <-] <-]%ret_inr_inv. rewrite app_nil_r.
    split_and!; [done..|lia|lia]. }
  intros Hrun.
  apply bind_inr_inv in Hrun as ([[nonfem qi] cache'] & s1 & Hone & Hrun).
  apply lower_integral_inr_inv in Hone
    as (? & ? & ? & ? & ? & ? & ? & ? & ? & ? & ? & _ & _ & _ & _ & _ & _ & _
        & Hp1 & Ht1 & _).
  apply IH in Hrun as (Hp & Ht & Hn & Hq).
  rewrite !length_app in Hn, Hq. simpl in Hn, Hq.
  split_and!; [congruence| |lia|lia].
  by rewrite Ht, Ht1, <-(assoc (++)).
Qed.

Lemma keeps_nothing_run {A} (m : M A) s r s' :
  keeps (λ _, False) m → m s = (r, s') →
  trace s' = trace s ∧ parameters s' = parameters s.
Proof.
  intros Hm Hrun. pose proof (keeps_nothing m s Hm) as Ht.
  destruct (Hm s) as [Hp _]. rewrite Hrun in Ht, Hp. done.
Qed.

(** The degree resolved for each integral of the loop is the one
    [create_quadrature] was called with. *)
Lemma lower_integrals_degrees I t c ka l k nonfem_ qs cache s r s' :
  lower_integrals E I t c ka (Py.enumerate_from k l) nonfem_ qs cache s
    = (inr r, s') →
  Forall
    (λ itg, ∃ d w default_rule w',
       quadrature_degree (integral_params (parameters s) itg) = inr d ∧
       create_quadrature E c t d w = (inr default_rule, w')) l.
Proof.
  revert k nonfem_ qs cache s.
  induction l as [|itg l IH]; intros k nonfem_ qs cache s; simpl.
  { constructor. }
  intros Hrun.
  apply bind_inr_inv in Hrun as ([[nonfem qi] cache'] & s1 & Hone & Hrun).
  apply lower_integral_inr_inv in Hone
    as (d & default_rule & w1 & ? & ? & ? & ? & ? & ? & ? & ? & Hd & Hcq & _
        & _ & _ & _ & _ & Hp1 & _).
  apply IH in Hrun. rewrite Hp1 in Hrun.
  constructor; [|done]. by exists d, (ext_state s), default_rule, w1.
Qed.

(** C6: the degree [compile_integral] hands to [create_quadrature].
    Whenever [compile_integral] returns, then for every integral of the
    group [create_quadrature] has been called with, and has returned
    for, a degree [d] such that: if the configuration parameters handed to
    [compile_integral] hold a [quadrature_degree] other than ["auto"], [d]
    is that one; otherwise, if the metadata of the integral hold a
    [quadrature_degree], [d] is that one; otherwise [d] is the estimated
    polynomial degree.  With [quadrature_degree], or [quadrature_rule],
    set to ["auto"] in the parameters, [compile_integral] runs as it does
    with the entry absent. *)
Theorem quadrature_degree_precedence I idata fd prefix :
  (∀ s r s',
     compile_integral E I idata fd prefix s = (inr r, s') →
     Forall
       (λ itg, ∃ d w default_rule w',
          create_quadrature E (ufl_cell (domain idata)) (integral_type idata)
            d w = (inr default_rule, w') ∧
          (∀ c, parameters s !! "quadrature_degree" = Some c →
                is_auto (Some c) = false → d = c) ∧
          ((parameters s !! "quadrature_degree" = None ∨
            is_auto (parameters s !! "quadrature_degree") = true) →
           ∀ m, metadata itg !! "quadrature_degree" = Some m → d = m) ∧
          ((parameters s !! "quadrature_degree" = None ∨
            is_auto (parameters s !! "quadrature_degree") = true) →
           metadata itg !! "quadrature_degree" = None →
           integral_params (parameters s) itg
             !! "estimated_polynomial_degree" = Some d))
       (integrals idata)) ∧
  (∀ p tr w,
     compile_integral E I idata fd prefix
       {| parameters := <["quadrature_degree" := PyStr "auto"]> p;
          trace := tr; ext_state := w |}
     = compile_integral E I idata fd prefix
         {| parameters := delete "quadrature_degree" p;
            trace := tr; ext_state := w |}) ∧
  (∀ p tr w,
     compile_integral E I idata fd prefix
       {| parameters := <["quadrature_rule" := PyStr "auto"]> p;
          trace := tr; ext_state := w |}
     = compile_integral E I idata fd prefix
         {| parameters := delete "quadrature_rule" p;
            trace := tr; ext_state := w |}).
Proof.
  split_and!.
  - intros s r s' Hrun. unfold compile_integral in Hrun.
    rewrite (bind_inr _ _ _ _ _ (remove_auto_parameters_run s)) in Hrun.
    apply bind_inr_inv in Hrun as (lo & s1 & Hlo & _).
    unfold lower in Hlo.
    apply bind_inr_inv in Hlo as (ka & s2 & Hka & Hlo).
    apply bind_inr_inv in Hlo as (loop & s3 & Hloop & _).
    eapply keeps_nothing_run in Hka as [_ Hp2];
      [|apply keeps_prepare_kernel_arguments].
    apply lower_integrals_degrees in Hloop.
    rewrite Hp2 in Hloop. simpl in Hloop.
    eapply Forall_impl; [exact Hloop|].
    intros itg (d & w & default_rule & w' & Hd & Hcq).
    exists d, w, default_rule, w'. split; [done|].
    by apply quadrature_degree_resolved.
  - intros p tr w. unfold compile_integral.
    rewrite !(bind_inr _ _ _ _ _ (remove_auto_parameters_run _)). simpl.
    by rewrite (proj1 (strip_auto_insert_auto p)).
  - intros p tr w. unfold compile_integral.
    rewrite !(bind_inr _ _ _ _ _ (remove_auto_parameters_run _)). simpl.
    by rewrite (proj2 (strip_auto_insert_auto p)).
Qed.

(** X7: whenever [compile_integral] returns, with a kernel or with [None],
    every integral of the group has been lowered once and in order: for
    each the quadrature rule is built, then the tabulation manager, then
    the coordinates are replaced, then [fem.process] runs. *)
Theorem compile_integral_lowers_each_once I idata fd prefix s r s' :
  compile_integral E I idata fd prefix s = (inr r, s') →
  trace s' =
    trace s ++ (seq 0 (length (integrals idata)) ≫= integral_events).
Proof.
  unfold compile_integral. intros Hrun.
  rewrite (bind_inr _ _ _ _ _ (remove_auto_parameters_run s)) in Hrun.
  apply bind_inr_inv in Hrun as (lo & s1 & Hlo & Hrun). cbv zeta in Hrun.
  apply bind_inr_inv in Hrun as (licm & s2 & [_ ->]%parameter_inr_inv & Hrun).
  assert (trace s' = trace s1) as ->.
  { apply bind_inr_inv in Hrun as ([body o] & s3 & Hbody & Hrun).
    eapply keeps_nothing_run in Hbody as [Ht3 _];
      [|apply keeps_build_kernel_body].
    destruct body as [body|].
    - apply bind_inr_inv in Hrun as (kernel & s4 & Hk & Hrun).
      apply ret_inr_inv in Hrun as [_ ->].
      eapply keeps_nothing_run in Hk as [-> _]; [done|].
      apply keeps_finish_kernel.
    - by apply ret_inr_inv in Hrun as [_ ->]. }
  unfold lower in Hlo.
  apply bind_inr_inv in Hlo as (ka & s3 & Hka & Hlo).
  apply bind_inr_inv in Hlo as ([nonfem_ qs] & s4 & Hloop & Hlo).
  apply ret_inr_inv in Hlo as [_ ->].
  eapply keeps_nothing_run in Hka as [Ht3 _];
    [|apply keeps_prepare_kernel_arguments].
  apply lower_integrals_inr_inv in Hloop as (_ & -> & _).
  by rewrite Ht3.
Qed.


(** *** Missing entries and out-of-range coefficients *)

Lemma compile_integral_raises_in_lower I idata fd prefix s e s1 :
  lower E I idata fd (stripped s) = (inl e, s1) →
  compile_integral E I idata fd prefix s = (inl e, s1).
Proof.
  intros Hlo. unfold compile_integral.
  rewrite (bind_inr _ _ _ _ _ (remove_auto_parameters_run s)).
  by apply bind_inl.
Qed.

Lemma lower_raises_in_arguments I idata fd s e s1 :
  prepare_kernel_arguments E idata fd s = (inl e, s1) →
  lower E I idata fd s = (inl e, s1).
Proof. intros Hka. unfold lower. by apply bind_inl. Qed.

(** X8: the estimated degree is looked up before the quadrature degree
    (it is the default argument of [get]): when the first integral has no
    [estimated_polynomial_degree], neither in its metadata nor in the
    parameters, [compile_integral] raises that [KeyError] right after the
    kernel arguments are prepared, before any quadrature rule is built,
    whether or not a [quadrature_degree] is given. *)
Theorem missing_estimated_degree I idata fd prefix s itg rest ka s1 :
  prepare_kernel_arguments E idata fd (stripped s) = (inr ka, s1) →
  integrals idata = itg :: rest →
  integral_params (strip_auto (parameters s)) itg
    !! "estimated_polynomial_degree" = None →
  compile_integral E I idata fd prefix s
    = (inl (KeyError "estimated_polynomial_degree"), s1).
Proof.
  intros Hka Hitg Hest. apply compile_integral_raises_in_lower.
  unfold lower. rewrite (bind_inr _ _ _ _ _ Hka). apply bind_inl.
  rewrite Hitg. simpl. apply bind_inl.
  eapply keeps_nothing_run in Hka as [_ Hp];
    [|apply keeps_prepare_kernel_arguments].
  unfold lower_integral, bind, get_parameters. simpl.
  rewrite Hp. simpl. unfold quadrature_degree. by rewrite Hest.
Qed.

(** X9: without a [coffee_licm] entry in the parameters [compile_integral]
    never returns; the entry is only looked up after the whole group has
    been lowered, so that is when the [KeyError] comes. *)
Theorem missing_coffee_licm I idata fd prefix s :
  parameters s !! "coffee_licm" = None →
  ∃ e s',
    compile_integral E I idata fd prefix s = (inl e, s') ∧
    ∀ lo s1, lower E I idata fd (stripped s) = (inr lo, s1) →
             e = KeyError "coffee_licm" ∧ s' = s1.
Proof.
  intros Hlicm.
  destruct (lower E I idata fd (stripped s)) as [[e|lo] s1] eqn:Hlo.
  { exists e, s1. split; [by apply compile_integral_raises_in_lower|].
    intros ? ? [=]. }
  exists (KeyError "coffee_licm"), s1. split; [|by intros ? ? [= <- <-]].
  unfold compile_integral.
  rewrite (bind_inr _ _ _ _ _ (remove_auto_parameters_run s)).
  change (lower E I idata fd (stripped s) = (inr lo, s1)) in Hlo.
  rewrite (bind_inr _ _ _ _ _ Hlo). cbv zeta. apply bind_inl.
  apply parameter_None.
  destruct (keeps_lower E I idata fd (stripped s)) as [Hp _].
  rewrite Hlo in Hp. simpl in Hp.
  by rewrite Hp, strip_auto_lookup_other.
Qed.

Lemma lower_integral_needs_unroll I t c ka i itg cache s :
  parameters s !! "unroll_indexsum" = None →
  raises (lower_integral E I t c ka i itg cache) s.
Proof.
  intros Hunroll.
  destruct (lower_integral E I t c ka i itg cache s)
    as [[e|[[nonfem qi] cache']] s'] eqn:Hrun; [by exists e, s'|].
  apply lower_integral_inr_inv in Hrun
    as (? & ? & ? & ? & ? & ? & ? & ? & ? & ? & ? & _ & _ & _ & _ & _ & _
        & Hsome & _).
  congruence.
Qed.

(** X10: without an [unroll_indexsum] entry in the parameters a group
    with at least one integral does not compile: [compile_integral]
    raises, and it does so within the first integral. *)
Theorem missing_unroll_indexsum I idata fd prefix s :
  parameters s !! "unroll_indexsum" = None →
  integrals idata ≠ [] →
  ∃ e s' evs,
    compile_integral E I idata fd prefix s = (inl e, s') ∧
    trace s' = trace s ++ evs ∧
    Forall (λ ev, event_term ev = 0) evs.
Proof.
  intros Hunroll Hne.
  destruct (prepare_kernel_arguments E idata fd (stripped s))
    as [[e|ka] s1] eqn:Hka.
  { exists e, s1, []. rewrite app_nil_r.
    eapply keeps_nothing_run in Hka as Hs1;
      [|apply keeps_prepare_kernel_arguments].
    destruct Hs1 as [Ht _].
    split_and!; [|done..].
    by apply compile_integral_raises_in_lower, lower_raises_in_arguments. }
  eapply keeps_nothing_run in Hka as Hs1;
    [|apply keeps_prepare_kernel_arguments].
  destruct Hs1 as [Ht1 Hp1].
  destruct (integrals idata) as [|itg rest] eqn:Hitg; [done|].
  destruct (lower_integral_needs_unroll I (integral_type idata)
              (ufl_cell (domain idata)) ka 0 itg (new_index_cache E) s1)
    as (e & s2 & Hrun).
  { rewrite Hp1. simpl. by rewrite strip_auto_lookup_other. }
  destruct (keeps_lower_integral E I (integral_type idata)
              (ufl_cell (domain idata)) ka 0 itg (new_index_cache E) s1)
    as (_ & evs & Ht2 & Hevs).
  rewrite Hrun in Ht2. simpl in Ht2.
  exists e, s2, evs. split_and!; [|by rewrite Ht2, Ht1|done].
  apply compile_integral_raises_in_lower. unfold lower.
  rewrite (bind_inr _ _ _ _ _ Hka). apply bind_inl.
  rewrite Hitg. simpl. by apply bind_inl.
Qed.

Lemma prepare_coefficients_raises t fd mask k n acc s :
  mask !! n = Some true →
  reduced_coefficients fd !! (k + n) = None ∨
  original_coefficient_positions fd !! (k + n) = None →
  raises (prepare_coefficients E t fd (Py.enumerate_from k mask) acc) s.
Proof.
  revert k n acc s.
  induction mask as [|on mask IH]; intros k n acc s Hn Hout; [done|].
  simpl. destruct n as [|n]; simpl in Hn.
  - injection Hn as ->. simpl. rewrite Nat.add_0_r in Hout.
    destruct acc as [[[cn al] pr] cm].
    destruct (reduced_coefficients fd !! k) as [coef|] eqn:Hc; simpl.
    + apply raises_bind. intros coef' s1 [= <- <-]. apply raises_bind_l.
      destruct Hout as [Hout|Hout]; [done|]. rewrite Hout. by eexists _, _.
    + apply raises_bind_l. by eexists _, _.
  - replace (k + S n) with (S k + n) in Hout by lia.
    destruct on; simpl; [|by eapply IH].
    destruct acc as [[[cn al] pr] cm].
    apply raises_bind. intros coef s1 _.
    apply raises_bind. intros pos s2 _.
    apply raises_bind. intros [[funarg prepare_] expression] s3 _.
    by eapply IH.
Qed.

(** X11: a true entry of [enabled_coefficients] at a position that
    [reduced_coefficients] or [original_coefficient_positions] does not
    have makes [compile_integral] raise while the kernel arguments are
    prepared: no integral is lowered. *)
Theorem enabled_coefficient_out_of_range I idata fd prefix s i :
  enabled_coefficients idata !! i = Some true →
  reduced_coefficients fd !! i = None ∨
  original_coefficient_positions fd !! i = None →
  ∃ e s',
    compile_integral E I idata fd prefix s = (inl e, s') ∧
    trace s' = trace s.
Proof.
  intros Hi Hout.
  assert (raises (prepare_kernel_arguments E idata fd) (stripped s))
    as (e & s1 & Hka).
  { unfold prepare_kernel_arguments.
    apply raises_bind. intros [[[a pa] ex] fin] s1 _.
    apply raises_bind. intros e0 s2 _.
    apply raises_bind. intros mi s3 _.
    apply raises_bind. intros coords s4 _.
    apply raises_bind. intros [[c pc] ec] s5 _.
    apply raises_bind_l. by eapply prepare_coefficients_raises. }
  exists e, s1. split.
  - by apply compile_integral_raises_in_lower, lower_raises_in_arguments.
  - eapply keeps_nothing_run in Hka as [Ht _];
      [done|apply keeps_prepare_kernel_arguments].
Qed.
End driver_more_facts.


(** *** The names of the loop indices *)

Lemma ip_names_NoDup k n :
  NoDup ((λ i, "ip_" +:+ pretty i) <$> seq k n).
Proof.
  apply NoDup_fmap_2; [|apply NoDup_seq].
  intros i j Hij. apply (inj (String.app "ip_")) in Hij.
  by apply (inj pretty) in Hij.
Qed.

(** X12: the names of lines 180-185.  The first argument index is named
    [j] and the second [k]; a third argument index gets no name.  After
    them every quadrature index is named: a single one [ip], otherwise the
    [i]-th one [ip_i].  The names given are pairwise distinct. *)
Theorem index_names_distinct {index} (argument_indices quadrature_indices : list index) :
  (make_index_names argument_indices quadrature_indices).*1
    = take 2 argument_indices ++ quadrature_indices ∧
  (make_index_names argument_indices quadrature_indices).*2
    = take (length argument_indices) ["j"; "k"]
      ++ (if bool_decide (length quadrature_indices = 1) then ["ip"]
          else (λ i, "ip_" +:+ pretty i)
                 <$> seq 0 (length quadrature_indices)) ∧
  NoDup (make_index_names argument_indices quadrature_indices).*2.
Proof.
  assert (∀ q : list index,
    ((λ '(i, quadrature_index), (quadrature_index, "ip_" +:+ pretty i))
       <$> Py.enumerate q).*1 = q ∧
    ((λ '(i, quadrature_index), (quadrature_index, "ip_" +:+ pretty i))
       <$> Py.enumerate q).*2 = (λ i, "ip_" +:+ pretty i) <$> seq 0 (length q))
    as Henum.
  { intros q. unfold Py.enumerate. generalize 0.
    induction q as [|x q IH]; intros k; [done|].
    destruct (IH (S k)) as [IH1 IH2].
    split; [exact (f_equal (cons x) IH1)|].
    exact (f_equal (cons ("ip_" +:+ pretty k)) IH2). }
  assert ((zip argument_indices ["j"; "k"]).*1 = take 2 argument_indices)
    as Hfst.
  { destruct argument_indices as [|a [|b l]]; [done..|]. by destruct l. }
  assert ((zip argument_indices ["j"; "k"]).*2
          = take (length argument_indices) ["j"; "k"]) as Hsnd.
  { destruct argument_indices as [|a [|b l]]; [done..|]. by destruct l. }
  assert (∀ n names, names = (λ i, "ip_" +:+ pretty i) <$> seq 0 n ∨
                     names = ["ip"] →
    NoDup (take (length argument_indices) ["j"; "k"] ++ names)) as Hnames.
  { intros n names Hn. apply NoDup_app. split_and!.
    - apply (sublist_NoDup _ ["j"; "k"]); [|apply sublist_take].
      apply NoDup_cons. split; [|apply NoDup_singleton].
      by intros [=]%list_elem_of_singleton.
    - intros x Hx%subseteq_take Hin.
      assert (x = "j" ∨ x = "k") as Hjk.
      { rewrite !elem_of_cons, elem_of_nil in Hx. tauto. }
      destruct Hn as [->| ->].
      + apply list_elem_of_fmap in Hin as (i & -> & _).
        by destruct Hjk as [Hjk|Hjk].
      + apply list_elem_of_singleton in Hin. subst x.
        by destruct Hjk as [Hjk|Hjk].
    - destruct Hn as [->| ->]; [apply ip_names_NoDup|apply NoDup_singleton]. }
  unfold make_index_names.
  destruct quadrature_indices as [|q [|q' qs]].
  - rewrite !fmap_app, Hfst, Hsnd. split_and!; [done..|].
    by apply (Hnames 0); left.
  - rewrite !fmap_app, Hfst, Hsnd. split_and!; [done..|].
    by apply (Hnames 0); right.
  - rewrite !fmap_app, Hfst, Hsnd.
    destruct (Henum (q :: q' :: qs)) as [-> ->].
    split_and!; [done..|]. by eapply Hnames; left.
Qed.

Section driver_kernel_facts.
Context {scalar ufl_form ufl_expr ufl_argument coefficient index gem stmt
         tabulation_manager index_cache impero_op impero_c world : Type}.
Context `{Countable index} `{Countable coefficient}.
Variable E : @collaborators scalar ufl_form ufl_expr ufl_argument coefficient
               index gem stmt tabulation_manager index_cache impero_op
               impero_c world _ _.
Local Abbreviation M := (@M scalar world).
Local Abbreviation state := (@state scalar world).
Local Abbreviation pyval := (@pyval scalar).
Local Abbreviation integral := (@integral scalar ufl_expr).
Local Abbreviation integral_data := (@integral_data scalar ufl_expr).
Local Abbreviation form_data :=
  (@form_data scalar ufl_expr ufl_argument coefficient).
Local Abbreviation interpreter := (@interpreter index gem).
Local Abbreviation kernel_arguments :=
  (@kernel_arguments coefficient index gem stmt _ _).
Local Abbreviation lowered := (@lowered coefficient index gem stmt _ _).
Local Abbreviation scheduled := (@scheduled index gem impero_op).
Local Abbreviation Kernel := (@Kernel scalar stmt).
Implicit Types (s : state) (I : interpreter) (idata : integral_data)
  (fd : form_data) (itg : integral) (p : gmap string pyval)
  (ka : kernel_arguments) (lo : lowered) (sd : scheduled).

(** *** The callback handed to the scheduler *)

(** X13: [get_indices] answers for an expression exactly when each of
    its free indices is in the prefix ordering or in the multi-index of
    some [Indexed] node of the traversal; otherwise it raises. *)
Theorem get_indices_defined I prefix_ordering nodes expr :
  total_order (object_le I) →
  (∃ ordered,
     get_indices I (make_index_ordering E I prefix_ordering nodes) expr
       = inr ordered) ↔
  Forall (λ i, i ∈ prefix_ordering ∨ i ∈ collect_indices E nodes)
    (free_indices I expr).
Proof.
  intros Hle. unfold get_indices, make_index_ordering.
  rewrite unique_indices_first_occurrences by done.
  trans (is_Some (make_index_orderer
           (make_prefix_ordering (first_occurrences (collect_indices E nodes))
              prefix_ordering) (free_indices I expr))).
  { destruct (make_index_orderer _ _) as [ordered|].
    - split; [by eauto|]. intros _. by exists ordered.
    - split; [by intros [? ?]|by intros [? ?]]. }
  rewrite make_index_orderer_is_Some. apply Forall_iff. intros i.
  unfold make_prefix_ordering, first_occurrences.
  rewrite elem_of_app, list_elem_of_filter, elem_of_first_occurrences_from.
  rewrite elem_of_nil.
  destruct (decide (i ∈ prefix_ordering)); naive_solver.
Qed.

(** *** The kernel that is returned *)

(** What the return of a kernel tells about the phases. *)
Lemma compile_integral_Some_inv I idata fd prefix s (k : Kernel) s' :
  compile_integral E I idata fd prefix s = (inr (Some k), s') →
  ∃ ka s1 nonfem_ qs s2 licm body itg,
    prepare_kernel_arguments E idata fd (stripped s) = (inr ka, s1) ∧
    lower_integrals E I (integral_type idata) (ufl_cell (domain idata)) ka
      (Py.enumerate (integrals idata)) [] [] (new_index_cache E) s1
      = (inr (nonfem_, qs), s2) ∧
    parameters s2 !! "coffee_licm" = Some licm ∧
    build_kernel_body E I (expressions ka) (sum_restrictions E nonfem_)
      (qs ++ argument_indices ka) licm
      (make_index_names (argument_indices ka) qs) s2
      = (inr (Some body, oriented k), s') ∧
    last (integrals idata) = Some itg ∧
    k = {| ast := {| ret_type := "void";
                     funname := prefix +:+ "_" +:+ integral_type idata
                                +:+ "_integral_"
                                +:+ py_str (integral_subdomain_id itg);
                     args := if oriented k
                             then Py.list_insert 2 cell_orientations_decl
                                    (arglist ka)
                             else arglist ka;
                     body := prepare ka ++ [body] ++ finalise ka;
                     pred := ["static"; "inline"] |};
           kernel_integral_type := integral_type idata;
           kernel_subdomain_id := subdomain_id idata;
           coefficient_numbers := ka_coefficient_numbers ka;
           oriented := oriented k |}.
Proof.
  unfold compile_integral. intros Hrun.
  rewrite (bind_inr _ _ _ _ _ (remove_auto_parameters_run s)) in Hrun.
  apply bind_inr_inv in Hrun as (lo & s2 & Hlo & Hrun). cbv zeta in Hrun.
  apply bind_inr_inv in Hrun
    as (licm & s3 & [Hlicm ->]%parameter_inr_inv & Hrun).
  apply bind_inr_inv in Hrun as ([[body|] o] & s4 & Hbody & Hrun).
  2:{ by apply ret_inr_inv in Hrun as [? _]. }
  apply bind_inr_inv in Hrun as (k' & s5 & Hk & Hrun).
  apply ret_inr_inv in Hrun as [[= ->] ->].
  unfold finish_kernel in Hk.
  apply bind_inr_inv in Hk as (itg & s6 & [Hlast ->]%from_option_inr_inv & Hk).
  apply ret_inr_inv in Hk as [<- ->]. simpl.
  unfold lower in Hlo.
  apply bind_inr_inv in Hlo as (ka & s1 & Hka & Hlo).
  apply bind_inr_inv in Hlo as ([nonfem_ qs] & s7 & Hloop & Hlo).
  apply ret_inr_inv in Hlo as [<- ->]. simpl in *.
  unfold prefix_ordering_of in Hbody. simpl in Hbody.
  exists ka, s1, nonfem_, qs, s2, licm, body, itg.
  split_and!; done.
Qed.

(** X14: a kernel is only returned for a group with at least one
    integral, and its function is named after the prefix, the integral
    type and the subdomain id of the last integral of the group; the
    integral type and subdomain id recorded in the kernel are those of
    the integral data. *)
Theorem kernel_name_last_integral I idata fd prefix s (k : Kernel) s' :
  compile_integral E I idata fd prefix s = (inr (Some k), s') →
  ∃ itg,
    last (integrals idata) = Some itg ∧
    funname (ast k) =
      prefix +:+ "_" +:+ integral_type idata +:+ "_integral_"
      +:+ py_str (integral_subdomain_id itg) ∧
    ret_type (ast k) = "void" ∧
    pred (ast k) = ["static"; "inline"] ∧
    kernel_integral_type k = integral_type idata ∧
    kernel_subdomain_id k = subdomain_id idata.
Proof.
  intros (ka & s1 & nonfem_ & qs & s2 & licm & body & itg & _ & _ & _ & _
          & Hlast & ->)%compile_integral_Some_inv.
  exists itg. by split_and!.
Qed.

(** *** Where the parameters of the kernel come from *)

(** The loop of lines 108-121, call by call. *)
Lemma prepare_coefficients_calls t fd mask k cn al pr cm s cn' al' pr' cm' s' :
  prepare_coefficients E t fd (Py.enumerate_from k mask) (cn, al, pr, cm) s
    = (inr (cn', al', pr', cm'), s') →
  ∃ results : list (Decl * list stmt * gem),
    Forall2
      (λ i r, ∃ coef w w',
         reduced_coefficients fd !! i = Some coef ∧
         prepare_coefficient E t coef ("w_" +:+ pretty i) None w
           = (inr r, w'))
      (filter (λ x : nat * bool, x.2 = true) (Py.enumerate_from k mask)).*1 results ∧
    al' = al ++ ((λ r, r.1.1) <$> results) ∧
    pr' = pr ++ mjoin ((λ r, r.1.2) <$> results) ∧
    ∀ c, is_Some (cm' !! c) ↔
         is_Some (cm !! c) ∨
         ∃ i, mask !! i = Some true ∧
              reduced_coefficients fd !! (k + i) = Some c.
Proof.
  revert k cn al pr cm s.
  induction mask as [|on mask IH]; intros k cn al pr cm s Hrun;
    change (Py.enumerate_from k (?x :: ?l))
      with ((k, x) :: Py.enumerate_from (S k) l) in *; simpl in Hrun.
  { apply ret_inr_inv in Hrun as [[= -> -> -> ->] _]. exists []. simpl.
    rewrite !app_nil_r. split_and!; [constructor|done..|].
    intros c. split; [by left|]. by intros [?|(i & Hi & _)]. }
  destruct on; simpl in Hrun.
  - apply bind_inr_inv in Hrun
      as (coef & s1 & [Hcoef ->]%from_option_inr_inv & Hrun).
    apply bind_inr_inv in Hrun as (pos & s2 & _ & Hrun).
    apply bind_inr_inv in Hrun as ([[funarg prepare_] expression] & s3 & Hcall & Hrun).
    apply call_inr_inv in Hcall.
    apply IH in Hrun as (results & Hres & -> & -> & Hcm).
    exists ((funarg, prepare_, expression) :: results). split_and!.
    + rewrite filter_cons_True by done. rewrite fmap_cons.
      constructor; [|done].
      by exists coef, (ext_state s2), (ext_state s3).
    + simpl. by rewrite <-(assoc (++)).
    + simpl. by rewrite <-!(assoc (++)).
    + intros c. rewrite Hcm, lookup_insert_is_Some. split.
      * intros [[<-|[_ ?]]|(i & Hi & Hc)].
        -- right. exists 0. by rewrite Nat.add_0_r.
        -- by left.
        -- right. exists (S i). by rewrite Nat.add_succ_r.
      * intros [Hc|([|i] & Hi & Hc)].
        -- left. destruct (decide (coef = c)); [by left|by right].
        -- left. left. rewrite Nat.add_0_r in Hc. congruence.
        -- right. exists i. by rewrite Nat.add_succ_r in Hc.
  - apply IH in Hrun as (results & Hres & -> & -> & Hcm).
    exists results. split_and!; [|done..|].
    + by rewrite filter_cons_False by (simpl; congruence).
    + intros c. rewrite Hcm. split.
      * intros [?|(i & Hi & Hc)]; [by left|].
        right. exists (S i). by rewrite Nat.add_succ_r.
      * intros [?|([|i] & Hi & Hc)]; [by left|done|].
        right. exists i. by rewrite Nat.add_succ_r in Hc.
Qed.

Lemma prepare_kernel_arguments_calls idata fd s ka s' :
  prepare_kernel_arguments E idata fd s = (inr ka, s') →
  ∃ a pa w1 c w2 w3 results,
    prepare_arguments E (integral_type idata) (preprocessed_form_arguments fd)
      (ext_state s) = (inr (a, pa, expressions ka, finalise ka), w1) ∧
    coordinate_coefficient E (domain idata) w1 = (inr (coordinates ka), w2) ∧
    prepare_coefficient E (integral_type idata) (coordinates ka) "coords"
      (if is_mesh_affine (domain idata) then Some "list_tensor" else None) w2
      = (inr c, w3) ∧
    Forall2
      (λ i r, ∃ coef w w',
         reduced_coefficients fd !! i = Some coef ∧
         prepare_coefficient E (integral_type idata) coef
           ("w_" +:+ pretty i) None w = (inr r, w'))
      (enabled_indices (enabled_coefficients idata)) results ∧
    arglist ka = [a; c.1.1] ++ ((λ r, r.1.1) <$> results)
                 ++ facet_arguments (integral_type idata) ∧
    prepare ka = pa ++ c.1.2 ++ mjoin ((λ r, r.1.2) <$> results) ∧
    ∀ coef, is_Some (coefficient_map ka !! coef) ↔
            coef = coordinates ka ∨
            ∃ i, enabled_coefficients idata !! i = Some true ∧
                 reduced_coefficients fd !! i = Some coef.
Proof.
  unfold prepare_kernel_arguments. intros Hrun.
  apply bind_inr_inv in Hrun
    as ([[[a pa] ex] fin] & s1 & [Hpa ->]%call_inr_inv_state & Hrun).
  apply bind_inr_inv in Hrun as (e0 & s2 & [_ ->]%from_option_inr_inv & Hrun).
  apply bind_inr_inv in Hrun as (mi & s3 & [_ ->]%from_option_inr_inv & Hrun).
  apply bind_inr_inv in Hrun as (co & s4 & [Hco ->]%call_inr_inv_state & Hrun).
  apply bind_inr_inv in Hrun
    as ([[c pc] ec] & s5 & [Hc ->]%call_inr_inv_state & Hrun).
  apply bind_inr_inv in Hrun as ([[[cn al] pr] cm] & s6 & Hloop & Hrun).
  apply ret_inr_inv in Hrun as [<- _]. simpl in *.
  apply prepare_coefficients_calls in Hloop as (results & Hres & -> & -> & Hcm).
  exists a, pa, (ext_state s1), (c, pc, ec), (ext_state s4), (ext_state s5),
    results.
  split_and!; [done..| | |].
  - done.
  - simpl. by rewrite <-(assoc (++)).
  - intros coef. rewrite Hcm, lookup_insert_is_Some, lookup_empty.
    split.
    + intros [[<-|[_ [? ?]]]|?]; [by left|done|by right].
    + intros [->|?]; [left; by left|by right].
Qed.

(** X15: the parameters and the statements of a compiled kernel.  The
    parameter list is the declaration [prepare_arguments] returned for
    the arguments of the form, the one [prepare_coefficient] returned for
    the coordinate field under the name [coords] (asked in [list_tensor]
    mode on an affine mesh only), the cell orientations if the kernel is
    oriented, the declarations [prepare_coefficient] returned for the
    enabled coefficients under the names [w_i], [i] being the position in
    [reduced_coefficients], and the facet argument.  The body is the
    preparation statements of these calls in the same order, one
    statement for the integrals, and the finalisation statements. *)
Theorem kernel_parameters_origin I idata fd prefix s (k : Kernel) s' :
  compile_integral E I idata fd prefix s = (inr (Some k), s') →
  ∃ a pa ex fin w0 w1 coords w2 c w3 results stmt_,
    prepare_arguments E (integral_type idata) (preprocessed_form_arguments fd)
      w0 = (inr (a, pa, ex, fin), w1) ∧
    coordinate_coefficient E (domain idata) w1 = (inr coords, w2) ∧
    prepare_coefficient E (integral_type idata) coords "coords"
      (if is_mesh_affine (domain idata) then Some "list_tensor" else None) w2
      = (inr c, w3) ∧
    Forall2
      (λ i r, ∃ coef w w',
         reduced_coefficients fd !! i = Some coef ∧
         prepare_coefficient E (integral_type idata) coef
           ("w_" +:+ pretty i) None w = (inr r, w'))
      (enabled_indices (enabled_coefficients idata)) results ∧
    args (ast k) =
      [a; c.1.1] ++ (if oriented k then [cell_orientations_decl] else [])
      ++ ((λ r, r.1.1) <$> results)
      ++ facet_arguments (integral_type idata) ∧
    body (ast k) =
      pa ++ c.1.2 ++ mjoin ((λ r, r.1.2) <$> results) ++ [stmt_] ++ fin.
Proof.
  intros (ka & s1 & nonfem_ & qs & s2 & licm & body & itg & Hka & _ & _ & _
          & _ & ->)%compile_integral_Some_inv.
  apply prepare_kernel_arguments_calls in Hka
    as (a & pa & w1 & c & w2 & w3 & results & Hpa & Hco & Hc & Hres & Hal
        & Hpr & _).
  exists a, pa, (expressions ka), (finalise ka), (ext_state s), w1,
    (coordinates ka), w2, c, w3, results, body.
  simpl. rewrite Hal, Hpr.
  split_and!; [done..| |by rewrite <-!(assoc (++))].
  by destruct (oriented k).
Qed.

(** X16: the coefficient map handed to [fem.process] has an entry for the
    coordinate field and for each coefficient of [reduced_coefficients]
    whose entry in [enabled_coefficients] is true, and no other. *)
Theorem coefficient_map_domain idata fd s ka s' :
  prepare_kernel_arguments E idata fd s = (inr ka, s') →
  ∀ coef, is_Some (coefficient_map ka !! coef) ↔
          coef = coordinates ka ∨
          ∃ i, enabled_coefficients idata !! i = Some true ∧
               reduced_coefficients fd !! i = Some coef.
Proof.
  intros (a & pa & w1 & c & w2 & w3 & results & _ & _ & _ & _ & _ & _
          & Hcm)%prepare_kernel_arguments_calls.
  exact Hcm.
Qed.

(** *** [build_kernel_body] *)

(** X17: [build_kernel_body] reports an oriented kernel exactly when it
    returns a body and the first traversal of the expressions, after the
    component tensors are removed, meets a variable named
    [cell_orientations]; with no operation left it reports [False]
    whatever the traversal met. *)
Theorem oriented_from_traversal I rv ir prefix_ordering licm names s body_ o s' :
  build_kernel_body E I rv ir prefix_ordering licm names s
    = (inr (body_, o), s') →
  ∃ ir' w1 nodes w2,
    remove_componenttensors E ir (ext_state s) = (inr ir', w1) ∧
    traversal E ir' w1 = (inr nodes, w2) ∧
    (o = true ↔
     is_Some body_ ∧
     ∃ node, node ∈ nodes ∧
             variable_name E node = Some "cell_orientations").
Proof.
  unfold build_kernel_body. intros Hrun.
  apply bind_inr_inv in Hrun as (sd & s1 & Hsd & Hrun).
  unfold schedule in Hsd.
  apply bind_inr_inv in Hsd
    as (ir' & s2 & [Hir ->]%call_inr_inv_state & Hsd).
  apply bind_inr_inv in Hsd
    as (nodes & s3 & [Hnodes ->]%call_inr_inv_state & Hsd).
  apply bind_inr_inv in Hsd as (nodes' & s4 & _ & Hsd).
  apply bind_inr_inv in Hsd as (ops & s5 & _ & Hsd).
  apply ret_inr_inv in Hsd as [<- _]. simpl in *.
  exists ir', (ext_state s2), nodes, (ext_state s3).
  split_and!; [done..|].
  assert (existsb
            (λ node, bool_decide (variable_name E node = Some "cell_orientations"))
            nodes = true ↔
          ∃ node, node ∈ nodes ∧
                  variable_name E node = Some "cell_orientations") as Hex.
  { rewrite existsb_exists. split; intros (node & Hin & Hv); exists node.
    - by rewrite list_elem_of_In, <-(bool_decide_eq_true _).
    - by rewrite <-list_elem_of_In, bool_decide_eq_true. }
  destruct (bool_decide (length ops = 0)).
  - apply ret_inr_inv in Hrun as [[= <- <-] _].
    split; [done|]. by intros [[? ?] _].
  - apply bind_inr_inv in Hrun as (ops' & s6 & _ & Hrun).
    apply bind_inr_inv in Hrun as (ic & s7 & _ & Hrun).
    apply bind_inr_inv in Hrun as (b & s8 & _ & Hrun).
    apply ret_inr_inv in Hrun as [[= <- <-] _].
    rewrite Hex. split; [by eauto|]. by intros [_ ?].
Qed.

(** *** [compile_form] *)

Lemma compile_integral_strips I idata fd prefix s :
  parameters (compile_integral E I idata fd prefix s).2
    = strip_auto (parameters s).
Proof.
  unfold compile_integral.
  rewrite (bind_inr _ _ _ _ _ (remove_auto_parameters_run s)).
  destruct (keeps_compile_integral_rest E I idata fd prefix (stripped s))
    as [Hp _].
  exact Hp.
Qed.

Lemma strip_auto_idemp p : strip_auto (strip_auto p) = strip_auto p.
Proof.
  unfold strip_auto.
  set (p1 := if is_auto (p !! "quadrature_degree")
             then delete "quadrature_degree" p else p).
  assert (is_auto (p1 !! "quadrature_degree") = false) as H1.
  { subst p1. destruct (is_auto (p !! "quadrature_degree")) eqn:Hd;
      [by rewrite lookup_delete_eq|done]. }
  set (p2 := if is_auto (p1 !! "quadrature_rule")
             then delete "quadrature_rule" p1 else p1).
  assert (is_auto (p2 !! "quadrature_degree") = false) as H2.
  { subst p2. destruct (is_auto (p1 !! "quadrature_rule"));
      [by rewrite lookup_delete_ne|done]. }
  assert (is_auto (p2 !! "quadrature_rule") = false) as H3.
  { subst p2. destruct (is_auto (p1 !! "quadrature_rule")) eqn:Hr;
      [by rewrite lookup_delete_eq|done]. }
  by rewrite H2, H3.
Qed.

(** X18: all the integral data of a form are compiled against one
    dictionary: after the first [compile_integral] has deleted the
    [auto] entries, the later ones find it as the first left it, and
    so does the caller of the loop, whether the loop ends or raises. *)
Theorem compile_integrals_parameters I fd prefix l kernels s :
  l ≠ [] →
  parameters (compile_integrals E I fd prefix l kernels s).2
    = strip_auto (parameters s).
Proof.
  intros Hne. revert kernels s.
  induction l as [|idata l IH]; [done|]. clear Hne. intros kernels s. simpl.
  pose proof (compile_integral_strips I idata fd prefix s) as Hp.
  unfold bind.
  destruct (compile_integral E I idata fd prefix s) as [[e|kernel] s1];
    simpl in *; [done|].
  destruct l as [|idata' l]; [done|].
  rewrite IH by done. by rewrite Hp, strip_auto_idemp.
Qed.

Lemma compile_integrals_sublist I fd prefix l kernels s ks s' :
  compile_integrals E I fd prefix l kernels s = (inr ks, s') →
  ∃ new : list Kernel,
    ks = kernels ++ new ∧
    (λ k, (kernel_integral_type k, kernel_subdomain_id k)) <$> new
      `sublist_of` (λ idata, (integral_type idata, subdomain_id idata)) <$> l.
Proof.
  revert kernels s. induction l as [|idata l IH]; intros kernels s; simpl.
  { intros [<- _]%ret_inr_inv. exists []. by rewrite app_nil_r. }
  intros Hrun.
  apply bind_inr_inv in Hrun as ([k|] & s1 & Hk & Hrun).
  - apply IH in Hrun as (new & -> & Hsub).
    exists (k :: new). split; [by rewrite <-(assoc (++))|].
    apply compile_integral_Some_inv in Hk
      as (ka & ? & nonfem_ & qs & ? & licm & body & itg & _ & _ & _ & _
          & _ & ->).
    simpl. by apply sublist_skip.
  - apply IH in Hrun as (new & -> & Hsub).
    exists new. split; [done|]. by apply sublist_cons.
Qed.

Lemma compile_integrals_in_turn I fd prefix l kernels s ks s' :
  compile_integrals E I fd prefix l kernels s = (inr ks, s') →
  ∃ rs,
    compiled_in_turn E I fd prefix l rs s s' ∧
    ks = kernels ++ omap id rs ∧
    Forall2
      (λ idata r, ∀ k : Kernel,
         r = Some k →
         kernel_integral_type k = integral_type idata ∧
         kernel_subdomain_id k = subdomain_id idata) l rs.
Proof.
  revert kernels s. induction l as [|idata l IH]; intros kernels s; simpl.
  { intros [<- <-]%ret_inr_inv. exists []. by rewrite app_nil_r. }
  intros Hrun.
  apply bind_inr_inv in Hrun as (r & s1 & Hk & Hrun).
  apply IH in Hrun as (rs & Hturn & -> & Hrs).
  exists (r :: rs). split_and!.
  - by exists s1.
  - destruct r as [k|]; simpl; [|done]. by rewrite <-(assoc (++)).
  - constructor; [|done]. intros k ->.
    apply compile_integral_Some_inv in Hk
      as (ka & ? & nonfem_ & qs & ? & licm & body & itg & _ & _ & _ & _
          & _ & ->).
    done.
Qed.

(** X19: when [compile_form] returns, every integral data of the form has
    been compiled, in order and each from the state the one before left,
    starting with the default parameters updated by the caller's; the
    kernels returned are the results of these calls that are not [None],
    in that order, and no other: exactly the groups that compiled to
    [None] are left out.  Each kernel carries the integral type and the
    subdomain id of its integral data. *)
Theorem compile_form_kernels_in_order I form prefix parameters_ w ks w' :
  compile_form E I form prefix parameters_ w = (inr ks, w') →
  ∃ defaults w1 fd w2 rs s',
    default_parameters E w = (inr defaults, w1) ∧
    compute_form_data E form w1 = (inr fd, w2) ∧
    compiled_in_turn E I fd prefix (fd_integral_data fd) rs
      {| parameters := match parameters_ with
                       | None => defaults
                       | Some parameters => dict_update defaults parameters
                       end;
         trace := []; ext_state := w2 |} s' ∧
    w' = ext_state s' ∧
    ks = omap id rs ∧
    Forall2
      (λ idata r, ∀ k : Kernel,
         r = Some k →
         kernel_integral_type k = integral_type idata ∧
         kernel_subdomain_id k = subdomain_id idata)
      (fd_integral_data fd) rs ∧
    (λ k, (kernel_integral_type k, kernel_subdomain_id k)) <$> ks
      `sublist_of`
      (λ idata, (integral_type idata, subdomain_id idata))
        <$> fd_integral_data fd.
Proof.
  unfold compile_form.
  destruct (bind _ _ _) as [r s1] eqn:Hrun. intros [= -> <-].
  apply bind_inr_inv in Hrun
    as (defaults & s2 & [Hdef ->]%call_inr_inv_state & Hrun).
  apply bind_inr_inv in Hrun as ([] & s3 & Hset & Hrun).
  unfold set_parameters in Hset. injection Hset as <-.
  apply bind_inr_inv in Hrun as (fd & s4 & [Hfd ->]%call_inr_inv_state & Hrun).
  pose proof (compile_integrals_sublist _ _ _ _ _ _ _ _ Hrun)
    as (new & Hnew & Hsub).
  apply compile_integrals_in_turn in Hrun as (rs & Hturn & -> & Hrs).
  simpl in *. subst new.
  by exists defaults, (ext_state s2), fd, (ext_state s4), rs, s1.
Qed.

(** *** The quadrature indices *)


End driver_kernel_facts.

(** * The driver on concrete integrals *)

Example unique_indices_example :
  unique_indices Nat.leb [5; 3; 5; 7; 3; 1] = [5; 3; 7; 1] ∧
  unique_indices (λ a b, Nat.leb b a) [5; 3; 5; 7; 3; 1] = [5; 3; 7; 1].
Proof. split; reflexivity. Qed.

Example make_index_orderer_example :
  make_index_orderer [10; 20; 30; 40] [40; 10; 30] = Some [10; 30; 40] ∧
  make_index_orderer [10; 20; 30; 40] [40; 50] = None.
Proof. split; vm_compute; reflexivity. Qed.

Example zip_star_example :
  Py.zip_star [[1; 2; 3]; [4; 5]; [6; 7; 8]] = [[1; 4; 6]; [2; 5; 7]].
Proof. reflexivity. Qed.

Example is_mesh_affine_example :
  is_mesh_affine mini_mesh = true ∧
  is_mesh_affine {| ufl_cell := {| cellname := "quadrilateral" |};
                    ufl_coordinate_element_degree := 1 |} = false ∧
  is_mesh_affine {| ufl_cell := {| cellname := "triangle" |};
                    ufl_coordinate_element_degree := 2 |} = false.
Proof. repeat split; reflexivity. Qed.



(** C2, counterexample: the first term lowers to two fragments and the
    second to one; [compile_integral] raises nothing and returns a kernel,
    built from the first fragments only. *)
Lemma mismatched_fragments_compile :
  ∃ ka s1 nonfem_ qs s2 kernel s3,
    prepare_kernel_arguments mini mismatch_idata mini_fd mini_state_stripped
      = (inr ka, s1) ∧
    lower_integrals mini mini_run "interior_facet" (ufl_cell mini_mesh) ka
      (Py.enumerate (integrals mismatch_idata)) [] [] () s1
      = (inr (nonfem_, qs), s2) ∧
    length <$> nonfem_ = [2; 1] ∧
    length (sum_restrictions mini nonfem_) = 1 ∧
    compile_integral mini mini_run mismatch_idata mini_fd "form" mini_state
      = (inr (Some kernel), s3).
Proof.
  eexists _, _, _, _, _, _, _.
  split; [vm_compute; reflexivity|].
  split; [vm_compute; reflexivity|].
  split; [vm_compute; reflexivity|].
  split; [vm_compute; reflexivity|].
  vm_compute. reflexivity.
Qed.

(** C3, witness: an integral whose only fragment is zero. *)
Lemma zero_integral_gives_no_kernel_mini :
  ∃ s2,
    compile_integral mini mini_run zero_idata mini_fd "form" mini_state
      = (inr None, s2) ∧
    ∀ rest kernels,
      compile_integrals mini mini_run mini_fd "form" (zero_idata :: rest)
        kernels mini_state =
      compile_integrals mini mini_run mini_fd "form" rest kernels s2.
Proof.
  eexists.
  eapply (zero_integral_gives_no_kernel mini mini_run zero_idata mini_fd
            "form" mini_state).
  - vm_compute. reflexivity.
  - vm_compute. reflexivity.
  - vm_compute. reflexivity.
  - reflexivity.
Defined.

Lemma mini_reproducible : reproducible eq mini mini.
Proof. split; try done; by intros; intros w1 w2 ->. Qed.

(** C4, witness: the mass matrix in the two runs of the interpreter, from
    the same state. *)
Lemma compile_integral_run_independent_mass :
  (compile_integral mini mini_run mass_idata mini_fd "form" mini_state).1
    = (compile_integral mini mini_rerun mass_idata mini_fd "form"
         mini_state).1 ∧
  ∃ kernel,
    (compile_integral mini mini_rerun mass_idata mini_fd "form"
       mini_state).1 = inr (Some kernel).
Proof.
  assert (∀ e, free_indices mini_run e ≡ₚ free_indices mini_rerun e)
    as Hfree.
  { intros e. simpl. by rewrite reverse_Permutation. }
  destruct (compile_integral_run_independent mini mini mini_run mini_rerun eq
              nat_leb_total_order nat_geb_total_order Hfree
              mini_reproducible mass_idata mini_fd "form")
    as (_ & _ & Hruns).
  destruct (Hruns mini_state mini_state eq_refl eq_refl) as (Hresult & _).
  split; [exact Hresult|].
  eexists. vm_compute. reflexivity.
Defined.

(** C5, witness: the metadata of the integral give the string ["gauss"]
    as quadrature rule. *)
Lemma compile_integral_rejects_gauss :
  ∃ e s' evs,
    compile_integral mini mini_run bad_rule_idata mini_fd "form" mini_state
      = (inl e, s') ∧
    trace s' = trace mini_state ++ evs ∧
    Forall (λ ev, ¬ lowering_of 0 ev) evs ∧
    (EvCreateQuadrature 0 ∈ evs →
     e = ValueError ("Expected to find a QuadratureRule object, not a "
                     +:+ py_type (PyStr "gauss" : @pyval Z)) ∨
     ∃ c' t' d w, (create_quadrature mini c' t' d w).1 = inl e).
Proof.
  apply (compile_integral_rejects_quadrature_rule mini mini_run bad_rule_idata
           mini_fd "form" mini_state 0
           (mini_integral [mass_fragment] {[ "quadrature_rule" := PyStr "gauss" ]})
           (PyStr "gauss")).
  - reflexivity.
  - vm_compute. reflexivity.
  - intros q. discriminate.
Defined.

(** C6, witness: ["auto"] in the configuration, degree 4 in the metadata,
    estimate 2. *)
Lemma quadrature_degree_precedence_mini :
  is_auto (parameters mini_state !! "quadrature_degree") = true ∧
  Forall (λ itg, metadata itg !! "quadrature_degree" = Some (PyInt 4))
    (integrals degree_four_idata) ∧
  ∃ r s',
    compile_integral mini mini_run degree_four_idata mini_fd "form" mini_state
      = (inr r, s') ∧
    Forall
      (λ itg, ∃ d w default_rule w',
         create_quadrature mini (ufl_cell (domain degree_four_idata))
           (integral_type degree_four_idata) d w = (inr default_rule, w') ∧
         (∀ c, parameters mini_state !! "quadrature_degree" = Some c →
               is_auto (Some c) = false → d = c) ∧
         ((parameters mini_state !! "quadrature_degree" = None ∨
           is_auto (parameters mini_state !! "quadrature_degree") = true) →
          ∀ m, metadata itg !! "quadrature_degree" = Some m → d = m) ∧
         ((parameters mini_state !! "quadrature_degree" = None ∨
           is_auto (parameters mini_state !! "quadrature_degree") = true) →
          metadata itg !! "quadrature_degree" = None →
          integral_params (parameters mini_state) itg
            !! "estimated_polynomial_degree" = Some d))
      (integrals degree_four_idata).
Proof.
  split; [vm_compute; reflexivity|].
  split; [repeat constructor|].
  eexists _, _.
  refine (let Hrun := _ in
          conj Hrun
            (proj1 (quadrature_degree_precedence mini mini_run
                      degree_four_idata mini_fd "form") mini_state _ _ Hrun)).
  vm_compute. reflexivity.
Defined.

(** C7, witness: an exterior facet integral. *)
Lemma kernel_facet_argument_exterior :
  ∃ kernel s',
    compile_integral mini mini_run exterior_idata mini_fd "form" mini_state
      = (inr (Some kernel), s') ∧
    ∃ a c bufs,
      length bufs = 1 ∧
      args (ast kernel) =
        ([a; c] ++ (if oriented kernel then [cell_orientations_decl] else [])
         ++ bufs) ++
        [{| typ := "unsigned int"; sym := {| symbol := "facet"; rank := [1] |};
            qualifiers := ["const"] |}].
Proof.
  eexists _, _. split; [vm_compute; reflexivity|].
  lazymatch goal with
  | |- ∃ a c bufs, _ ∧ args (ast ?k) = _ =>
      edestruct (kernel_facet_argument mini mini_run exterior_idata mini_fd
                   "form" mini_state k)
        as (a & c & bufs & Hlen & Hexterior & _);
        [vm_compute; reflexivity|]
  end.
  exists a, c, bufs. split; [exact Hlen|]. apply Hexterior. left.
Defined.

(** C8, witness: of the two reduced coefficients the second is enabled; it
    is coefficient 2 of the original form. *)
Lemma kernel_coefficient_numbers_mass :
  ∃ kernel s',
    compile_integral mini mini_run mass_idata mini_fd "form" mini_state
      = (inr (Some kernel), s') ∧
    enabled_positions [false; true] [0; 2] = [2] ∧
    coefficient_numbers kernel = enabled_positions [false; true] [0; 2] ∧
    ∃ a c bufs,
      length bufs = count_enabled [false; true] ∧
      length bufs = length (coefficient_numbers kernel) ∧
      args (ast kernel) =
        [a; c] ++ (if oriented kernel then [cell_orientations_decl] else [])
        ++ bufs ++ facet_arguments "cell".
Proof.
  eexists _, _. split; [vm_compute; reflexivity|].
  split; [reflexivity|].
  lazymatch goal with
  | |- coefficient_numbers ?k = _ ∧ _ =>
      eapply (kernel_coefficient_numbers mini mini_run mass_idata mini_fd
                "form" mini_state k)
  end.
  vm_compute. reflexivity.
Defined.

(** C10, counterexample: the dictionary handed in has
    [quadrature_degree] set to ["auto"]; after the call the entry is
    gone. *)
Lemma compile_integral_deletes_auto :
  parameters mini_state !! "quadrature_degree" = Some (PyStr "auto") ∧
  parameters
    (compile_integral mini mini_run mass_idata mini_fd "form" mini_state).2
    !! "quadrature_degree" = None.
Proof. split; vm_compute; reflexivity. Qed.

(** ** The further properties on concrete inputs *)

(** X1, on arguments that repeat indices. *)
Lemma make_prefix_ordering_NoDup_mass :
  make_prefix_ordering [0; 1; 5; 1] [2; 0; 2] = [2; 0; 2; 1; 5; 1] ∧
  [2; 0; 2] `prefix_of` make_prefix_ordering [0; 1; 5; 1] [2; 0; 2] ∧
  (∀ k, k ∈ make_prefix_ordering [0; 1; 5; 1] [2; 0; 2] ↔
        k ∈ [2; 0; 2] ∨ k ∈ [0; 1; 5; 1]) ∧
  drop (length [2; 0; 2]) (make_prefix_ordering [0; 1; 5; 1] [2; 0; 2])
    `sublist_of` [0; 1; 5; 1] ∧
  (NoDup [2; 0; 2] → NoDup [0; 1; 5; 1] →
   NoDup (make_prefix_ordering [0; 1; 5; 1] [2; 0; 2])).
Proof.
  split; [vm_compute; reflexivity|].
  exact (make_prefix_ordering_NoDup [0; 1; 5; 1] [2; 0; 2]).
Defined.

(** X3, witness. *)
Lemma apply_ordering_sorted_example :
  make_index_orderer [10; 20; 30; 40] [40; 10; 30] = Some [10; 30; 40] ∧
  [10; 30; 40] ≡ₚ [40; 10; 30] ∧
  StronglySorted
    (λ a b, ∃ p q, [10; 20; 30; 40] !! p = Some a ∧
                   [10; 20; 30; 40] !! q = Some b ∧ p ≤ q)
    [10; 30; 40].
Proof.
  assert (make_index_orderer [10; 20; 30; 40] [40; 10; 30]
            = Some [10; 30; 40]) as Hrun.
  { vm_compute. reflexivity. }
  exact (conj Hrun (apply_ordering_sorted _ _ _ Hrun)).
Defined.

(** X4, witness: the interpreter orders the objects upwards; the first
    occurrences are kept, not the last ([5; 7; 3; 1]). *)
Lemma unique_indices_removes_repetitions_example :
  first_occurrences [5; 3; 5; 7; 3; 1] = [5; 3; 7; 1] ∧
  unique_indices Nat.leb [5; 3; 5; 7; 3; 1]
    = first_occurrences [5; 3; 5; 7; 3; 1] ∧
  NoDup (unique_indices Nat.leb [5; 3; 5; 7; 3; 1]) ∧
  (∀ i, i ∈ unique_indices Nat.leb [5; 3; 5; 7; 3; 1] ↔
        i ∈ [5; 3; 5; 7; 3; 1]) ∧
  unique_indices Nat.leb [5; 3; 5; 7; 3; 1] `sublist_of` [5; 3; 5; 7; 3; 1] ∧
  (∀ m n a b,
     unique_indices Nat.leb [5; 3; 5; 7; 3; 1] !! m = Some a →
     unique_indices Nat.leb [5; 3; 5; 7; 3; 1] !! n = Some b →
     m < n →
     ∃ p, [5; 3; 5; 7; 3; 1] !! p = Some a ∧
          ∀ q, [5; 3; 5; 7; 3; 1] !! q = Some b → p < q) ∧
  (NoDup [5; 3; 5; 7; 3; 1] →
   unique_indices Nat.leb [5; 3; 5; 7; 3; 1] = [5; 3; 5; 7; 3; 1]).
Proof.
  split; [vm_compute; reflexivity|].
  exact (unique_indices_removes_repetitions Nat.leb [5; 3; 5; 7; 3; 1]
           nat_leb_total_order).
Defined.

(** X5, witness: the metadata name a rule with two points; the rule for
    degree 2 is built all the same, and the two points go to the
    tabulation manager. *)
Lemma quadrature_rule_used_own_rule :
  ∃ ka s1 r s',
    prepare_kernel_arguments mini own_rule_idata mini_fd mini_state_stripped
      = (inr ka, s1) ∧
    lower_integral mini mini_run "cell" (ufl_cell mini_mesh) ka 0
      (mini_integral [mass_fragment]
         {[ "quadrature_rule" := PyQuadratureRule own_rule ]}) () s1
      = (inr r, s') ∧
    ∃ d default_rule w1 quad_rule tm w2 integrand1 qi raw cache1 w4 w5,
      quadrature_degree
        (integral_params (parameters s1)
           (mini_integral [mass_fragment]
              {[ "quadrature_rule" := PyQuadratureRule own_rule ]})) = inr d ∧
      create_quadrature mini (ufl_cell mini_mesh) "cell" d (ext_state s1)
        = (inr default_rule, w1) ∧
      (∀ q, integral_params (parameters s1)
              (mini_integral [mass_fragment]
                 {[ "quadrature_rule" := PyQuadratureRule own_rule ]})
              !! "quadrature_rule" = Some (PyQuadratureRule q) →
            quad_rule = q) ∧
      (integral_params (parameters s1)
         (mini_integral [mass_fragment]
            {[ "quadrature_rule" := PyQuadratureRule own_rule ]})
         !! "quadrature_rule" = None → quad_rule = default_rule) ∧
      TabulationManager mini "cell" (ufl_cell mini_mesh) (points quad_rule) w1
        = (inr tm, w2) ∧
      process mini "cell" integrand1 tm (weights quad_rule) qi
        (argument_indices ka) (coefficient_map ka) () w4
        = (inr (raw, cache1), w5).
Proof.
  eexists _, _, _, _. split; [vm_compute; reflexivity|].
  refine (let Hrun := _ in
          conj Hrun (quadrature_rule_used mini mini_run _ _ _ _ _ _ _ _ _ Hrun)).
  vm_compute. reflexivity.
Defined.

(** X6, witness: [unroll_indexsum] is 3 in the parameters. *)
Lemma unroll_indexsum_when_truthy_mass :
  ∃ ka s1 nonfem qi cache' s',
    prepare_kernel_arguments mini mass_idata mini_fd mini_state_stripped
      = (inr ka, s1) ∧
    lower_integral mini mini_run "cell" (ufl_cell mini_mesh) ka 0
      (mini_integral [mass_fragment] ∅) () s1
      = (inr (nonfem, qi, cache'), s') ∧
    ∃ unroll integrand1 tm wts raw w4 w5,
      parameters s1 !! "unroll_indexsum" = Some unroll ∧
      process mini "cell" integrand1 tm wts qi (argument_indices ka)
        (coefficient_map ka) () w4 = (inr (raw, cache'), w5) ∧
      (truthy unroll = false →
       nonfem = (λ e, if bool_decide (qi ∈ free_indices mini_run e)
                      then IndexSum mini e qi else e) <$> raw) ∧
      (truthy unroll = true →
       ∃ unrolled w6,
         unroll_indexsum mini raw unroll w5 = (inr unrolled, w6) ∧
         nonfem = (λ e, if bool_decide (qi ∈ free_indices mini_run e)
                        then IndexSum mini e qi else e) <$> unrolled).
Proof.
  eexists _, _, _, _, _, _. split; [vm_compute; reflexivity|].
  refine (let Hrun := _ in
          conj Hrun (unroll_indexsum_when_truthy mini mini_run _ _ _ _ _ _ _
                       _ _ _ _ Hrun)).
  vm_compute. reflexivity.
Defined.

(** X7, witness: a group of two integrals. *)
Lemma compile_integral_lowers_each_once_two :
  ∃ r s',
    compile_integral mini mini_run mismatch_idata mini_fd "form" mini_state
      = (inr r, s') ∧
    trace s' =
      trace mini_state
      ++ (seq 0 (length (integrals mismatch_idata)) ≫= integral_events).
Proof.
  eexists _, _.
  refine (let Hrun := _ in
          conj Hrun (compile_integral_lowers_each_once mini mini_run
                       mismatch_idata mini_fd "form" mini_state _ _ Hrun)).
  vm_compute. reflexivity.
Defined.

(** X8, witness: the metadata give degree 4 and no estimate. *)
Lemma missing_estimated_degree_explicit_degree :
  ∃ ka s1,
    prepare_kernel_arguments mini no_estimate_idata mini_fd
      (stripped mini_state) = (inr ka, s1) ∧
    metadata no_estimate_integral !! "quadrature_degree" = Some (PyInt 4) ∧
    compile_integral mini mini_run no_estimate_idata mini_fd "form" mini_state
      = (inl (KeyError "estimated_polynomial_degree"), s1).
Proof.
  eexists _, _.
  unshelve refine (let Hka := _ in
          conj Hka (conj _
            (missing_estimated_degree mini mini_run no_estimate_idata mini_fd
               "form" mini_state no_estimate_integral [] _ _ Hka _ _))).
  - vm_compute. reflexivity.
  - vm_compute. reflexivity.
  - reflexivity.
  - vm_compute. reflexivity.
Defined.

(** X9, witness: the mass matrix without [coffee_licm]. *)
Lemma missing_coffee_licm_mass :
  parameters (mini_state_without "coffee_licm") !! "coffee_licm" = None ∧
  ∃ e s',
    compile_integral mini mini_run mass_idata mini_fd "form"
      (mini_state_without "coffee_licm") = (inl e, s') ∧
    ∀ lo s1,
      lower mini mini_run mass_idata mini_fd
        (stripped (mini_state_without "coffee_licm")) = (inr lo, s1) →
      e = KeyError "coffee_licm" ∧ s' = s1.
Proof.
  refine (let Hnone := _ in
          conj Hnone (missing_coffee_licm mini mini_run mass_idata mini_fd
                        "form" (mini_state_without "coffee_licm") Hnone)).
  vm_compute. reflexivity.
Defined.

(** X10, witness: the mass matrix without [unroll_indexsum]. *)
Lemma missing_unroll_indexsum_mass :
  parameters (mini_state_without "unroll_indexsum") !! "unroll_indexsum"
    = None ∧
  integrals mass_idata ≠ [] ∧
  ∃ e s' evs,
    compile_integral mini mini_run mass_idata mini_fd "form"
      (mini_state_without "unroll_indexsum") = (inl e, s') ∧
    trace s' = trace (mini_state_without "unroll_indexsum") ++ evs ∧
    Forall (λ ev, event_term ev = 0) evs.
Proof.
  assert (parameters (mini_state_without "unroll_indexsum")
            !! "unroll_indexsum" = None) as Hnone.
  { vm_compute. reflexivity. }
  assert (integrals mass_idata ≠ []) as Hne.
  { discriminate. }
  exact (conj Hnone (conj Hne
           (missing_unroll_indexsum mini mini_run mass_idata mini_fd "form"
              (mini_state_without "unroll_indexsum") Hnone Hne))).
Defined.

(** X11, witness: the form has two coefficients and the third is
    enabled. *)
Lemma enabled_coefficient_out_of_range_third :
  enabled_coefficients third_coefficient_idata !! 2 = Some true ∧
  reduced_coefficients mini_fd !! 2 = None ∧
  ∃ e s',
    compile_integral mini mini_run third_coefficient_idata mini_fd "form"
      mini_state = (inl e, s') ∧
    trace s' = trace mini_state.
Proof.
  assert (enabled_coefficients third_coefficient_idata !! 2 = Some true)
    as Hon.
  { reflexivity. }
  assert (reduced_coefficients mini_fd !! 2 = None) as Hout.
  { reflexivity. }
  exact (conj Hon (conj Hout
           (enabled_coefficient_out_of_range mini mini_run
              third_coefficient_idata mini_fd "form" mini_state 2 Hon
              (or_introl Hout)))).
Defined.

(** X12, on three argument indices with two quadrature indices, and on
    two argument indices with one. *)
Lemma index_names_distinct_example :
  make_index_names [0; 1; 7] [2; 3]
    = [(0, "j"); (1, "k"); (2, "ip_0"); (3, "ip_1")] ∧
  make_index_names [0; 1] [2] = [(0, "j"); (1, "k"); (2, "ip")] ∧
  (make_index_names [0; 1; 7] [2; 3]).*1 = take 2 [0; 1; 7] ++ [2; 3] ∧
  (make_index_names [0; 1; 7] [2; 3]).*2
    = take (length [0; 1; 7]) ["j"; "k"]
      ++ (if bool_decide (length [2; 3] = 1) then ["ip"]
          else (λ i, "ip_" +:+ pretty i) <$> seq 0 (length [2; 3])) ∧
  NoDup (make_index_names [0; 1; 7] [2; 3]).*2.
Proof.
  split; [vm_compute; reflexivity|].
  split; [vm_compute; reflexivity|].
  exact (index_names_distinct [0; 1; 7] [2; 3]).
Defined.

(** X13, witness: the mass matrix fragment under the ordering built from
    its own traversal. *)
Lemma get_indices_defined_mass :
  (∃ ordered,
     get_indices mini_run
       (make_index_ordering mini mini_run [2] (mini_nodes mass_fragment))
       mass_fragment = inr ordered) ↔
  Forall (λ i, i ∈ [2] ∨ i ∈ collect_indices mini (mini_nodes mass_fragment))
    (free_indices mini_run mass_fragment).
Proof.
  exact (get_indices_defined mini mini_run [2] (mini_nodes mass_fragment)
           mass_fragment nat_leb_total_order).
Defined.

(** X14, witness: the group has subdomain id [otherwise] and its two
    integrals have ids 1 and 2; the kernel is named after 2. *)
Lemma kernel_name_last_integral_two :
  ∃ kernel s',
    compile_integral mini mini_run two_subdomains_idata mini_fd "form"
      mini_state = (inr (Some kernel), s') ∧
    funname (ast kernel) = "form_cell_integral_2" ∧
    ∃ itg,
      last (integrals two_subdomains_idata) = Some itg ∧
      funname (ast kernel) =
        "form" +:+ "_" +:+ integral_type two_subdomains_idata
        +:+ "_integral_" +:+ py_str (integral_subdomain_id itg) ∧
      ret_type (ast kernel) = "void" ∧
      pred (ast kernel) = ["static"; "inline"] ∧
      kernel_integral_type kernel = integral_type two_subdomains_idata ∧
      kernel_subdomain_id kernel = subdomain_id two_subdomains_idata.
Proof.
  eexists _, _.
  unshelve refine (let Hrun := _ in
          conj Hrun (conj _
            (kernel_name_last_integral mini mini_run two_subdomains_idata
               mini_fd "form" mini_state _ _ Hrun))).
  - vm_compute. reflexivity.
  - vm_compute. reflexivity.
Defined.

(** X15, witness: the mass matrix, with the second coefficient
    enabled. *)
Lemma kernel_parameters_origin_mass :
  ∃ kernel s',
    compile_integral mini mini_run mass_idata mini_fd "form" mini_state
      = (inr (Some kernel), s') ∧
    ∃ a pa ex fin w0 w1 coords w2 c w3 results stmt_,
      prepare_arguments mini (integral_type mass_idata)
        (preprocessed_form_arguments mini_fd) w0 = (inr (a, pa, ex, fin), w1) ∧
      coordinate_coefficient mini (domain mass_idata) w1 = (inr coords, w2) ∧
      prepare_coefficient mini (integral_type mass_idata) coords "coords"
        (if is_mesh_affine (domain mass_idata) then Some "list_tensor"
         else None) w2 = (inr c, w3) ∧
      Forall2
        (λ i r, ∃ coef w w',
           reduced_coefficients mini_fd !! i = Some coef ∧
           prepare_coefficient mini (integral_type mass_idata) coef
             ("w_" +:+ pretty i) None w = (inr r, w'))
        (enabled_indices (enabled_coefficients mass_idata)) results ∧
      args (ast kernel) =
        [a; c.1.1] ++ (if oriented kernel then [cell_orientations_decl] else [])
        ++ ((λ r, r.1.1) <$> results)
        ++ facet_arguments (integral_type mass_idata) ∧
      body (ast kernel) =
        pa ++ c.1.2 ++ mjoin ((λ r, r.1.2) <$> results) ++ [stmt_] ++ fin.
Proof.
  eexists _, _.
  refine (let Hrun := _ in
          conj Hrun (kernel_parameters_origin mini mini_run mass_idata mini_fd
                       "form" mini_state _ _ Hrun)).
  vm_compute. reflexivity.
Defined.

(** X16, witness: coordinates (coefficient 0) and the second reduced
    coefficient (11). *)
Lemma coefficient_map_domain_mass :
  ∃ ka s',
    prepare_kernel_arguments mini mass_idata mini_fd mini_state_stripped
      = (inr ka, s') ∧
    ∀ coef, is_Some (coefficient_map ka !! coef) ↔
            coef = coordinates ka ∨
            ∃ i, enabled_coefficients mass_idata !! i = Some true ∧
                 reduced_coefficients mini_fd !! i = Some coef.
Proof.
  eexists _, _.
  refine (let Hrun := _ in
          conj Hrun (coefficient_map_domain mini mass_idata mini_fd
                       mini_state_stripped _ _ Hrun)).
  vm_compute. reflexivity.
Defined.

(** X17, witness: an expression that reads the cell orientations. *)
Lemma oriented_from_traversal_example :
  ∃ body_ s',
    build_kernel_body mini mini_run [GIndexed (GVariable "A") [0]]
      [oriented_fragment] [0] (PyBool false) [] mini_state_stripped
      = (inr (body_, true), s') ∧
    ∃ ir' w1 nodes w2,
      remove_componenttensors mini [oriented_fragment]
        (ext_state mini_state_stripped) = (inr ir', w1) ∧
      traversal mini ir' w1 = (inr nodes, w2) ∧
      (true = true ↔
       is_Some body_ ∧
       ∃ node, node ∈ nodes ∧
               variable_name mini node = Some "cell_orientations").
Proof.
  eexists _, _.
  refine (let Hrun := _ in
          conj Hrun (oriented_from_traversal mini mini_run _ _ _ _ _ _ _ _ _
                       Hrun)).
  vm_compute. reflexivity.
Defined.

(** X18, witness: a zero group and an exterior facet group. *)
Lemma compile_integrals_parameters_two :
  [zero_idata; exterior_idata] ≠ [] ∧
  parameters
    (compile_integrals mini mini_run zero_mass_fd "form"
       [zero_idata; exterior_idata] [] mini_state).2
    = strip_auto (parameters mini_state).
Proof.
  assert ([zero_idata; exterior_idata] ≠ []) as Hne.
  { discriminate. }
  exact (conj Hne
           (compile_integrals_parameters mini mini_run zero_mass_fd "form"
              [zero_idata; exterior_idata] [] mini_state Hne)).
Defined.

(** X19, witness: of the two groups of the form the first simplifies to
    zero; one kernel is returned, for the second. *)
Lemma compile_form_kernels_in_order_two :
  ∃ ks w',
    compile_form mini mini_run zero_mass_fd "form" None 0 = (inr ks, w') ∧
    length ks = 1 ∧
    ∃ defaults w1 fd w2 rs s',
      default_parameters mini 0 = (inr defaults, w1) ∧
      compute_form_data mini zero_mass_fd w1 = (inr fd, w2) ∧
      compiled_in_turn mini mini_run fd "form" (fd_integral_data fd) rs
        {| parameters := defaults; trace := []; ext_state := w2 |} s' ∧
      w' = ext_state s' ∧
      ks = omap id rs ∧
      Forall2
        (λ idata r, ∀ k : @Kernel Z (list mini_op),
           r = Some k →
           kernel_integral_type k = integral_type idata ∧
           kernel_subdomain_id k = subdomain_id idata)
        (fd_integral_data fd) rs ∧
      (λ k, (kernel_integral_type k, kernel_subdomain_id k)) <$> ks
        `sublist_of`
        (λ idata, (integral_type idata, subdomain_id idata))
          <$> fd_integral_data fd.
Proof.
  eexists _, _.
  unshelve refine (let Hrun := _ in
          conj Hrun (conj _
            (compile_form_kernels_in_order mini mini_run zero_mass_fd "form"
               None 0 _ _ Hrun))).
  - vm_compute. reflexivity.
  - reflexivity.
Defined.

